(** * A payment gateway: persistence adapter, signed-request pipeline,
      invoice service and webhook worker.

    The development follows the TypeScript sources: the SQLite adapter
    ([lib/db]), the gateway handlers ([api/gw/invoices], [api/gw/security],
    [api/gw/router]) and the webhook worker ([lib/webhook_worker]).

    Conventions of the embedding.
    - A table with a primary key is a [gmap] from the key to the row; the
      statement [INSERT] fails on a key that is present, [INSERT OR REPLACE]
      overwrites, [UPDATE .. WHERE] alters and [DELETE .. WHERE] filters.
    - Unix seconds, amounts and counters are integers ([Z]).
    - A handler reads the clock several times ([Math.floor(Date.now()/1000)]);
      the model passes one reading [now] for the whole call.
    - [randomUUID()] results are arguments of the functions that draw them.
    - Code that talks to the database runs in the monad [M]: a state monad
      over [Db] whose result is a value or a thrown exception; the state at
      the throw is kept, as the adapter opens no transaction. *)

From stdpp Require Import gmap strings list fin_maps sorting.
From Stdlib Require Import ZArith Lia Ascii.

Local Open Scope Z_scope.

(** ** Rows of the tables *)

Inductive Env := production | sandbox.

Inductive InvoiceStatus := created | pending | paid | expired | refunded.

Inductive DeliveryStatus := queued | delivered | failed.

#[global] Instance Env_eq_dec : EqDecision Env.
Proof. solve_decision. Defined.

#[global] Instance InvoiceStatus_eq_dec : EqDecision InvoiceStatus.
Proof. solve_decision. Defined.

#[global] Instance DeliveryStatus_eq_dec : EqDecision DeliveryStatus.
Proof. solve_decision. Defined.

(** Values stored in JSON payloads of events and deliveries. *)
Inductive json := JNull | JNum (n : Z) | JStr (s : string).

#[global] Instance json_eq_dec : EqDecision json.
Proof. solve_decision. Defined.

Definition json_opt (o : option string) : json :=
  match o with Some s => JStr s | None => JNull end.

(** [pending_transactions], keyed by [id]. *)
Record PendingTransaction := mkPending {
  pt_username : string;
  pt_base_amount : Z;
  pt_unique_suffix : Z;
  pt_final_amount : Z;
  pt_qris_string : string;
  pt_created_at : Z;
  pt_expires_at : Z;
}.

(** [paid_transactions], keyed by [id]. *)
Record PaidTransaction := mkPaid {
  paid_username : string;
  paid_final_amount : Z;
  paid_paid_at : Z;
  paid_expires_at : Z;
}.

(** [invoices], keyed by [id]. *)
Record Invoice := mkInvoice {
  inv_merchant_id : string;
  inv_env : Env;
  inv_username : string;
  inv_reference_id : option string;
  inv_base_amount : Z;
  inv_unique_suffix : Z;
  inv_final_amount : Z;
  inv_status : InvoiceStatus;
  inv_qris_string : string;
  inv_created_at : Z;
  inv_expires_at : Z;
  inv_paid_at : option Z;
  inv_metadata_json : option string;
}.

(** [invoice_events], keyed by [id]. *)
Record InvoiceEvent := mkEvent {
  ev_invoice_id : string;
  ev_merchant_id : string;
  ev_event_type : string;
  ev_payload : list (string * json);
  ev_created_at : Z;
}.

(** [webhook_deliveries], keyed by [id]. *)
Record WebhookDelivery := mkDelivery {
  wd_merchant_id : string;
  wd_env : Env;
  wd_invoice_id : option string;
  wd_event_type : string;
  wd_payload : list (string * json);
  wd_status : DeliveryStatus;
  wd_attempt_count : Z;
  wd_next_retry_at : Z;
  wd_last_status_code : option Z;
  wd_last_error : option string;
  wd_response_snippet : option string;
  wd_created_at : Z;
  wd_updated_at : Z;
}.

(** [alerts], keyed by [id]. *)
Record Alert := mkAlert {
  al_merchant_id : option string;
  al_type : string;
  al_message : string;
  al_created_at : Z;
  al_resolved_at : option Z;
}.

(** The columns of [merchants] that the gateway reads. *)
Record Merchant := mkMerchant {
  m_status : string;
  m_webhook_url : option string;
  m_webhook_enabled : Z;
  m_sandbox_webhook_url : option string;
  m_sandbox_webhook_enabled : Z;
  m_ip_whitelist_enabled : Z;
}.

(** The secrets of [merchant_credentials]. *)
Record MerchantCredentials := mkCredentials {
  mc_api_secret : option string;
  mc_sandbox_api_secret : option string;
  mc_webhook_secret : option string;
  mc_sandbox_webhook_secret : option string;
}.

(** ** The database *)

Record Db := mkDb {
  pending_transactions : gmap string PendingTransaction;
  paid_transactions : gmap string PaidTransaction;
  used_nonces : gmap (string * string) Z;
  invoices : gmap string Invoice;
  invoice_events : gmap string InvoiceEvent;
  webhook_deliveries : gmap string WebhookDelivery;
  alerts : gmap string Alert;
  merchants : gmap string Merchant;
  merchant_credentials : gmap string MerchantCredentials;
  merchant_ip_whitelist : gmap (string * string) Z;
}.

Definition set_pending_transactions
    (f : gmap string PendingTransaction → gmap string PendingTransaction) (db : Db) : Db :=
  mkDb (f (pending_transactions db)) (paid_transactions db) (used_nonces db)
       (invoices db) (invoice_events db) (webhook_deliveries db) (alerts db)
       (merchants db) (merchant_credentials db) (merchant_ip_whitelist db).

Definition set_paid_transactions
    (f : gmap string PaidTransaction → gmap string PaidTransaction) (db : Db) : Db :=
  mkDb (pending_transactions db) (f (paid_transactions db)) (used_nonces db)
       (invoices db) (invoice_events db) (webhook_deliveries db) (alerts db)
       (merchants db) (merchant_credentials db) (merchant_ip_whitelist db).

Definition set_used_nonces
    (f : gmap (string * string) Z → gmap (string * string) Z) (db : Db) : Db :=
  mkDb (pending_transactions db) (paid_transactions db) (f (used_nonces db))
       (invoices db) (invoice_events db) (webhook_deliveries db) (alerts db)
       (merchants db) (merchant_credentials db) (merchant_ip_whitelist db).

Definition set_invoices (f : gmap string Invoice → gmap string Invoice) (db : Db) : Db :=
  mkDb (pending_transactions db) (paid_transactions db) (used_nonces db)
       (f (invoices db)) (invoice_events db) (webhook_deliveries db) (alerts db)
       (merchants db) (merchant_credentials db) (merchant_ip_whitelist db).

Definition set_invoice_events
    (f : gmap string InvoiceEvent → gmap string InvoiceEvent) (db : Db) : Db :=
  mkDb (pending_transactions db) (paid_transactions db) (used_nonces db)
       (invoices db) (f (invoice_events db)) (webhook_deliveries db) (alerts db)
       (merchants db) (merchant_credentials db) (merchant_ip_whitelist db).

Definition set_webhook_deliveries
    (f : gmap string WebhookDelivery → gmap string WebhookDelivery) (db : Db) : Db :=
  mkDb (pending_transactions db) (paid_transactions db) (used_nonces db)
       (invoices db) (invoice_events db) (f (webhook_deliveries db)) (alerts db)
       (merchants db) (merchant_credentials db) (merchant_ip_whitelist db).

Definition set_alerts (f : gmap string Alert → gmap string Alert) (db : Db) : Db :=
  mkDb (pending_transactions db) (paid_transactions db) (used_nonces db)
       (invoices db) (invoice_events db) (webhook_deliveries db) (f (alerts db))
       (merchants db) (merchant_credentials db) (merchant_ip_whitelist db).

Definition empty_db : Db := mkDb ∅ ∅ ∅ ∅ ∅ ∅ ∅ ∅ ∅ ∅.

(** ** The monad of database code *)

Inductive result (A : Type) : Type :=
  | Ok (a : A)
  | Thrown (message : string).
Arguments Ok {A} a.
Arguments Thrown {A} message.

Definition M (A : Type) : Type := Db → result A * Db.

#[global] Instance M_ret : MRet M := λ A a db, (Ok a, db).

#[global] Instance M_bind : MBind M := λ A B f m db,
  match m db with
  | (Ok a, db') => f a db'
  | (Thrown e, db') => (Thrown e, db')
  end.

Definition throw {A : Type} (message : string) : M A := λ db, (Thrown message, db).

Definition get_db : M Db := λ db, (Ok db, db).

Definition modify_db (f : Db → Db) : M unit := λ db, (Ok tt, f db).

(** [INSERT INTO t VALUES ..] on a table with a primary key. *)
Definition sql_insert `{Countable K} {V : Type} (k : K) (v : V) (t : gmap K V) : option (gmap K V) :=
  match t !! k with
  | Some _ => None
  | None => Some (<[k := v]> t)
  end.

(** [DELETE FROM t WHERE P]. *)
Definition sql_delete_where `{Countable K} {V : Type} (P : K * V → Prop)
    `{∀ kv, Decision (P kv)} (t : gmap K V) : gmap K V :=
  filter (λ kv, ¬ P kv) t.

(** [SELECT * FROM t WHERE P], as the rows with their keys. *)
Definition sql_select_where `{Countable K} {V : Type} (P : K * V → Prop)
    `{∀ kv, Decision (P kv)} (t : gmap K V) : list (K * V) :=
  filter P (map_to_list t).

(** Insertion of [x] in a list sorted by [lt], after the elements that are
    not greater. *)
Fixpoint insert_by {A : Type} (lt : A → A → bool) (x : A) (l : list A) : list A :=
  match l with
  | [] => [x]
  | y :: l' => if lt x y then x :: l else y :: insert_by lt x l'
  end.

(** [ORDER BY .. ASC], for the strict order [lt] of the sort key. *)
Definition order_by {A : Type} (lt : A → A → bool) (l : list A) : list A :=
  foldr (insert_by lt) [] l.

(** ** Suffix allocation ([lib/db]: cleanupExpired, getAvailableSuffix) *)

Definition cleanupExpired (now : Z) : M unit :=
  _ ← modify_db (set_pending_transactions (sql_delete_where (λ kv, pt_expires_at kv.2 < now)));
  modify_db (set_paid_transactions (sql_delete_where (λ kv, paid_expires_at kv.2 < now))).

(** The first [i] of the loop [for (i ..) if (!usedSet.has(i)) return i]. *)
Fixpoint first_unused (usedSet : gset Z) (range : list Z) : option Z :=
  match range with
  | [] => None
  | i :: range' => if decide (i ∈ usedSet) then first_unused usedSet range' else Some i
  end.

Definition getAvailableSuffix (now : Z) (username : string) : M Z :=
  _ ← cleanupExpired now;
  db ← get_db;
  let rows := sql_select_where (λ kv, pt_username kv.2 = username) (pending_transactions db) in
  let usedSet : gset Z := list_to_set ((λ kv, pt_unique_suffix kv.2) <$> rows) in
  match first_unused usedSet (seqZ 1 500) with
  | Some i => mret i
  | None =>
      match first_unused usedSet (seqZ 501 499) with
      | Some i => mret i
      | None => throw "No suffix available"
      end
  end.

(** ** JavaScript string helpers (ASCII) *)

Fixpoint trimStart (s : string) : string :=
  match s with
  | String c s' => if Ascii.is_space c then trimStart s' else s
  | EmptyString => EmptyString
  end.

(** [s.trim()]. *)
Definition trim (s : string) : string :=
  String.rev (trimStart (String.rev (trimStart s))).

Definition upper_ascii (c : Ascii.ascii) : Ascii.ascii :=
  let n := Ascii.N_of_ascii c in
  if ((97 <=? n) && (n <=? 122))%N then Ascii.ascii_of_N (n - 32) else c.

(** [s.toUpperCase()]. *)
Fixpoint toUpperCase (s : string) : string :=
  match s with
  | String c s' => String (upper_ascii c) (toUpperCase s')
  | EmptyString => EmptyString
  end.

(** [s.startsWith(p)]. *)
Fixpoint startsWith (s p : string) {struct p} : bool :=
  match p, s with
  | EmptyString, _ => true
  | String a p', String b s' => if decide (a = b) then startsWith s' p' else false
  | String _ _, EmptyString => false
  end.

(** [s.slice(n)] for [0 <= n]. *)
Fixpoint slice_from (n : nat) (s : string) : string :=
  match n, s with
  | O, _ => s
  | S n', String _ s' => slice_from n' s'
  | S _, EmptyString => EmptyString
  end.

(** [s.includes(c)] for a one-character needle. *)
Fixpoint includes_char (s : string) (c : Ascii.ascii) : bool :=
  match s with
  | String a s' => if decide (a = c) then true else includes_char s' c
  | EmptyString => false
  end.

(** [s.split(c)[0]]: the part of [s] before the first [c]. *)
Fixpoint split_first (s : string) (c : Ascii.ascii) : string :=
  match s with
  | String a s' => if decide (a = c) then EmptyString else String a (split_first s' c)
  | EmptyString => EmptyString
  end.

(** [x || d] for a string that may be undefined. *)
Definition or_default (x : option string) (d : string) : string :=
  match x with
  | Some s => if decide (s = "") then d else s
  | None => d
  end.

(** [x || null]: a non-empty string or nothing. *)
Definition non_empty (x : option string) : option string :=
  match x with
  | Some s => if decide (s = "") then None else Some s
  | None => None
  end.

(** ** Hexadecimal buffers ([Buffer.from(s, 'hex')]) *)

Definition hex_value (c : Ascii.ascii) : option Z :=
  let n := Z.of_N (Ascii.N_of_ascii c) in
  if (48 <=? n) && (n <=? 57) then Some (n - 48)
  else if (97 <=? n) && (n <=? 102) then Some (n - 87)
  else if (65 <=? n) && (n <=? 70) then Some (n - 55)
  else None.

(** Pairs of hex digits are decoded to bytes; decoding stops at the first
    pair that is not hexadecimal, and a trailing single digit is dropped. *)
Fixpoint buffer_from_hex (s : string) : list Z :=
  match s with
  | String a (String b s') =>
      match hex_value a, hex_value b with
      | Some h, Some l => (16 * h + l) :: buffer_from_hex s'
      | _, _ => []
      end
  | _ => []
  end.

Definition timingSafeEqualHex (a b : string) : bool :=
  let ab := buffer_from_hex a in
  let bb := buffer_from_hex b in
  if decide (length ab ≠ length bb) then false else bool_decide (ab = bb).

(** ** Requests and responses *)

Record Request := mkRequest {
  req_merchantId : option string;
  req_gwEnv : option Env;
  req_method : string;
  req_originalUrl : string;
  req_url : string;
  req_rawBody : option string;
  req_headers : gmap string string;
  req_ip : option string;
  req_params_id : option string;
  req_body : gmap string json;
}.

(** [req.header(name)], with the name in lower case. *)
Definition header (req : Request) (name : string) : option string :=
  req_headers req !! name.

(** What a middleware does with a request: it answers with an error
    envelope [{success: false, error: {code, ..}}] under an HTTP status, or
    it calls [next()]. *)
Inductive Outcome :=
  | Respond (status : Z) (code : string)
  | Next.

#[global] Instance Outcome_eq_dec : EqDecision Outcome.
Proof. solve_decision. Defined.

(** ** Anti-replay nonce helpers ([lib/db]) *)

Definition isNonceUsed (now : Z) (merchantId nonce : string) : M bool :=
  if decide (merchantId = "" ∨ nonce = "") then mret true
  else
    _ ← modify_db (set_used_nonces (sql_delete_where (λ kv, kv.2 ≤ now)));
    db ← get_db;
    mret (match used_nonces db !! (merchantId, nonce) with
          | Some expires_at => bool_decide (expires_at > now)
          | None => false
          end).

Definition markNonceUsed (merchantId nonce : string) (expiresAt : Z) : M unit :=
  modify_db (set_used_nonces (<[(merchantId, nonce) := expiresAt]>)).

Definition getMerchantSigningSecret (merchantId : string) (env : Env) : M (option string) :=
  db ← get_db;
  match merchant_credentials db !! merchantId with
  | None => mret None
  | Some row =>
      let sec := match env with
                 | sandbox => or_default (mc_sandbox_api_secret row) ""
                 | production => or_default (mc_api_secret row) ""
                 end in
      mret (non_empty (Some sec))
  end.

Definition getMerchantSecretForSigning (merchantId : string) (env : Env) : M (option string) :=
  getMerchantSigningSecret merchantId env.

(** ** The signed-request middleware ([api/gw/security]) *)

Section Signed.

(** [crypto.createHmac('sha256', secret).update(data).digest('hex')]. *)
Variable makeHmac : string → string → string.

(** [Number(s)] on the timestamp header, for the integer values:
    [None] stands for [NaN] and the infinities. *)
Variable Number : string → option Z.

Definition newline : string := String (Ascii.ascii_of_N 10) EmptyString.

Definition canonicalString (req : Request) (timestamp nonce : string) : string :=
  let method := toUpperCase (or_default (Some (req_method req)) "GET") in
  let path := or_default (Some (req_originalUrl req)) (or_default (Some (req_url req)) "/") in
  let body := match req_rawBody req with Some b => b | None => "" end in
  method +:+ newline +:+ path +:+ newline +:+ timestamp +:+ newline
    +:+ nonce +:+ newline +:+ body.

Definition requireSignedRequest (windowSeconds nonceTtlSeconds : Z)
    (now : Z) (req : Request) : M Outcome :=
  match non_empty (req_merchantId req) with
  | None => mret (Respond 401 "UNAUTHENTICATED")
  | Some merchantId =>
      let tsStr := trim (or_default (header req "x-timestamp") "") in
      let nonce := trim (or_default (header req "x-nonce") "") in
      let sig := trim (or_default (header req "x-signature") "") in
      if decide (tsStr = "" ∨ nonce = "" ∨ sig = "") then
        mret (Respond 400 "MISSING_SIGNATURE_HEADERS")
      else
        match Number tsStr with
        | None => mret (Respond 400 "INVALID_TIMESTAMP")
        | Some ts =>
            if decide (ts ≤ 0) then mret (Respond 400 "INVALID_TIMESTAMP")
            else if decide (Z.abs (now - ts) > windowSeconds) then
              mret (Respond 401 "REQUEST_EXPIRED")
            else
              used ← isNonceUsed now merchantId nonce;
              if (used : bool) then mret (Respond 409 "REPLAY_DETECTED")
              else
                secret ← getMerchantSecretForSigning merchantId
                            (default production (req_gwEnv req));
                match secret with
                | None => mret (Respond 401 "NO_SIGNING_SECRET")
                | Some secret =>
                    let data := canonicalString req tsStr nonce in
                    let expected := makeHmac secret data in
                    if timingSafeEqualHex expected sig then
                      _ ← markNonceUsed merchantId nonce (now + nonceTtlSeconds);
                      mret Next
                    else mret (Respond 401 "INVALID_SIGNATURE")
                end
        end
  end.


End Signed.


(** ** Configuration

    The constants read from the environment, [Number(process.env.X || d)],
    with the defaults [d] of the sources. *)

Record Config := mkConfig {
  EXPIRY_SECONDS : Z;
  PAID_EXPIRY_SECONDS : Z;
  MAX_ATTEMPTS : Z;
  BASE_BACKOFF_SECONDS : Z;
}.

Definition default_config : Config := mkConfig 600 3600 8 60.

(** ** JavaScript values of request bodies and upstream records *)

Definition digit_value (c : Ascii.ascii) : option Z :=
  let n := Z.of_N (Ascii.N_of_ascii c) in
  if (48 <=? n) && (n <=? 57) then Some (n - 48) else None.

Definition digit_char (d : Z) : Ascii.ascii := Ascii.ascii_of_N (Z.to_N (48 + d)).

(** The decimal digits of [n >= 0] in front of [acc]; [fuel] bounds the
    number of digits. *)
Fixpoint decimal_digits (fuel : nat) (n : Z) (acc : string) : string :=
  match fuel with
  | O => acc
  | S fuel' =>
      let acc' := String (digit_char (n mod 10)) acc in
      if n / 10 =? 0 then acc' else decimal_digits fuel' (n / 10) acc'
  end.

(** [String(n)] for an integer [n]. *)
Definition String_of_Z (n : Z) : string :=
  let fuel := S (Z.to_nat (Z.log2 (Z.abs n))) in
  if n <? 0 then String "-"%char (decimal_digits fuel (- n) EmptyString)
  else decimal_digits fuel n EmptyString.

(** The value of the longest prefix of decimal digits, if there is one. *)
Fixpoint digits_prefix (acc : option Z) (s : string) : option Z :=
  match s with
  | String c s' =>
      match digit_value c with
      | Some d => digits_prefix (Some (10 * default 0 acc + d)) s'
      | None => acc
      end
  | EmptyString => acc
  end.

(** [parseInt(s, 10)]; [None] is [NaN]. *)
Definition parseInt (s : string) : option Z :=
  match trimStart s with
  | String "-"%char r => Z.opp <$> digits_prefix None r
  | String "+"%char r => digits_prefix None r
  | r => digits_prefix None r
  end.

(** Is a value that may be missing truthy? *)
Definition truthy (v : option json) : bool :=
  match v with
  | Some (JStr s) => bool_decide (s ≠ "")
  | Some (JNum n) => bool_decide (n ≠ 0)
  | Some JNull | None => false
  end.

(** [String(v)]. *)
Definition String_of (v : option json) : string :=
  match v with
  | Some (JStr s) => s
  | Some (JNum n) => String_of_Z n
  | Some JNull => "null"
  | None => "undefined"
  end.

(** [s.replace(/\./g, '')]. *)
Fixpoint remove_dots (s : string) : string :=
  match s with
  | String c s' => if decide (c = "."%char) then remove_dots s' else String c (remove_dots s')
  | EmptyString => EmptyString
  end.

(** ** The upstream credit history ([lib/orderkuota]: getQrisHistory) *)

Record HistoryEntry := mkEntry {
  h_kredit : option json;
  h_status : option json;
}.

(** The [results] field of one of the two histories of the upstream answer:
    missing (or falsy), a truthy value that is not an array, or an array. *)
Inductive Results :=
  | NoResults
  | NotAnArray
  | ResultsArray (entries : list HistoryEntry).

Record HistoryResult := mkHistory {
  qris_ajaib_history : Results;
  qris_history : Results;
}.

(** [a?.results || b?.results || []], then [Array.isArray(..) ? .. : []]. *)
Definition history_entries (historyResult : HistoryResult) : list HistoryEntry :=
  let historyData :=
    match qris_ajaib_history historyResult with
    | NoResults =>
        match qris_history historyResult with
        | NoResults => ResultsArray []
        | r => r
        end
    | r => r
    end in
  match historyData with
  | ResultsArray entries => entries
  | _ => []
  end.

(** The amount that [checkInvoice] reads in an entry:
    [parseInt(String(h.kredit || '').replace(/\./g, ''), 10) || 0]. *)
Definition kredit_amount (h : HistoryEntry) : Z :=
  let kreditStr := remove_dots (if truthy (h_kredit h) then String_of (h_kredit h) else "") in
  default 0 (parseInt kreditStr).

(** The test of [history.find]. *)
Definition credit_matches (final_amount : Z) (h : HistoryEntry) : Prop :=
  kredit_amount h = final_amount ∧ h_status h = Some (JStr "IN").

#[global] Instance credit_matches_dec final_amount h : Decision (credit_matches final_amount h).
Proof. unfold credit_matches. apply _. Defined.

(** ** Invoice helpers of the adapter ([lib/db]) *)

Definition constraint_failed : string := "SQLITE_CONSTRAINT".

Definition getPendingTransaction (id : string) : M (option PendingTransaction) :=
  db ← get_db; mret (pending_transactions db !! id).

Definition deletePendingTransaction (id : string) : M unit :=
  modify_db (set_pending_transactions (delete id)).

Definition createPaidTransaction (id : string) (tx : PaidTransaction) : M unit :=
  db ← get_db;
  match sql_insert id tx (paid_transactions db) with
  | Some t => modify_db (set_paid_transactions (λ _, t))
  | None => throw constraint_failed
  end.

Definition getPaidTransaction (id : string) : M (option PaidTransaction) :=
  db ← get_db; mret (paid_transactions db !! id).

(** [SELECT * FROM invoices WHERE id = ? AND merchant_id = ?], or by [id]
    alone when no merchant is given. *)
Definition getInvoiceById (invoiceId : string) (merchantId : option string) : M (option Invoice) :=
  db ← get_db;
  mret (match invoices db !! invoiceId, non_empty merchantId with
        | Some row, Some m => if decide (inv_merchant_id row = m) then Some row else None
        | Some row, None => Some row
        | None, _ => None
        end).

Definition invoice_with_status (status : InvoiceStatus) (paid_at : option Z) (row : Invoice) : Invoice :=
  mkInvoice (inv_merchant_id row) (inv_env row) (inv_username row) (inv_reference_id row)
    (inv_base_amount row) (inv_unique_suffix row) (inv_final_amount row) status
    (inv_qris_string row) (inv_created_at row) (inv_expires_at row) paid_at
    (inv_metadata_json row).

(** [UPDATE invoices SET status = ?[, paid_at = ?] WHERE id = ? AND
    merchant_id = ?]: the row is selected by its key and its merchant. *)
Definition updateInvoiceStatus (now : Z) (invoiceId merchantId : string)
    (status : InvoiceStatus) (paidAt : option Z) : M unit :=
  modify_db (set_invoices (alter (λ row,
    if decide (inv_merchant_id row = merchantId) then
      match status with
      | paid => invoice_with_status status (Some (default now paidAt)) row
      | _ => invoice_with_status status (inv_paid_at row) row
      end
    else row) invoiceId)).

Definition createInvoiceEvent (id : string) (input : InvoiceEvent) : M unit :=
  db ← get_db;
  match sql_insert id input (invoice_events db) with
  | Some t => modify_db (set_invoice_events (λ _, t))
  | None => throw constraint_failed
  end.

(** The webhook URL and the enabled flag of a merchant for an environment. *)
Definition getMerchantWebhookConfigEnv (merchantId : string) (env : Env)
    : M (option string * bool) :=
  db ← get_db;
  match merchants db !! merchantId with
  | None => mret (None, false)
  | Some row =>
      match env with
      | sandbox => mret (non_empty (m_sandbox_webhook_url row),
                         bool_decide (m_sandbox_webhook_enabled row = 1))
      | production => mret (non_empty (m_webhook_url row),
                            bool_decide (m_webhook_enabled row = 1))
      end
  end.

(** [whCfg.webhook_enabled && whCfg.webhook_url]. *)
Definition webhook_on (whCfg : option string * bool) : bool :=
  whCfg.2 && bool_decide (is_Some whCfg.1).

(** [enqueueWebhookDelivery]; [id] is the UUID it draws. *)
Definition enqueueWebhookDelivery (now : Z) (id : string) (merchant_id : string) (env : Env)
    (invoice_id : option string) (event_type : string) (payload : list (string * json))
    (run_at : option Z) : M string :=
  db ← get_db;
  let runAt := default now run_at in
  let row := mkDelivery merchant_id env invoice_id event_type payload queued 0 runAt
               None None None now now in
  match sql_insert id row (webhook_deliveries db) with
  | Some t => _ ← modify_db (set_webhook_deliveries (λ _, t)); mret id
  | None => throw constraint_failed
  end.

(** ** The check endpoint ([api/gw/invoices]: checkInvoice) *)

Inductive Response :=
  | ErrorResponse (status : Z) (code : string)
  | Success (data : list (string * json)).

(** The event and the delivery written by a transition. *)
Definition notify (now : Z) (event_id delivery_id : string) (invoiceId merchantId : string)
    (env : Env) (event_type : string) (event_payload delivery_payload : list (string * json))
    : M unit :=
  _ ← createInvoiceEvent event_id (mkEvent invoiceId merchantId event_type event_payload now);
  whCfg ← getMerchantWebhookConfigEnv merchantId env;
  if webhook_on whCfg then
    _ ← enqueueWebhookDelivery now delivery_id merchantId env (Some invoiceId) event_type
          delivery_payload (Some now);
    mret tt
  else mret tt.

Definition checkInvoice (cfg : Config) (now : Z) (event_id delivery_id : string)
    (getQrisHistory : string → string → result HistoryResult) (req : Request) : M Response :=
  if decide (req_method req ≠ "POST") then mret (ErrorResponse 405 "METHOD_NOT_ALLOWED")
  else
    match non_empty (req_merchantId req) with
    | None => mret (ErrorResponse 401 "UNAUTH")
    | Some merchantId =>
        let env := default production (req_gwEnv req) in
        let invoiceId := trim (or_default (req_params_id req) "") in
        let username := req_body req !! "username" in
        let token := req_body req !! "token" in
        if negb (truthy username) || negb (truthy token) then
          mret (ErrorResponse 400 "MISSING_PARAMS")
        else
          inv ← getInvoiceById invoiceId (Some merchantId);
          match inv with
          | None => mret (ErrorResponse 404 "NOT_FOUND")
          | Some inv =>
              paidTx ← getPaidTransaction invoiceId;
              match paidTx with
              | Some paidTx =>
                  (* already paid cached *)
                  _ ← (if decide (inv_status inv ≠ paid) then
                         _ ← updateInvoiceStatus now invoiceId merchantId paid
                               (Some (paid_paid_at paidTx));
                         notify now event_id delivery_id invoiceId merchantId env "payment.paid"
                           [("invoice_id", JStr invoiceId);
                            ("final_amount", JNum (paid_final_amount paidTx));
                            ("paid_at", JNum (paid_paid_at paidTx))]
                           [("event_type", JStr "payment.paid"); ("invoice_id", JStr invoiceId);
                            ("final_amount", JNum (paid_final_amount paidTx));
                            ("paid_at", JNum (paid_paid_at paidTx)); ("created_at", JNum now)]
                       else mret tt);
                  mret (Success [("status", JStr "paid");
                                 ("final_amount", JNum (paid_final_amount paidTx));
                                 ("paid_at", JNum (paid_paid_at paidTx))])
              | None =>
                  pendingTx ← getPendingTransaction invoiceId;
                  match pendingTx with
                  | None =>
                      mret (Success [("status",
                              JStr (if decide (inv_status inv = expired) then "expired"
                                    else "not_found"))])
                  | Some pendingTx =>
                      if decide (now > pt_expires_at pendingTx) then
                        _ ← deletePendingTransaction invoiceId;
                        _ ← (if decide (inv_status inv ≠ expired) then
                               _ ← updateInvoiceStatus now invoiceId merchantId expired None;
                               notify now event_id delivery_id invoiceId merchantId env
                                 "payment.expired"
                                 [("invoice_id", JStr invoiceId)]
                                 [("event_type", JStr "payment.expired");
                                  ("invoice_id", JStr invoiceId); ("created_at", JNum now)]
                             else mret tt);
                        mret (Success [("status", JStr "expired")])
                      else
                        match getQrisHistory (String_of username) (String_of token) with
                        | Thrown e => throw e
                        | Ok historyResult =>
                            let history := history_entries historyResult in
                            match list_find (credit_matches (pt_final_amount pendingTx)) history with
                            | Some _ =>
                                _ ← deletePendingTransaction invoiceId;
                                _ ← createPaidTransaction invoiceId
                                      (mkPaid (String_of username) (pt_final_amount pendingTx) now
                                         (now + PAID_EXPIRY_SECONDS cfg));
                                _ ← updateInvoiceStatus now invoiceId merchantId paid (Some now);
                                _ ← notify now event_id delivery_id invoiceId merchantId env
                                      "payment.paid"
                                      [("invoice_id", JStr invoiceId);
                                       ("final_amount", JNum (pt_final_amount pendingTx));
                                       ("paid_at", JNum now)]
                                      [("event_type", JStr "payment.paid");
                                       ("invoice_id", JStr invoiceId);
                                       ("final_amount", JNum (pt_final_amount pendingTx));
                                       ("paid_at", JNum now); ("created_at", JNum now)];
                                mret (Success [("status", JStr "paid");
                                               ("final_amount", JNum (pt_final_amount pendingTx));
                                               ("paid_at", JNum now)])
                            | None =>
                                mret (Success [("status", JStr "pending");
                                               ("final_amount", JNum (pt_final_amount pendingTx));
                                               ("expires_in", JNum (pt_expires_at pendingTx - now))])
                            end
                        end
                  end
              end
          end
    end.

(** ** Webhook deliveries of the adapter ([lib/db]) *)

Definition getMerchantWebhookSecret (merchantId : string) (env : Env) : M (option string) :=
  db ← get_db;
  match merchant_credentials db !! merchantId with
  | None => mret None
  | Some row =>
      let sec := match env with
                 | sandbox => or_default (mc_sandbox_webhook_secret row) ""
                 | production => or_default (mc_webhook_secret row) ""
                 end in
      mret (non_empty (Some sec))
  end.

(** [SELECT * FROM webhook_deliveries WHERE status = 'queued' AND
    next_retry_at <= ? ORDER BY next_retry_at ASC LIMIT ?]. *)
Definition getDueWebhookDeliveries (now : Z) (limit : nat)
    : M (list (string * WebhookDelivery)) :=
  db ← get_db;
  let rows := sql_select_where
                (λ kv, wd_status kv.2 = queued ∧ wd_next_retry_at kv.2 ≤ now)
                (webhook_deliveries db) in
  mret (take limit
          (order_by (λ kv1 kv2, bool_decide (wd_next_retry_at kv1.2 < wd_next_retry_at kv2.2))
             rows)).

(** The [next_retry_at] field of the input of [markWebhookDeliveryResult]:
    absent, [null], or a time. *)
Inductive RetryAt := RetryUndefined | RetryNull | RetryTime (t : Z).

Record DeliveryResult := mkResult {
  res_id : string;
  res_delivered : bool;
  res_status_code : option Z;
  res_error : option string;
  res_response_snippet : option string;
  res_next_retry_at : RetryAt;
}.

Definition delivery_with_result (status : DeliveryStatus) (attempt next_retry_at : Z)
    (input : DeliveryResult) (now : Z) (row : WebhookDelivery) : WebhookDelivery :=
  mkDelivery (wd_merchant_id row) (wd_env row) (wd_invoice_id row) (wd_event_type row)
    (wd_payload row) status attempt next_retry_at (res_status_code input) (res_error input)
    (res_response_snippet input) (wd_created_at row) now.

Definition delivery_with_status (status : DeliveryStatus) (now : Z) (row : WebhookDelivery)
    : WebhookDelivery :=
  mkDelivery (wd_merchant_id row) (wd_env row) (wd_invoice_id row) (wd_event_type row)
    (wd_payload row) status (wd_attempt_count row) (wd_next_retry_at row)
    (wd_last_status_code row) (wd_last_error row) (wd_response_snippet row)
    (wd_created_at row) now.

Definition markWebhookDeliveryResult (now : Z) (input : DeliveryResult) : M unit :=
  db ← get_db;
  let attempt :=
    match webhook_deliveries db !! res_id input with
    | Some row => wd_attempt_count row
    | None => 0
    end + 1 in
  let status :=
    if res_delivered input then delivered
    else match res_next_retry_at input with RetryNull => failed | _ => queued end in
  let nextRetry : option Z :=
    if res_delivered input then None
    else match res_next_retry_at input with
         | RetryTime t => Some t
         | RetryNull | RetryUndefined => Some (now + 60)
         end in
  _ ← modify_db (set_webhook_deliveries
         (alter (delivery_with_result status attempt (default now nextRetry) input now)
            (res_id input)));
  (* If permanently failed, mark failed *)
  match res_delivered input, res_next_retry_at input with
  | false, RetryNull =>
      modify_db (set_webhook_deliveries (alter (delivery_with_status failed now) (res_id input)))
  | _, _ => mret tt
  end.

(** [createAlert]; [id] is the UUID it draws. *)
Definition createAlert (now : Z) (id : string) (merchant_id : option string)
    (type message : string) : M unit :=
  db ← get_db;
  match sql_insert id (mkAlert merchant_id type message now None) (alerts db) with
  | Some t => modify_db (set_alerts (λ _, t))
  | None => throw constraint_failed
  end.

(** ** The webhook worker ([lib/webhook_worker]) *)

(** What [fetch] does: a response with its status and body, or an exception
    with its name and message ([AbortError] on a timeout). *)
Inductive FetchResult :=
  | Responded (status : Z) (text : string)
  | Failed (name message : string).

(** [try { body } catch (e) { handler(e) }] for exceptions of the database
    code; the handler receives the message. *)
Definition try_catch {A : Type} (body : M A) (handler : string → M A) : M A := λ db,
  match body db with
  | (Thrown e, db') => handler e db'
  | r => r
  end.

(** [text.slice(0, n)]. *)
Fixpoint slice_to (n : nat) (s : string) : string :=
  match n, s with
  | S n', String c s' => String c (slice_to n' s')
  | _, _ => EmptyString
  end.

Section Worker.

Variable cfg : Config.

(** [createHmac('sha256', secret).update(data, 'utf8').digest('hex')]. *)
Variable makeHmac : string → string → string.

(** [JSON.stringify] of a stored payload (the column [payload_json]). *)
Variable JSON_stringify : list (string * json) → string.

(** [fetch(url, {method: 'POST', headers, body})] with its abort timer:
    the answer of the receiver to a request. *)
Variable fetch : string → list (string * string) → string → FetchResult.

Definition backoffSeconds (attempt : Z) : Z :=
  (* attempt starts at 1 *)
  let pow := Z.min 10 (Z.max 0 (attempt - 1)) in
  BASE_BACKOFF_SECONDS cfg * 2 ^ pow.

Definition signWebhook (webhookSecret : string) (timestamp : Z) (payloadJson : string)
    : string :=
  (* signature = HMAC_SHA256(secret, `${timestamp}.${payload}`) *)
  makeHmac webhookSecret (String_of_Z timestamp +:+ "." +:+ payloadJson).

(** The branch taken when the attempt has failed with [error]. *)
Definition attempt_failed (now : Z) (alert_id : string) (id : string) (d : WebhookDelivery)
    (status_code : option Z) (error : string) (response_snippet : option string)
    (reason : string) : M unit :=
  let nextAttempt := wd_attempt_count d + 1 in
  if decide (nextAttempt >= MAX_ATTEMPTS cfg) then
    _ ← markWebhookDeliveryResult now
          (mkResult id false status_code (Some error) response_snippet RetryNull);
    createAlert now alert_id (Some (wd_merchant_id d)) "WEBHOOK_FAILED"
      ("Webhook failed permanently for event " +:+ wd_event_type d
         +:+ " (" +:+ reason +:+ ")")
  else
    let nextRetry := now + backoffSeconds nextAttempt in
    markWebhookDeliveryResult now
      (mkResult id false status_code (Some error) response_snippet (RetryTime nextRetry)).

(** [deliverOne(d)]; [alert_id] is the UUID of the alert if one is
    created. *)
Definition deliverOne (now : Z) (alert_id : string) (d : string * WebhookDelivery) : M unit :=
  let (id, d) := d in
  whCfg ← getMerchantWebhookConfigEnv (wd_merchant_id d) (wd_env d);
  match whCfg with
  | (Some webhook_url, true) =>
      whsec ← getMerchantWebhookSecret (wd_merchant_id d) (wd_env d);
      match whsec with
      | None =>
          markWebhookDeliveryResult now
            (mkResult id false None (Some "MISSING_CREDENTIALS") None RetryNull)
      | Some whsec =>
          let payloadJson := JSON_stringify (wd_payload d) in
          let signature := signWebhook whsec now payloadJson in
          let catch (name message : string) : M unit :=
            let error := if decide (name = "AbortError") then "TIMEOUT"
                         else or_default (Some message) "ERROR" in
            attempt_failed now alert_id id d None error None error in
          match fetch webhook_url
                  [("content-type", "application/json"); ("x-event-type", wd_event_type d);
                   ("x-webhook-timestamp", String_of_Z now);
                   ("x-webhook-signature", signature)]
                  payloadJson with
          | Failed name message => catch name message
          | Responded status text =>
              try_catch
                (let snippet := if decide (text = "") then None
                                else Some (slice_to 500 text) in
                 if decide (status >= 200 ∧ status < 300) then
                   markWebhookDeliveryResult now
                     (mkResult id true (Some status) None snippet RetryUndefined)
                 else
                   attempt_failed now alert_id id d (Some status)
                     ("HTTP_" +:+ String_of_Z status) snippet
                     ("HTTP " +:+ String_of_Z status))
                (λ message, catch "Error" message)
          end
      end
  | _ =>
      (* !cfg.webhook_enabled || !cfg.webhook_url *)
      markWebhookDeliveryResult now
        (mkResult id false None (Some "WEBHOOK_DISABLED") None RetryNull)
  end.

(** The loop [for (const d of batch) await deliverOne(d)]; [alert_id]
    gives the UUID drawn for the alert of a delivery. *)
Fixpoint deliverAll (now : Z) (alert_id : string → string)
    (batch : list (string * WebhookDelivery)) : M unit :=
  match batch with
  | [] => mret tt
  | d :: batch' =>
      _ ← deliverOne now (alert_id d.1) d;
      deliverAll now alert_id batch'
  end.

Definition runWebhookWorkerOnce (now : Z) (alert_id : string → string) : M nat :=
  batch ← getDueWebhookDeliveries now 20;
  _ ← deliverAll now alert_id batch;
  mret (length batch).

End Worker.

(** ** IP allow-list ([lib/db] helpers and the middleware of [api/gw/router]) *)

Definition isIpWhitelistEnabled (merchantId : string) : M bool :=
  db ← get_db;
  mret (match merchants db !! merchantId with
        | Some row => bool_decide (m_ip_whitelist_enabled row = 1)
        | None => false
        end).

(** [SELECT cidr FROM merchant_ip_whitelist WHERE merchant_id = ? ORDER BY
    cidr ASC]. *)
Definition listIpWhitelist (merchantId : string) : M (list string) :=
  db ← get_db;
  let rows := sql_select_where (λ kv, kv.1.1 = merchantId) (merchant_ip_whitelist db) in
  mret (order_by String.ltb ((λ kv, kv.1.2) <$> rows)).

Section IpWhitelist.

(** The address library [ipaddr.js]: parsed addresses, [ipaddr.parse] and
    [ipaddr.parseCIDR] ([None] when they throw), [addr.match(range, bits)]
    ([None] when it throws, as it does for addresses of different kinds)
    and [addr.toNormalizedString()]. *)
Variable Addr : Type.
Variable parse : string → option Addr.
Variable parseCIDR : string → option (Addr * Z).
Variable addr_match : Addr → Addr → Z → option bool.
Variable toNormalizedString : Addr → string.

(** The test of [cidrs.some]: an entry with a slash is a CIDR range, any
    other entry a single address; an entry that cannot be read matches
    nothing. *)
Definition entry_matches (parsed : Addr) (c : string) : bool :=
  let s := trim c in
  if includes_char s "/" then
    match parseCIDR s with
    | Some (range, bits) => default false (addr_match parsed range bits)
    | None => false
    end
  else
    match parse s with
    | Some target => bool_decide (toNormalizedString parsed = toNormalizedString target)
    | None => false
    end.

Definition ipWhitelist (req : Request) : M Outcome :=
  match non_empty (req_merchantId req) with
  | None => mret Next
  | Some merchantId =>
      enabled ← isIpWhitelistEnabled merchantId;
      if negb enabled then mret Next
      else
        cidrs ← listIpWhitelist merchantId;
        if decide (length cidrs = 0%nat) then
          (* IP whitelist enabled but empty *)
          mret (Respond 403 "IP_NOT_ALLOWED")
        else
          let xff := trim (split_first (or_default (header req "x-forwarded-for") "") ",") in
          let ipRaw := or_default (Some xff) (or_default (req_ip req) "") in
          let ip := if startsWith ipRaw "::ffff:" then slice_from 7 ipRaw else ipRaw in
          match parse ip with
          | None =>
              (* Cannot parse client IP *)
              mret (Respond 403 "IP_NOT_ALLOWED")
          | Some parsed =>
              let ok := existsb (entry_matches parsed) cidrs in
              if ok then mret Next
              else mret (Respond 403 "IP_NOT_ALLOWED")
          end
  end.

End IpWhitelist.

(** ** QRIS codec ([lib/qris])

    The module [lib/qris] is imported by the gateway ([generateDynamicQris],
    [validateQris]) and is not part of the sources at hand; its functions
    are modelled from the specification. *)

(** [s.slice(0, n)]. *)
Fixpoint string_take (n : nat) (s : string) : string :=
  match n, s with
  | S n', String c s' => String c (string_take n' s')
  | _, _ => EmptyString
  end.

(** Modelled from the spec: the checksum of the payload, missing with
    [lib/qris], is CRC-16/X.25, that is polynomial [0x1021], initial value
    [0xFFFF], input and output reflected, XOR-out [0xFFFF]. [reflect_bits w x]
    reverses the [w] low bits of [x]. *)
Fixpoint reflect_bits (w : nat) (x : Z) : Z :=
  match w with
  | O => 0
  | S w' => Z.lor (Z.shiftl (Z.land x 1) (Z.of_nat w')) (reflect_bits w' (Z.shiftr x 1))
  end.

(** Modelled from the spec: one shift of the 16-bit register of the CRC,
    most significant bit first, with polynomial [0x1021]. *)
Definition crc16_shift (crc : Z) : Z :=
  if Z.testbit crc 15 then Z.land (Z.lxor (Z.shiftl crc 1) 0x1021) 0xFFFF
  else Z.land (Z.shiftl crc 1) 0xFFFF.

(** Modelled from the spec: a byte enters the register with its bits
    reflected. *)
Definition crc16_byte (crc : Z) (byte : Z) : Z :=
  Nat.iter 8 crc16_shift (Z.lxor crc (Z.shiftl (reflect_bits 8 byte) 8)).

(** Modelled from the spec: the register after the bytes of [s]. *)
Fixpoint crc16_bytes (crc : Z) (s : string) : Z :=
  match s with
  | String c s' => crc16_bytes (crc16_byte crc (Z.of_N (Ascii.N_of_ascii c))) s'
  | EmptyString => crc
  end.

(** Modelled from the spec: CRC-16/X.25 of [s], from the initial value
    [0xFFFF], the output reflected and XOR-ed with [0xFFFF]. *)
Definition crc16_x25 (s : string) : Z :=
  Z.lxor (reflect_bits 16 (crc16_bytes 0xFFFF s)) 0xFFFF.

(** Modelled from the spec: an uppercase hexadecimal digit. *)
Definition hex_digit_upper (n : Z) : Ascii.ascii :=
  Ascii.ascii_of_N (Z.to_N (if n <? 10 then 48 + n else 55 + n)).

(** Modelled from the spec: the four uppercase hexadecimal digits of a
    16-bit checksum. *)
Definition hex4 (crc : Z) : string :=
  String (hex_digit_upper (Z.land (Z.shiftr crc 12) 15))
    (String (hex_digit_upper (Z.land (Z.shiftr crc 8) 15))
       (String (hex_digit_upper (Z.land (Z.shiftr crc 4) 15))
          (String (hex_digit_upper (Z.land crc 15)) EmptyString))).

(** Modelled from the spec: a TLV record, its two-digit tag and its value. *)
Definition TLV : Type := string * string.

(** Modelled from the spec: tags and lengths are ASCII decimal digits. *)
Definition is_digit (c : Ascii.ascii) : bool := bool_decide (is_Some (digit_value c)).

(** Modelled from the spec: the two decimal digits of a length. *)
Definition two_digits (n : nat) : string :=
  String (digit_char (Z.of_nat n / 10)) (String (digit_char (Z.of_nat n mod 10)) EmptyString).

(** Modelled from the spec: parsing of the payload, missing with [lib/qris],
    into its ordered TLV records (two-digit ASCII tag, two-digit ASCII
    length, value); [None] is a malformed payload. [fuel] bounds the number
    of records. *)
Fixpoint parse_tlv (fuel : nat) (s : string) : option (list TLV) :=
  match s with
  | EmptyString => Some []
  | String t1 (String t2 (String l1 (String l2 rest))) =>
      match fuel, digit_value l1, digit_value l2 with
      | S fuel', Some d1, Some d2 =>
          let len := Z.to_nat (10 * d1 + d2) in
          if is_digit t1 && is_digit t2 && bool_decide (len ≤ String.length rest)%nat then
            records ← parse_tlv fuel' (slice_from len rest);
            Some ((String t1 (String t2 EmptyString), string_take len rest) :: records)
          else None
      | _, _, _ => None
      end
  | _ => None
  end.

(** Modelled from the spec: the records of a whole payload; a payload has
    no more records than characters. *)
Definition parseQris (s : string) : option (list TLV) := parse_tlv (String.length s) s.

(** Modelled from the spec: the rendering of TLV records. *)
Fixpoint render_tlv (records : list TLV) : string :=
  match records with
  | [] => EmptyString
  | (tag, value) :: records' =>
      tag +:+ two_digits (String.length value) +:+ value +:+ render_tlv records'
  end.

(** Modelled from the spec: a record with tag [tag] is present. *)
Definition has_tag (tag : string) (records : list TLV) : bool :=
  bool_decide (tag ∈ records.*1).

(** Modelled from the spec: the amount is written at tag [54]; when the tag
    is absent it is inserted immediately before tag [58]. The specification
    gives no position when tag [58] is absent too: the record is then put
    last. *)
Fixpoint insert_before_58 (amount : string) (records : list TLV) : list TLV :=
  match records with
  | [] => [("54", amount)]
  | (tag, value) :: records' =>
      if decide (tag = "58") then ("54", amount) :: records
      else (tag, value) :: insert_before_58 amount records'
  end.

(** Modelled from the spec: the amount replaces the value of tag [54] when
    the tag is present, and is inserted otherwise. *)
Definition inject_amount (amount : string) (records : list TLV) : list TLV :=
  if has_tag "54" records then
    (λ r : TLV, if decide (r.1 = "54") then ("54", amount) else r) <$> records
  else insert_before_58 amount records.

(** Modelled from the spec: tag [01] is switched from static ([11]) to
    dynamic ([12]). *)
Definition switch_to_dynamic (records : list TLV) : list TLV :=
  (λ r : TLV, if decide (r = ("01", "11")) then ("01", "12") else r) <$> records.

(** Modelled from the spec: [generateDynamicQris], missing with [lib/qris].
    The amount is injected, the mode switched, tag [63] stripped, the
    literal [6304] appended, and the four uppercase hexadecimal digits of
    the CRC of all that precedes them appended. [None] stands for the
    failure on a malformed payload. *)
Definition generateDynamicQris (qris_static : string) (amount : Z) : option string :=
  records ← parseQris qris_static;
  let records := filter (λ r : TLV, r.1 ≠ "63") records in
  let records := inject_amount (String_of_Z amount) (switch_to_dynamic records) in
  let payload := render_tlv records +:+ "6304" in
  Some (payload +:+ hex4 (crc16_x25 payload)).

(** Modelled from the spec: [validateQris], missing with [lib/qris]. The
    payload must parse as TLV and end with tag [63] of length 4; the CRC of
    everything up to and including [6304] is compared with the four
    trailing digits, letter case aside. *)
Definition validateQris (qris : string) : bool :=
  match parseQris qris with
  | None => false
  | Some records =>
      match last records with
      | Some (tag, crc) =>
          bool_decide (tag = "63") && bool_decide (String.length crc = 4%nat)
          && bool_decide (toUpperCase (hex4 (crc16_x25
                            (string_take (String.length qris - 4) qris)))
                          = toUpperCase crc)
      | None => false
      end
  end.

(** ** The client-side signer ([examples/sign]: signGatewayRequest)

    The helper that merchants use to sign their requests. Its names live in
    a module of their own, as [canonicalString] is also the name of the
    server's function. *)

Module Client.

(** The [body] argument: a string, an object, or nothing ([undefined] or
    [null]). *)
Inductive Body :=
  | BodyString (s : string)
  | BodyObject (fields : list (string * json))
  | BodyAbsent.

(** What [signGatewayRequest] returns. *)
Record SignedRequest := mkSigned {
  headers : list (string * string);
  bodyRaw : string;
  pathWithQuery : string;
}.

Section Client.

(** [crypto.createHmac('sha256', secret).update(data).digest('hex')]. *)
Variable hmacSha256Hex : string → string → string.

(** [JSON.stringify] of an object body. *)
Variable JSON_stringify : list (string * json) → string.

(** [new URL(s)]: [u.pathname + u.search] of an absolute URL, [None] when
    the constructor throws, as it does on a path. *)
Variable URL_pathname_search : string → option string.

Definition canonicalString (method : option string) (pathWithQuery : string) (timestamp : Z)
    (nonce bodyRaw : string) : string :=
  let m := toUpperCase (or_default method "GET") in
  let p := or_default (Some pathWithQuery) "/" in
  let ts := String_of_Z timestamp in
  let n := nonce in
  let b := or_default (Some bodyRaw) "" in
  m +:+ newline +:+ p +:+ newline +:+ ts +:+ newline +:+ n +:+ newline +:+ b.

(** [timestamp] and [nonce] are the values of the defaults
    [Math.floor(Date.now() / 1000)] and [makeNonce()] when the caller gives
    none. *)
Definition signGatewayRequest (apiKey apiSecret : string) (method : option string)
    (urlOrPath : string) (body : Body) (timestamp : Z) (nonce : string)
    : result SignedRequest :=
  if decide (apiKey = "") then Thrown "apiKey is required"
  else if decide (apiSecret = "") then Thrown "apiSecret is required"
  else
    let m := toUpperCase (or_default method "GET") in
    (* Determine path+query *)
    let pathWithQuery :=
      match URL_pathname_search urlOrPath with
      | Some path => path
      | None => urlOrPath
      end in
    let pathWithQuery :=
      if startsWith pathWithQuery "/" then pathWithQuery else "/" +:+ pathWithQuery in
    (* Determine raw body string EXACTLY as sent *)
    let bodyRaw :=
      match body with
      | BodyString s => s
      | BodyObject fields => JSON_stringify fields
      | BodyAbsent => ""
      end in
    let data := canonicalString (Some m) pathWithQuery timestamp nonce bodyRaw in
    let signature := hmacSha256Hex apiSecret data in
    Ok (mkSigned
          ([("x-api-key", apiKey); ("x-timestamp", String_of_Z timestamp);
            ("x-nonce", nonce); ("x-signature", signature)]
           ++ (if decide (bodyRaw = "") then [] else [("content-type", "application/json")]))
          bodyRaw pathWithQuery).

End Client.

End Client.

(** ** Invoice creation and reads ([lib/db], [api/gw/invoices]) *)

(** [createPendingTransaction]: the insertion fails on a primary key that is
    present and on the unique index [idx_user_suffix] of the table, on
    [(username, unique_suffix)]. *)
Definition createPendingTransaction (id : string) (tx : PendingTransaction) : M unit :=
  db ← get_db;
  match sql_select_where
          (λ kv, pt_username kv.2 = pt_username tx ∧ pt_unique_suffix kv.2 = pt_unique_suffix tx)
          (pending_transactions db) with
  | _ :: _ => throw constraint_failed
  | [] =>
      match sql_insert id tx (pending_transactions db) with
      | Some t => modify_db (set_pending_transactions (λ _, t))
      | None => throw constraint_failed
      end
  end.

(** The tables that hold a [merchant_id] reference [merchants(id)], and
    [getDb] opens the connection with [PRAGMA foreign_keys=ON]: a row is
    inserted only for a merchant that has a row in [merchants]. *)
Definition merchant_exists (db : Db) (merchantId : string) : Prop :=
  is_Some (merchants db !! merchantId).

#[global] Instance merchant_exists_dec db merchantId : Decision (merchant_exists db merchantId).
Proof. unfold merchant_exists. apply _. Defined.

(** The foreign key of an insertion for [merchantId]. *)
Definition references_merchant (merchantId : string) : M unit :=
  db ← get_db;
  if decide (merchant_exists db merchantId) then mret tt else throw constraint_failed.

(** [SELECT * FROM invoices WHERE merchant_id = ? ORDER BY created_at DESC
    LIMIT ? OFFSET ?]. *)
Definition listInvoices (merchantId : string) (limit offset : nat) : M (list (string * Invoice)) :=
  db ← get_db;
  let rows := sql_select_where (λ kv, inv_merchant_id kv.2 = merchantId) (invoices db) in
  mret (take limit (drop offset
          (order_by (λ kv1 kv2, bool_decide (inv_created_at kv2.2 < inv_created_at kv1.2)) rows))).

(** [SELECT id, event_type, payload_json, created_at FROM invoice_events
    WHERE invoice_id = ? AND merchant_id = ? ORDER BY created_at DESC
    LIMIT ?]. *)
Definition listInvoiceEvents (invoiceId merchantId : string) (limit : nat)
    : M (list (string * InvoiceEvent)) :=
  db ← get_db;
  let rows := sql_select_where
                (λ kv, ev_invoice_id kv.2 = invoiceId ∧ ev_merchant_id kv.2 = merchantId)
                (invoice_events db) in
  mret (take limit
          (order_by (λ kv1 kv2, bool_decide (ev_created_at kv2.2 < ev_created_at kv1.2)) rows)).

(** The answer of a handler that returns rows: an error envelope under an
    HTTP status, or [{success: true, data}]. *)
Inductive Reply (A : Type) : Type :=
  | ReplyError (status : Z) (code : string)
  | ReplyOk (data : A).
Arguments ReplyError {A} status code.
Arguments ReplyOk {A} data.

Definition getInvoice (req : Request) : M (Reply Invoice) :=
  match non_empty (req_merchantId req) with
  | None => mret (ReplyError 401 "UNAUTH")
  | Some merchantId =>
      let invoiceId := trim (or_default (req_params_id req) "") in
      inv ← getInvoiceById invoiceId (Some merchantId);
      match inv with
      | None => mret (ReplyError 404 "NOT_FOUND")
      | Some inv => mret (ReplyOk inv)
      end
  end.

Definition listEvents (req : Request) : M (Reply (list (string * InvoiceEvent))) :=
  match non_empty (req_merchantId req) with
  | None => mret (ReplyError 401 "UNAUTH")
  | Some merchantId =>
      let invoiceId := trim (or_default (req_params_id req) "") in
      items ← listInvoiceEvents invoiceId merchantId 100;
      mret (ReplyOk items)
  end.

Section Invoices.

Variable cfg : Config.

(** [JSON.stringify] of the [metadata] of a request. *)
Variable JSON_stringify_value : json → string.

(** [generateDynamicQris] of [lib/qris]: the dynamic payload, or the
    exception it throws. *)
Variable lib_generateDynamicQris : string → Z → result string.

(** [createInvoiceRecord]; [paid_at] is stored as [NULL]. The insertion
    fails on a primary key that is present and for a merchant without a
    row. *)
Definition createInvoiceRecord (id merchant_id : string) (env : option Env) (username : string)
    (reference_id : option string) (base_amount unique_suffix final_amount : Z)
    (status : InvoiceStatus) (qris_string : string) (created_at expires_at : Z)
    (metadata : option json) : M unit :=
  db ← get_db;
  let row := mkInvoice merchant_id (default production env) username reference_id base_amount
               unique_suffix final_amount status qris_string created_at expires_at None
               (if truthy metadata then JSON_stringify_value <$> metadata else None) in
  match sql_insert id row (invoices db) with
  | Some t => _ ← references_merchant merchant_id; modify_db (set_invoices (λ _, t))
  | None => throw constraint_failed
  end.

(** [createInvoice]; [invoiceId], [event_id] and [delivery_id] are the
    UUIDs drawn for the invoice, its event and its delivery. *)
Definition createInvoice (now : Z) (invoiceId event_id delivery_id : string) (req : Request)
    : M Response :=
  if decide (req_method req ≠ "POST") then mret (ErrorResponse 405 "METHOD_NOT_ALLOWED")
  else
    match non_empty (req_merchantId req) with
    | None => mret (ErrorResponse 401 "UNAUTH")
    | Some merchantId =>
        let env := default production (req_gwEnv req) in
        let username := req_body req !! "username" in
        let token := req_body req !! "token" in
        let amount := req_body req !! "amount" in
        let qris_static := req_body req !! "qris_static" in
        let reference_id := req_body req !! "reference_id" in
        let metadata := req_body req !! "metadata" in
        if negb (truthy username) || negb (truthy token) || negb (truthy amount)
           || negb (truthy qris_static) then
          mret (ErrorResponse 400 "MISSING_PARAMS")
        else
          match parseInt (String_of amount) with
          | None => mret (ErrorResponse 400 "INVALID_AMOUNT")
          | Some baseAmount =>
              if decide (baseAmount ≤ 0) then mret (ErrorResponse 400 "INVALID_AMOUNT")
              else
                (* Reuse the same suffix logic used by legacy QRIS generator *)
                suffix ← getAvailableSuffix now (String_of username);
                let finalAmount := baseAmount + suffix in
                match lib_generateDynamicQris (String_of qris_static) finalAmount with
                | Thrown e => throw e
                | Ok qrisString =>
                    _ ← createPendingTransaction invoiceId
                          (mkPending (String_of username) baseAmount suffix finalAmount
                             qrisString now (now + EXPIRY_SECONDS cfg));
                    _ ← createInvoiceRecord invoiceId merchantId (Some env) (String_of username)
                          (if truthy reference_id then Some (String_of reference_id) else None)
                          baseAmount suffix finalAmount pending qrisString now
                          (now + EXPIRY_SECONDS cfg) metadata;
                    _ ← notify now event_id delivery_id invoiceId merchantId env
                          "payment.created"
                          [("invoice_id", JStr invoiceId);
                           ("reference_id", default JNull reference_id);
                           ("amount", JNum baseAmount); ("final_amount", JNum finalAmount)]
                          [("event_type", JStr "payment.created"); ("invoice_id", JStr invoiceId);
                           ("reference_id", default JNull reference_id);
                           ("base_amount", JNum baseAmount); ("final_amount", JNum finalAmount);
                           ("created_at", JNum now)];
                    mret (Success [("invoice_id", JStr invoiceId);
                                   ("reference_id", default JNull reference_id);
                                   ("base_amount", JNum baseAmount);
                                   ("unique_suffix", JNum suffix);
                                   ("final_amount", JNum finalAmount);
                                   ("qris_string", JStr qrisString);
                                   ("status", JStr "pending");
                                   ("expires_at", JNum (now + EXPIRY_SECONDS cfg))])
                end
          end
    end.

End Invoices.

(** ** Invoice maintenance ([lib/db]) and the scheduler ([lib/scheduler]) *)

(** [SELECT id, merchant_id FROM invoices WHERE status = 'pending' AND
    expires_at <= ? ORDER BY expires_at ASC LIMIT ?]. *)
Definition listInvoicesDueForExpiry (now : Z) (limit : nat) : M (list (string * string)) :=
  db ← get_db;
  let rows := sql_select_where
                (λ kv, inv_status kv.2 = pending ∧ inv_expires_at kv.2 ≤ now) (invoices db) in
  mret ((λ kv : string * Invoice, (kv.1, inv_merchant_id kv.2))
          <$> take limit
                (order_by (λ kv1 kv2, bool_decide (inv_expires_at kv1.2 < inv_expires_at kv2.2))
                   rows)).

(** [UPDATE invoices SET status = 'expired' WHERE id = ? AND merchant_id =
    ?]; the argument [now] is not used. *)
Definition setInvoiceExpired (invoiceId merchantId : string) (now : Z) : M unit :=
  modify_db (set_invoices (alter (λ row,
    if decide (inv_merchant_id row = merchantId)
    then invoice_with_status expired (inv_paid_at row) row
    else row) invoiceId)).

Definition cleanupExpiredRows (now : Z) : M unit :=
  _ ← modify_db (set_used_nonces (sql_delete_where (λ kv, kv.2 ≤ now)));
  _ ← modify_db (set_paid_transactions (sql_delete_where (λ kv, paid_expires_at kv.2 ≤ now)));
  modify_db (set_pending_transactions (sql_delete_where (λ kv, pt_expires_at kv.2 ≤ now))).

Section Scheduler.

Variable cfg : Config.
Variable makeHmac : string → string → string.
Variable JSON_stringify : list (string * json) → string.
Variable fetch : string → list (string * string) → string → FetchResult.

(** The loop [for (const inv of due)]; [event_id] and [delivery_id] give
    the UUIDs drawn for the event and for the delivery of an invoice. The
    event and the delivery are inserted for a merchant that has a row (the
    foreign key of their tables). The delivery is queued without a look at the webhook configuration, for the
    environment [production] that [enqueueWebhookDelivery] takes by
    default. *)
Fixpoint expireAll (now : Z) (event_id delivery_id : string → string)
    (due : list (string * string)) : M unit :=
  match due with
  | [] => mret tt
  | (id, merchant_id) :: due' =>
      _ ← setInvoiceExpired id merchant_id now;
      _ ← references_merchant merchant_id;
      _ ← createInvoiceEvent (event_id id)
            (mkEvent id merchant_id "payment.expired" [("invoice_id", JStr id)] now);
      _ ← enqueueWebhookDelivery now (delivery_id id) merchant_id production (Some id)
            "payment.expired"
            [("invoice_id", JStr id); ("event_type", JStr "payment.expired");
             ("created_at", JNum now)]
            (Some now);
      expireAll now event_id delivery_id due'
  end.

(** One tick of the interval; an exception ends the tick and is logged. *)
Definition schedulerTick (now : Z) (event_id delivery_id alert_id : string → string) : M unit :=
  try_catch
    ((* Expire due invoices *)
     due ← listInvoicesDueForExpiry now 200;
     _ ← expireAll now event_id delivery_id due;
     (* Cleanup *)
     _ ← cleanupExpiredRows now;
     (* Webhook worker retry queue *)
     _ ← runWebhookWorkerOnce cfg makeHmac JSON_stringify fetch now alert_id;
     mret tt)
    (λ e, mret tt).

End Scheduler.

(** ** Merchant settings of the adapter ([lib/db]) *)

Definition set_merchants (f : gmap string Merchant → gmap string Merchant) (db : Db) : Db :=
  mkDb (pending_transactions db) (paid_transactions db) (used_nonces db)
       (invoices db) (invoice_events db) (webhook_deliveries db) (alerts db)
       (f (merchants db)) (merchant_credentials db) (merchant_ip_whitelist db).

Definition set_merchant_ip_whitelist
    (f : gmap (string * string) Z → gmap (string * string) Z) (db : Db) : Db :=
  mkDb (pending_transactions db) (paid_transactions db) (used_nonces db)
       (invoices db) (invoice_events db) (webhook_deliveries db) (alerts db)
       (merchants db) (merchant_credentials db) (f (merchant_ip_whitelist db)).

(** [INSERT OR IGNORE INTO merchant_ip_whitelist(merchant_id, cidr,
    created_at)]: a row that is present is kept; the foreign key is not
    ignored, so that the insertion of a new row fails for a merchant
    without a row. *)
Definition addIpWhitelist (now : Z) (merchantId cidr : string) : M unit :=
  db ← get_db;
  match merchant_ip_whitelist db !! (merchantId, trim cidr) with
  | Some _ => mret tt
  | None =>
      _ ← references_merchant merchantId;
      modify_db (set_merchant_ip_whitelist (<[(merchantId, trim cidr) := now]>))
  end.

Definition removeIpWhitelist (merchantId cidr : string) : M unit :=
  modify_db (set_merchant_ip_whitelist (delete (merchantId, trim cidr))).

Definition merchant_with_ip_whitelist_enabled (enabled : Z) (row : Merchant) : Merchant :=
  mkMerchant (m_status row) (m_webhook_url row) (m_webhook_enabled row)
    (m_sandbox_webhook_url row) (m_sandbox_webhook_enabled row) enabled.

Definition setIpWhitelistEnabled (merchantId : string) (enabled : bool) : M unit :=
  modify_db (set_merchants
    (alter (merchant_with_ip_whitelist_enabled (if enabled then 1 else 0)) merchantId)).

(** [UPDATE merchants SET webhook_url = COALESCE(?, webhook_url),
    webhook_enabled = COALESCE(?, webhook_enabled) WHERE id = ?], on the
    columns of the environment; a parameter that is absent or [null] leaves
    its column as it is. *)
Definition setMerchantWebhookConfigEnv (merchantId : string) (env : Env)
    (webhook_url : option string) (webhook_enabled : option bool) : M unit :=
  let enabled : option Z := (λ b : bool, if b then 1 else 0) <$> webhook_enabled in
  match env with
  | sandbox =>
      modify_db (set_merchants (alter (λ row,
        mkMerchant (m_status row) (m_webhook_url row) (m_webhook_enabled row)
          (match webhook_url with Some u => Some u | None => m_sandbox_webhook_url row end)
          (default (m_sandbox_webhook_enabled row) enabled)
          (m_ip_whitelist_enabled row)) merchantId))
  | production =>
      modify_db (set_merchants (alter (λ row,
        mkMerchant (m_status row)
          (match webhook_url with Some u => Some u | None => m_webhook_url row end)
          (default (m_webhook_enabled row) enabled)
          (m_sandbox_webhook_url row) (m_sandbox_webhook_enabled row)
          (m_ip_whitelist_enabled row)) merchantId))
  end.

(** [getMerchantWebhookConfig]: the production columns, the flag as a
    number. *)
Definition getMerchantWebhookConfig (merchantId : string) : M (option string * Z) :=
  db ← get_db;
  mret (match merchants db !! merchantId with
        | Some row => (non_empty (m_webhook_url row), m_webhook_enabled row)
        | None => (None, 0)
        end).

(** The [webhook_url] field of the parameter of [setMerchantWebhookConfig]:
    absent, [null], or a string. *)
Inductive UrlParam := UrlUndefined | UrlNull | UrlString (s : string).

(** [setMerchantWebhookConfig]: the production columns are written with the
    parameters, or with what [getMerchantWebhookConfig] read when a
    parameter is absent. *)
Definition setMerchantWebhookConfig (merchantId : string) (webhook_url : UrlParam)
    (webhook_enabled : option bool) : M unit :=
  existing ← getMerchantWebhookConfig merchantId;
  let url := match webhook_url with
             | UrlUndefined => existing.1
             | UrlNull => None
             | UrlString s => Some s
             end in
  let enabled := match webhook_enabled with
                 | Some b => if b then 1 else 0
                 | None => existing.2
                 end in
  modify_db (set_merchants (alter (λ row,
    mkMerchant (m_status row) url enabled (m_sandbox_webhook_url row)
      (m_sandbox_webhook_enabled row) (m_ip_whitelist_enabled row)) merchantId)).

(** ** Alerts ([lib/db]) *)

(** [SELECT * FROM alerts WHERE resolved_at IS NULL ORDER BY created_at
    DESC LIMIT ?]. *)
Definition listOpenAlerts (limit : nat) : M (list (string * Alert)) :=
  db ← get_db;
  let rows := sql_select_where (λ kv, al_resolved_at kv.2 = None) (alerts db) in
  mret (take limit
          (order_by (λ kv1 kv2, bool_decide (al_created_at kv2.2 < al_created_at kv1.2)) rows)).

Definition resolveAlert (now : Z) (id : string) : M unit :=
  modify_db (set_alerts (alter (λ row,
    mkAlert (al_merchant_id row) (al_type row) (al_message row) (al_created_at row) (Some now))
    id)).
(** ** Refunds and settlements ([lib/db])

    The tables [refunds], [settlements] and [settlement_items] and the fee
    columns of [merchants] belong to the same database as the gateway
    tables. The functions of this part write these tables only; they take
    the gateway tables [db], which they read, as a parameter. Amounts are
    integers in the range where the arithmetic of the code is exact. *)

Inductive RefundStatus := requested | approved | processed | rejected.

#[global] Instance RefundStatus_eq_dec : EqDecision RefundStatus.
Proof. solve_decision. Defined.

(** [refunds], keyed by [id]. *)
Record Refund := mkRefund {
  rf_invoice_id : string;
  rf_merchant_id : string;
  rf_amount : Z;
  rf_reason : option string;
  rf_status : RefundStatus;
  rf_requested_at : Z;
  rf_approved_at : option Z;
  rf_processed_at : option Z;
  rf_approved_by : option string;
  rf_processed_by : option string;
}.

(** [settlements], keyed by [id]; the status is [pending] or
    [completed]. *)
Record Settlement := mkSettlement {
  st_merchant_id : string;
  st_period_date : string;
  st_gross_amount : Z;
  st_fee_amount : Z;
  st_net_amount : Z;
  st_status : string;
  st_created_at : Z;
  st_completed_at : option Z;
}.

(** [settlement_items], keyed by [(settlement_id, invoice_id)]. *)
Record SettlementItem := mkItem {
  si_amount : Z;
  si_fee : Z;
  si_net : Z;
}.

(** The columns [fee_bps] and [fee_fixed] of [merchants]. *)
Record MerchantFees := mkFees {
  fee_bps : Z;
  fee_fixed : Z;
}.

Record Books := mkBooks {
  refunds : gmap string Refund;
  settlements : gmap string Settlement;
  settlement_items : gmap (string * string) SettlementItem;
  merchant_fees : gmap string MerchantFees;
}.

Definition set_refunds (f : gmap string Refund → gmap string Refund) (bk : Books) : Books :=
  mkBooks (f (refunds bk)) (settlements bk) (settlement_items bk) (merchant_fees bk).

Definition set_settlements (f : gmap string Settlement → gmap string Settlement) (bk : Books)
    : Books :=
  mkBooks (refunds bk) (f (settlements bk)) (settlement_items bk) (merchant_fees bk).

Definition set_settlement_items
    (f : gmap (string * string) SettlementItem → gmap (string * string) SettlementItem)
    (bk : Books) : Books :=
  mkBooks (refunds bk) (settlements bk) (f (settlement_items bk)) (merchant_fees bk).

(** The monad of the code that writes these tables: state and
    exceptions, as [M]. *)
Definition B (A : Type) : Type := Books → result A * Books.

#[global] Instance B_ret : MRet B := λ A a bk, (Ok a, bk).

#[global] Instance B_bind : MBind B := λ A B' f m bk,
  match m bk with
  | (Ok a, bk') => f a bk'
  | (Thrown e, bk') => (Thrown e, bk')
  end.

Definition throw_books {A : Type} (message : string) : B A := λ bk, (Thrown message, bk).

Definition get_books : B Books := λ bk, (Ok bk, bk).

Definition modify_books (f : Books → Books) : B unit := λ bk, (Ok tt, f bk).

(** *** Refunds *)

(** [createRefundRequest]; [id] is the UUID it draws. The callers pass an
    integer amount. The row references [invoices(id)] and
    [merchants(id)]. *)
Definition createRefundRequest (db : Db) (now : Z) (id : string) (invoice_id merchant_id : string)
    (amount : Z) (reason : option string) : B string :=
  bk ← get_books;
  match sql_insert id
          (mkRefund invoice_id merchant_id (Z.max 0 amount) reason requested now None None None
             None)
          (refunds bk) with
  | None => throw_books constraint_failed
  | Some t =>
      if decide (is_Some (invoices db !! invoice_id) ∧ merchant_exists db merchant_id) then
        _ ← modify_books (set_refunds (λ _, t));
        mret id
      else throw_books constraint_failed
  end.

(** [UPDATE refunds SET status = ?, approved_at = ?, approved_by = ?
    WHERE id = ? AND status = 'requested'], for [approveRefund] and
    [rejectRefund]. *)
Definition decide_refund (status : RefundStatus) (now : Z) (id adminEmail : string) : B unit :=
  modify_books (set_refunds (alter (λ r,
    if decide (rf_status r = requested) then
      mkRefund (rf_invoice_id r) (rf_merchant_id r) (rf_amount r) (rf_reason r) status
        (rf_requested_at r) (Some now) (rf_processed_at r) (Some adminEmail) (rf_processed_by r)
    else r) id)).

Definition approveRefund (now : Z) (id adminEmail : string) : B unit :=
  decide_refund approved now id adminEmail.

Definition rejectRefund (now : Z) (id adminEmail : string) : B unit :=
  decide_refund rejected now id adminEmail.

Definition processRefund (now : Z) (id adminEmail : string) : B unit :=
  bk ← get_books;
  match refunds bk !! id with
  | None => throw_books "Refund not found"
  | Some r =>
      if decide (rf_status r ≠ approved) then throw_books "Refund must be approved first"
      else
        modify_books (set_refunds (alter (λ r,
          mkRefund (rf_invoice_id r) (rf_merchant_id r) (rf_amount r) (rf_reason r) processed
            (rf_requested_at r) (rf_approved_at r) (Some now) (rf_approved_by r)
            (Some adminEmail)) id))
  end.

(** *** Settlements *)

Definition feeForAmount (amount feeBps feeFixed : Z) : Z :=
  let pct := (amount * feeBps) / 10000 in
  Z.max 0 (pct + feeFixed).

(** The item of an invoice: its amount, the fee and the net amount. *)
Definition settlement_item (feeBps feeFixed : Z) (inv : Invoice) : SettlementItem :=
  let amt := inv_final_amount inv in
  let f := feeForAmount amt feeBps feeFixed in
  let n := Z.max 0 (amt - f) in
  mkItem amt f n.

(** The sums of the loop [gross += amt; fee += f; net += n]. *)
Definition total (field : SettlementItem → Z) (feeBps feeFixed : Z)
    (paidInvoices : list (string * Invoice)) : Z :=
  foldl (λ acc kv, acc + field (settlement_item feeBps feeFixed kv.2)) 0 paidInvoices.

(** The condition [merchant_id = ? AND status = 'paid' AND paid_at IS NOT
    NULL AND paid_at >= ? AND paid_at < ?]; without bounds (a date that
    does not parse gives [NaN], bound as [NULL]) no row is selected. *)
Definition paid_on (bounds : option (Z * Z)) (merchantId : string) (kv : string * Invoice)
    : Prop :=
  inv_merchant_id kv.2 = merchantId ∧ inv_status kv.2 = paid
  ∧ match bounds, inv_paid_at kv.2 with
    | Some (start, end_), Some paid_at => start ≤ paid_at ∧ paid_at < end_
    | _, _ => False
    end.

#[global] Instance paid_on_dec bounds merchantId kv : Decision (paid_on bounds merchantId kv).
Proof.
  unfold paid_on. destruct bounds as [[start end_]|], (inv_paid_at kv.2); apply _.
Defined.

(** The loop that inserts the items of a settlement. *)
Fixpoint insertItems (settlementId : string) (feeBps feeFixed : Z)
    (paidInvoices : list (string * Invoice)) : B unit :=
  match paidInvoices with
  | [] => mret tt
  | inv :: paidInvoices' =>
      bk ← get_books;
      match sql_insert (settlementId, inv.1) (settlement_item feeBps feeFixed inv.2)
              (settlement_items bk) with
      | None => throw_books constraint_failed
      | Some t =>
          _ ← modify_books (set_settlement_items (λ _, t));
          insertItems settlementId feeBps feeFixed paidInvoices'
      end
  end.

Section Settlements.

(** [new Date(s).getTime()]: the milliseconds of an ISO date and time, or
    [None] for [NaN]. *)
Variable Date_getTime : string → option Z.

(** [start] and [end] of the day, in seconds. *)
Definition day_bounds (periodDate : string) : option (Z * Z) :=
  match Date_getTime (periodDate +:+ "T00:00:00Z"),
        Date_getTime (periodDate +:+ "T23:59:59Z") with
  | Some t0, Some t1 => Some (t0 / 1000, t1 / 1000 + 1)
  | _, _ => None
  end.

(** The body of the loop over the merchants: [true] when a settlement was
    created. [settlement_id] gives the UUID drawn for the settlement of a
    merchant. A settlement found with an empty [id] is not skipped, and
    the insertion then fails on [UNIQUE(merchant_id, period_date)]. *)
Definition settleMerchant (db : Db) (now : Z) (settlement_id : string → string)
    (periodDate : string) (m : string * Merchant) : B bool :=
  let merchantId := m.1 in
  bk ← get_books;
  let fees := default (mkFees 0 0) (merchant_fees bk !! merchantId) in
  let feeBps := fee_bps fees in
  let feeFixed := fee_fixed fees in
  let paidInvoices := sql_select_where (paid_on (day_bounds periodDate) merchantId)
                        (invoices db) in
  match paidInvoices with
  | [] => mret false
  | _ :: _ =>
      let existing := sql_select_where
                        (λ kv, st_merchant_id kv.2 = merchantId ∧ st_period_date kv.2 = periodDate)
                        (settlements bk) in
      match existing with
      | (id, _) :: _ =>
          if decide (id = "") then throw_books constraint_failed else mret false
      | [] =>
          let settlementId := settlement_id merchantId in
          match sql_insert settlementId
                  (mkSettlement merchantId periodDate
                     (total si_amount feeBps feeFixed paidInvoices)
                     (total si_fee feeBps feeFixed paidInvoices)
                     (total si_net feeBps feeFixed paidInvoices)
                     "pending" now None)
                  (settlements bk) with
          | None => throw_books constraint_failed
          | Some t =>
              _ ← modify_books (set_settlements (λ _, t));
              _ ← insertItems settlementId feeBps feeFixed paidInvoices;
              mret true
          end
      end
  end.

Fixpoint settleAll (db : Db) (now : Z) (settlement_id : string → string) (periodDate : string)
    (merchants : list (string * Merchant)) (created : nat) : B nat :=
  match merchants with
  | [] => mret created
  | m :: merchants' =>
      settleMerchant db now settlement_id periodDate m ≫= λ ok : bool,
      settleAll db now settlement_id periodDate merchants'
        (if ok then S created else created)
  end.

(** [runSettlementForDate]: the number of settlements created. *)
Definition runSettlementForDate (db : Db) (now : Z) (settlement_id : string → string)
    (periodDate : string) : B nat :=
  (* Get all active merchants *)
  let merchants := sql_select_where (λ kv, m_status kv.2 = "active") (merchants db) in
  settleAll db now settlement_id periodDate merchants 0.

End Settlements.
(** ** Concrete requests

    The examples run the middleware with [Number] restricted to decimal
    integer literals and with a short keyed checksum in the place of
    HMAC-SHA256. *)

(** The value of a string made of decimal digits only. *)
Fixpoint digits_value (acc : Z) (s : string) : option Z :=
  match s with
  | EmptyString => Some acc
  | String c s' =>
      match digit_value c with
      | Some d => digits_value (10 * acc + d) s'
      | None => None
      end
  end.

(** [Number(s)] for the strings that are a decimal integer literal with an
    optional sign and surrounding white space; the empty string is 0. *)
Definition Number_decimal (s : string) : option Z :=
  match trim s with
  | EmptyString => Some 0
  | String "-"%char r => if decide (r = "") then None else Z.opp <$> digits_value 0 r
  | String "+"%char r => if decide (r = "") then None else digits_value 0 r
  | r => digits_value 0 r
  end.

Fixpoint byte_sum (s : string) : Z :=
  match s with
  | String c s' => Z.of_N (Ascii.N_of_ascii c) + byte_sum s'
  | EmptyString => 0
  end.

Definition hex_digit_lower (n : Z) : Ascii.ascii :=
  Ascii.ascii_of_N (Z.to_N (if n <? 10 then 48 + n else 87 + n)).

(** A two-digit keyed checksum, standing for the hexadecimal digest. *)
Definition checksum_hmac (secret data : string) : string :=
  let n := (byte_sum secret + byte_sum data) mod 256 in
  String (hex_digit_lower (n / 16)) (String (hex_digit_lower (n mod 16)) EmptyString).

Definition example_credentials : MerchantCredentials :=
  mkCredentials (Some "sksec_live") None (Some "whsec_live") None.

Definition example_db : Db :=
  mkDb ∅ ∅ ∅ ∅ ∅ ∅ ∅ ∅ {[ "m1" := example_credentials ]} ∅.

(** A POST /invoices of merchant [m1] stamped 1000 with nonce [n1]. *)
Definition unsigned_request : Request :=
  mkRequest (Some "m1") (Some production) "post" "/invoices" "/invoices" (Some "{}")
    {[ "x-timestamp" := "1000"; "x-nonce" := "n1" ]} None None ∅.

Definition signed_request : Request :=
  mkRequest (Some "m1") (Some production) "post" "/invoices" "/invoices" (Some "{}")
    (<["x-signature" := checksum_hmac "sksec_live" (canonicalString unsigned_request "1000" "n1")]>
       (req_headers unsigned_request)) None None ∅.


(** A nonce table with a row that expired at 900 and a row that is live
    until 1100. *)
Definition stale_db : Db :=
  set_used_nonces (λ _, {[ ("m1", "old") := 900; ("m1", "n1") := 1100 ]}) example_db.


(** ** Concrete invoices

    Merchant [m1] has its production webhook enabled, merchant [m2] has
    none. Invoice [inv1] of [m1] was created at 1000 for 10000 with suffix 1
    and a pending lifetime of 600 seconds. *)

Definition example_merchants : gmap string Merchant :=
  {[ "m1" := mkMerchant "active" (Some "https://merchant.example/hook") 1 None 0 0;
     "m2" := mkMerchant "active" None 0 None 0 0 ]}.

Definition example_invoice (merchantId : string) (status : InvoiceStatus) (paid_at : option Z)
    : Invoice :=
  mkInvoice merchantId production "merchantA" None 10000 1 10001 status "000201" 1000 1600
    paid_at None.

Definition example_pending : PendingTransaction :=
  mkPending "merchantA" 10000 1 10001 "000201" 1000 1600.

(** The invoice of merchant [merchantId] in flight. *)
Definition in_flight_db (merchantId : string) : Db :=
  mkDb {[ "inv1" := example_pending ]} ∅ ∅
       {[ "inv1" := example_invoice merchantId pending None ]} ∅ ∅ ∅
       example_merchants ∅ ∅.


Definition check_request (merchantId : string) : Request :=
  mkRequest (Some merchantId) (Some production) "POST" "/invoices/inv1/check"
    "/invoices/inv1/check" None ∅ None (Some "inv1")
    {[ "username" := JStr "merchantA"; "token" := JStr "tok" ]}.

(** An upstream whose history shows a credit of 10.001 and a debit. *)
Definition upstream_with_credit (username token : string) : result HistoryResult :=
  Ok (mkHistory NoResults
        (ResultsArray [ mkEntry (Some (JStr "5.000")) (Some (JStr "OUT"));
                        mkEntry (Some (JStr "10.001")) (Some (JStr "IN")) ])).


(** ** Concrete deliveries

    Merchant [m1] has a webhook and a webhook secret. The receivers of the
    examples decide on the timestamp header of the request. *)

Definition quote : string := String (Ascii.ascii_of_N 34) EmptyString.

Definition stringify_value (v : json) : string :=
  match v with
  | JNull => "null"
  | JNum n => String_of_Z n
  | JStr s => quote +:+ s +:+ quote
  end.

Fixpoint stringify_fields (fields : list (string * json)) : string :=
  match fields with
  | [] => ""
  | [(k, v)] => quote +:+ k +:+ quote +:+ ":" +:+ stringify_value v
  | (k, v) :: fields' =>
      quote +:+ k +:+ quote +:+ ":" +:+ stringify_value v +:+ "," +:+ stringify_fields fields'
  end.

(** [JSON.stringify] of an object of numbers, strings without escapes, and
    nulls. *)
Definition stringify_object (fields : list (string * json)) : string :=
  "{" +:+ stringify_fields fields +:+ "}".

Definition header_value (name : string) (headers : list (string * string)) : string :=
  match list_find (λ h, h.1 = name) headers with
  | Some (_, (_, value)) => value
  | None => ""
  end.

(** A receiver that answers 500 to the requests stamped before 900 and 200
    from then on. *)
Definition recovering_receiver (url : string) (headers : list (string * string))
    (body : string) : FetchResult :=
  match Number_decimal (header_value "x-webhook-timestamp" headers) with
  | Some ts => if decide (ts < 900) then Responded 500 "error" else Responded 200 "ok"
  | None => Failed "TypeError" "fetch failed"
  end.

(** A receiver that always answers 500. *)
Definition failing_receiver (url : string) (headers : list (string * string))
    (body : string) : FetchResult :=
  Responded 500 "error".

Definition alert_uuid (id : string) : string := "alert-" +:+ id.

Definition webhook_db : Db :=
  mkDb ∅ ∅ ∅ ∅ ∅ ∅ ∅ example_merchants {[ "m1" := example_credentials ]} ∅.

(** The delivery [wd1] of a [payment.paid] event, queued at time 0. *)
Definition queued_db : Db :=
  (enqueueWebhookDelivery 0 "wd1" "m1" production (Some "inv1") "payment.paid"
     [("event_type", JStr "payment.paid"); ("invoice_id", JStr "inv1")] (Some 0) webhook_db).2.

(** The worker run at each of the given times, in turn. *)
Definition run_worker_at (receiver : string → list (string * string) → string → FetchResult)
    (times : list Z) (db : Db) : Db :=
  foldl (λ db now,
           (runWebhookWorkerOnce default_config checksum_hmac stringify_object receiver
              now alert_uuid db).2) db times.

(** The row of [wd1] after a first attempt at time 0 answered by 500. *)
Definition first_failure_row : WebhookDelivery :=
  mkDelivery "m1" production (Some "inv1") "payment.paid"
    [("event_type", JStr "payment.paid"); ("invoice_id", JStr "inv1")]
    queued 1 60 (Some 500) (Some "HTTP_500") (Some "error") 0 0.

(** ** Concrete addresses

    The examples run the middleware on IPv4 addresses in dotted-quad
    notation: an address is its four octets. *)

(** [s.split(c)]. *)
Fixpoint split_on (c : Ascii.ascii) (s : string) : list string :=
  match s with
  | EmptyString => [EmptyString]
  | String a s' =>
      if decide (a = c) then EmptyString :: split_on c s'
      else match split_on c s' with
           | part :: parts => String a part :: parts
           | [] => [String a EmptyString]
           end
  end.

Definition octet (s : string) : option Z :=
  if decide (s = "") then None
  else n ← digits_value 0 s; if decide (n ≤ 255) then Some n else None.

Definition ipv4_parse (s : string) : option (list Z) :=
  match split_on "." s with
  | [a; b; c; d] =>
      a ← octet a; b ← octet b; c ← octet c; d ← octet d; Some [a; b; c; d]
  | _ => None
  end.

Definition ipv4_value (addr : list Z) : Z := foldl (λ acc o, 256 * acc + o) 0 addr.

Definition ipv4_parseCIDR (s : string) : option (list Z * Z) :=
  match split_on "/" s with
  | [range; bits] =>
      range ← ipv4_parse range;
      bits ← (if decide (bits = "") then None else digits_value 0 bits);
      if decide (bits ≤ 32) then Some (range, bits) else None
  | _ => None
  end.

(** Two addresses agree on their [bits] leading bits. *)
Definition ipv4_match (addr range : list Z) (bits : Z) : option bool :=
  Some (bool_decide (Z.shiftr (ipv4_value addr) (32 - bits)
                     = Z.shiftr (ipv4_value range) (32 - bits))).

Definition ipv4_toNormalizedString (addr : list Z) : string :=
  match addr with
  | [a; b; c; d] =>
      String_of_Z a +:+ "." +:+ String_of_Z b +:+ "." +:+ String_of_Z c +:+ "." +:+ String_of_Z d
  | _ => ""
  end.

Definition ipv4_whitelist : Request → M Outcome :=
  ipWhitelist (list Z) ipv4_parse ipv4_parseCIDR ipv4_match ipv4_toNormalizedString.

(** Merchant [m1] has the allow-list enabled, with one range and one
    address; merchant [m3] has it enabled with no entry. *)
Definition whitelist_db : Db :=
  mkDb ∅ ∅ ∅ ∅ ∅ ∅ ∅
    {[ "m1" := mkMerchant "active" None 0 None 0 1;
       "m3" := mkMerchant "active" None 0 None 0 1 ]} ∅
    {[ ("m1", "10.1.0.0/16") := 1000; ("m1", " 192.168.1.5 ") := 1001 ]}.

(** A request of [merchantId] with the given [X-Forwarded-For] header and
    peer address. *)
Definition request_from (merchantId : string) (xff peer : option string) : Request :=
  mkRequest (Some merchantId) (Some production) "GET" "/health" "/health" None
    (match xff with Some v => {[ "x-forwarded-for" := v ]} | None => ∅ end)
    peer None ∅.

(** ** Concrete QRIS payloads *)

(** A static payload: format indicator, static mode, merchant name, country
    code, and its checksum. *)
Definition static_payload : string :=
  "000201" +:+ "010211" +:+ "5907WARUNGA" +:+ "5802ID" +:+ "6304" +:+
  hex4 (crc16_x25 ("000201" +:+ "010211" +:+ "5907WARUNGA" +:+ "5802ID" +:+ "6304")).
(** ** A database with merchants and credentials

    The merchants of [example_merchants] beside the credentials of
    [example_db]. *)

Definition signing_db : Db := set_merchants (λ _, example_merchants) example_db.

(** ** Concrete creations

    The generator of the examples is the codec modelled above; a payload
    that does not parse makes it throw. *)

Definition example_generator (qris_static : string) (amount : Z) : result string :=
  match generateDynamicQris qris_static amount with
  | Some qris => Ok qris
  | None => Thrown "Invalid QRIS"
  end.

(** A creation request of [merchantId] for principal [merchantA]. *)
Definition create_request (merchantId : string) (amount : json) : Request :=
  mkRequest (Some merchantId) (Some production) "POST" "/invoices" "/invoices" None ∅ None None
    {[ "username" := JStr "merchantA"; "token" := JStr "tok"; "amount" := amount;
       "qris_static" := JStr static_payload; "reference_id" := JStr "order_123" ]}.

Definition example_createInvoice (now : Z) (invoiceId event_id delivery_id : string)
    (req : Request) : M Response :=
  createInvoice default_config stringify_value example_generator now invoiceId event_id
    delivery_id req.

(** ** Concrete ticks *)

Definition event_uuid (id : string) : string := "event-" +:+ id.

Definition delivery_uuid (id : string) : string := "delivery-" +:+ id.

(** One tick at [now] with the receiver that always answers 500. *)
Definition example_tick (now : Z) : M unit :=
  schedulerTick default_config checksum_hmac stringify_object failing_receiver now
    event_uuid delivery_uuid alert_uuid.
(** ** A day of settlements

    Merchant [m1] pays 70 basis points and 100 per invoice. On 2024-01-01
    two of its invoices were paid, of 10001 and of 50; a third one was
    paid the day after, and the invoice of merchant [m2] is pending. *)

(** [getTime] for the two instants of 2024-01-01 that the run asks for. *)
Definition example_getTime (s : string) : option Z :=
  if decide (s = "2024-01-01T00:00:00Z") then Some 1704067200000
  else if decide (s = "2024-01-01T23:59:59Z") then Some 1704153599000
  else None.

Definition settlement_uuid (merchantId : string) : string := "settlement-" +:+ merchantId.

Definition paid_invoice (merchantId : string) (final_amount paid_at : Z) : Invoice :=
  mkInvoice merchantId production "merchantA" None (final_amount - 1) 1 final_amount paid "000201"
    (paid_at - 60) (paid_at + 540) (Some paid_at) None.

Definition settlement_db : Db :=
  mkDb ∅ ∅ ∅
       {[ "inv1" := paid_invoice "m1" 10001 1704070000;
          "inv2" := paid_invoice "m1" 50 1704100000;
          "inv3" := paid_invoice "m1" 30003 1704160000;
          "inv4" := example_invoice "m2" pending None ]}
       ∅ ∅ ∅ example_merchants ∅ ∅.

Definition settlement_books : Books :=
  mkBooks ∅ ∅ ∅ {[ "m1" := mkFees 70 100 ]}.
(** A suffix is claimed for a principal when a pending transaction of that
    principal that has not expired ([cleanupExpired] keeps the rows with
    [now <= expires_at]) holds it. *)
Definition claimed (now : Z) (username : string) (db : Db) (s : Z) : Prop :=
  ∃ id r, pending_transactions db !! id = Some r ∧ pt_username r = username
          ∧ now ≤ pt_expires_at r ∧ pt_unique_suffix r = s.

Lemma first_unused_Some usedSet a n s :
  first_unused usedSet (seqZ a n) = Some s ↔
  (a ≤ s < a + n) ∧ (s ∉ usedSet) ∧ (∀ j, a ≤ j < s → j ∈ usedSet).
Proof.
  destruct (decide (0 ≤ n)) as [Hn|Hn].
  2:{ rewrite seqZ_nil by lia. simpl. split; [done | lia]. }
  revert a. pattern n. apply natlike_ind; [| | done].
  - intros a. rewrite seqZ_nil by lia. simpl. split; [done | lia].
  - intros k Hk IH a. rewrite seqZ_cons by lia. simpl.
    replace (Z.pred (Z.succ k)) with k by lia.
    destruct (decide (a ∈ usedSet)) as [Hin|Hin].
    + rewrite IH. split.
      * intros (? & ? & Hall). split; [lia|]. split; [done|].
        intros j Hj. destruct (decide (j = a)) as [->|]; [done|]. apply Hall. lia.
      * intros (? & Hs & Hall). assert (s ≠ a) by (intros ->; done).
        split; [lia|]. split; [done|]. intros j Hj. apply Hall. lia.
    + split.
      * intros [= <-]. split; [lia|]. split; [done|]. intros j Hj. lia.
      * intros (? & Hs & Hall). f_equal.
        destruct (decide (a = s)) as [|Hne]; [done|].
        exfalso. apply Hin. apply Hall. lia.
Qed.

Lemma first_unused_None usedSet a n :
  first_unused usedSet (seqZ a n) = None ↔ ∀ j, a ≤ j < a + n → j ∈ usedSet.
Proof.
  destruct (decide (0 ≤ n)) as [Hn|Hn].
  2:{ rewrite seqZ_nil by lia. simpl. split; [lia | done]. }
  revert a. pattern n. apply natlike_ind; [| | done].
  - intros a. rewrite seqZ_nil by lia. simpl. split; [lia | done].
  - intros k Hk IH a. rewrite seqZ_cons by lia. simpl.
    replace (Z.pred (Z.succ k)) with k by lia.
    destruct (decide (a ∈ usedSet)) as [Hin|Hin].
    + rewrite IH. split.
      * intros Hall j Hj. destruct (decide (j = a)) as [->|]; [done|]. apply Hall. lia.
      * intros Hall j Hj. apply Hall. lia.
    + split; [done|]. intros Hall. exfalso. apply Hin. apply Hall. lia.
Qed.

(** After [cleanupExpired], the set read by [getAvailableSuffix] is the set
    of claimed suffixes. *)
Lemma usedSet_claimed now username db s :
  let db' := (cleanupExpired now db).2 in
  s ∈ (list_to_set ((λ kv, pt_unique_suffix kv.2) <$>
         sql_select_where (λ kv, pt_username kv.2 = username) (pending_transactions db')) : gset Z)
  ↔ claimed now username db s.
Proof.
  simpl. rewrite elem_of_list_to_set, list_elem_of_fmap. unfold sql_select_where, claimed.
  split.
  - intros ([id r] & -> & Hin). apply list_elem_of_filter in Hin as [Hu Hin].
    apply elem_of_map_to_list in Hin. unfold sql_delete_where in Hin.
    apply map_lookup_filter_Some in Hin as [Hl Hexp]. simpl in *.
    exists id, r. repeat split; [done | done | lia].
  - intros (id & r & Hl & Hu & Hexp & <-). exists (id, r). split; [done|].
    apply list_elem_of_filter. split; [done|]. apply elem_of_map_to_list.
    unfold sql_delete_where. apply map_lookup_filter_Some. split; [done|]. simpl. lia.
Qed.

(** The value returned by [getAvailableSuffix], read on the database before
    the call. *)
Lemma getAvailableSuffix_result now username db :
  (getAvailableSuffix now username db).1 =
  let usedSet : gset Z := list_to_set ((λ kv, pt_unique_suffix kv.2) <$>
       sql_select_where (λ kv, pt_username kv.2 = username)
         (pending_transactions (cleanupExpired now db).2)) in
  match first_unused usedSet (seqZ 1 500) with
  | Some i => Ok i
  | None => match first_unused usedSet (seqZ 501 499) with
            | Some i => Ok i
            | None => Thrown "No suffix available"
            end
  end.
Proof.
  cbv [getAvailableSuffix cleanupExpired modify_db get_db throw mbind M_bind mret M_ret snd].
  destruct (first_unused _ (seqZ 1 500)); [done|].
  destruct (first_unused _ (seqZ 501 499)); done.
Qed.

(** C1. Suffix allocation returns the smallest suffix of [1, 500] that no
    unexpired pending transaction of the principal claims, falls back to the
    smallest unclaimed suffix of [501, 999] when the first range is full,
    returns 1 for a principal without claims, and throws exactly when all of
    1..999 are claimed. *)
Theorem getAvailableSuffix_smallest_unclaimed now username db :
  (∀ s, (getAvailableSuffix now username db).1 = Ok s ↔
        ((1 ≤ s ≤ 500 ∧ ¬ claimed now username db s
            ∧ ∀ j, 1 ≤ j < s → claimed now username db j)
         ∨ ((∀ j, 1 ≤ j ≤ 500 → claimed now username db j)
            ∧ 501 ≤ s ≤ 999 ∧ ¬ claimed now username db s
            ∧ ∀ j, 501 ≤ j < s → claimed now username db j)))
  ∧ ((∀ s, ¬ claimed now username db s) → (getAvailableSuffix now username db).1 = Ok 1)
  ∧ ((∃ message, (getAvailableSuffix now username db).1 = Thrown message) ↔
     ∀ j, 1 ≤ j ≤ 999 → claimed now username db j).
Proof.
  rewrite getAvailableSuffix_result. cbv zeta.
  set (usedSet := list_to_set _ : gset Z).
  assert (Hused : ∀ s, s ∈ usedSet ↔ claimed now username db s)
    by (intros s; apply usedSet_claimed).
  destruct (first_unused usedSet (seqZ 1 500)) as [i|] eqn:H1.
  - apply first_unused_Some in H1 as (Hi & Hni & Hlt).
    split; [|split].
    + intros s. split.
      * intros [= <-]. left. split; [lia|]. split; [by rewrite <- Hused|].
        intros j Hj. apply Hused, Hlt. lia.
      * intros [(Hs & Hns & Hall) | (Hall & _)].
        -- f_equal. rewrite <- Hused in Hns.
           destruct (Z.lt_trichotomy i s) as [Hlt'|[->|Hgt]]; [|done|].
           ++ exfalso. apply Hni, Hused, Hall. lia.
           ++ exfalso. apply Hns, Hlt. lia.
        -- exfalso. apply Hni, Hused, Hall. lia.
    + intros Hnone. f_equal. destruct (decide (i = 1)) as [|Hne]; [done|].
      exfalso. apply (Hnone 1), Hused, Hlt. lia.
    + split.
      * intros [message [=]].
      * intros Hall. exfalso. apply Hni, Hused, Hall. lia.
  - rewrite first_unused_None in H1.
    destruct (first_unused usedSet (seqZ 501 499)) as [i|] eqn:H2.
    + apply first_unused_Some in H2 as (Hi & Hni & Hlt).
      split; [|split].
      * intros s. split.
        -- intros [= <-]. right. split; [|split; [lia|split]].
           ++ intros j Hj. apply Hused, H1. lia.
           ++ by rewrite <- Hused.
           ++ intros j Hj. apply Hused, Hlt. lia.
        -- intros [(Hs & Hns & _) | (_ & Hs & Hns & Hall)].
           ++ exfalso. apply Hns, Hused, H1. lia.
           ++ f_equal. rewrite <- Hused in Hns.
              destruct (Z.lt_trichotomy i s) as [Hlt'|[->|Hgt]]; [|done|].
              ** exfalso. apply Hni, Hused, Hall. lia.
              ** exfalso. apply Hns, Hlt. lia.
      * intros Hnone. exfalso. apply (Hnone 1), Hused, H1. lia.
      * split.
        -- intros [message [=]].
        -- intros Hall. exfalso. apply Hni, Hused, Hall. lia.
    + rewrite first_unused_None in H2.
      split; [|split].
      * intros s. split; [done|].
        intros [(Hs & Hns & _) | (_ & Hs & Hns & _)]; exfalso; apply Hns, Hused.
        -- apply H1. lia.
        -- apply H2. lia.
      * intros Hnone. exfalso. apply (Hnone 1), Hused, H1. lia.
      * split; [|by eauto].
        intros _ j Hj. apply Hused.
        destruct (decide (j ≤ 500)); [apply H1 | apply H2]; lia.
Qed.

(** ** Properties of the signed-request middleware *)

(** The opportunistic cleanup done by [isNonceUsed]. *)
Definition purge_nonces (now : Z) (db : Db) : Db :=
  set_used_nonces (sql_delete_where (λ kv, kv.2 ≤ now)) db.

(** The trimmed signature headers of a request. *)
Definition x_timestamp (req : Request) : string := trim (or_default (header req "x-timestamp") "").
Definition x_nonce (req : Request) : string := trim (or_default (header req "x-nonce") "").
Definition x_signature (req : Request) : string := trim (or_default (header req "x-signature") "").

(** A nonce is live at [now] when its row has not expired. *)
Definition nonce_live (now : Z) (db : Db) (merchantId nonce : string) : Prop :=
  ∃ e, used_nonces db !! (merchantId, nonce) = Some e ∧ now < e.

Lemma sql_delete_where_lookup `{Countable K} {V : Type} (P : K * V → Prop)
    `{∀ kv, Decision (P kv)} (t : gmap K V) (k : K) :
  sql_delete_where P t !! k =
  match t !! k with
  | Some v => if decide (P (k, v)) then None else Some v
  | None => None
  end.
Proof.
  unfold sql_delete_where. destruct (t !! k) as [v|] eqn:Hk.
  - case_decide.
    + apply map_lookup_filter_None. right. intros v' Hv'. simplify_eq/=. tauto.
    + by apply map_lookup_filter_Some.
  - apply map_lookup_filter_None. by left.
Qed.

Lemma purge_nonces_lookup now db k :
  used_nonces (purge_nonces now db) !! k =
  match used_nonces db !! k with
  | Some e => if decide (now < e) then Some e else None
  | None => None
  end.
Proof.
  unfold purge_nonces, set_used_nonces. simpl. rewrite sql_delete_where_lookup.
  destruct (used_nonces db !! k) as [e|]; [|done]. simpl.
  repeat case_decide; done || lia.
Qed.

Lemma purge_nonces_mono now now' db :
  now ≤ now' → purge_nonces now' (purge_nonces now db) = purge_nonces now' db.
Proof.
  intros Hle. unfold purge_nonces, set_used_nonces. simpl. f_equal.
  apply map_eq. intros k. rewrite !sql_delete_where_lookup.
  destruct (used_nonces db !! k) as [e|]; [|done]. simpl.
  repeat case_decide; done || lia.
Qed.

(** The signing secret that [getMerchantSigningSecret] reads. *)
Definition signing_secret (db : Db) (merchantId : string) (env : Env) : option string :=
  row ← merchant_credentials db !! merchantId;
  non_empty (match env with
             | sandbox => mc_sandbox_api_secret row
             | production => mc_api_secret row
             end).

Lemma getMerchantSigningSecret_run merchantId env db :
  getMerchantSigningSecret merchantId env db = (Ok (signing_secret db merchantId env), db).
Proof.
  unfold getMerchantSigningSecret, signing_secret.
  cbv [mbind M_bind mret M_ret get_db option_bind].
  destruct (merchant_credentials db !! merchantId) as [row|]; [|done].
  unfold non_empty, or_default.
  destruct env; [destruct (mc_api_secret row) | destruct (mc_sandbox_api_secret row)];
    repeat case_decide; congruence.
Qed.

Section SignedProperties.

Variable makeHmac : string → string → string.
Variable Number : string → option Z.

#[local] Abbreviation requireSignedRequest' := (requireSignedRequest makeHmac Number).

(** The steps of the middleware, as a decision on the request and on the
    database before the call. *)
Lemma requireSignedRequest_unfold W ttl now req db :
  requireSignedRequest' W ttl now req db =
  match non_empty (req_merchantId req) with
  | None => (Ok (Respond 401 "UNAUTHENTICATED"), db)
  | Some merchantId =>
      if decide (x_timestamp req = "" ∨ x_nonce req = "" ∨ x_signature req = "") then
        (Ok (Respond 400 "MISSING_SIGNATURE_HEADERS"), db)
      else
        match Number (x_timestamp req) with
        | None => (Ok (Respond 400 "INVALID_TIMESTAMP"), db)
        | Some ts =>
            if decide (ts ≤ 0) then (Ok (Respond 400 "INVALID_TIMESTAMP"), db)
            else if decide (Z.abs (now - ts) > W) then (Ok (Respond 401 "REQUEST_EXPIRED"), db)
            else
              match used_nonces (purge_nonces now db) !! (merchantId, x_nonce req) with
              | Some _ => (Ok (Respond 409 "REPLAY_DETECTED"), purge_nonces now db)
              | None =>
                  match signing_secret db merchantId (default production (req_gwEnv req)) with
                  | Some secret =>
                      if timingSafeEqualHex
                           (makeHmac secret (canonicalString req (x_timestamp req) (x_nonce req)))
                           (x_signature req)
                      then (Ok Next,
                            set_used_nonces (<[(merchantId, x_nonce req) := now + ttl]>)
                              (purge_nonces now db))
                      else (Ok (Respond 401 "INVALID_SIGNATURE"), purge_nonces now db)
                  | None => (Ok (Respond 401 "NO_SIGNING_SECRET"), purge_nonces now db)
                  end
              end
        end
  end.
Proof.
  unfold requireSignedRequest.
  fold (x_timestamp req) (x_nonce req) (x_signature req).
  destruct (non_empty (req_merchantId req)) as [merchantId|] eqn:Hm; [|done].
  case_decide as Hhdr; [done|].
  destruct (Number (x_timestamp req)) as [ts|]; [|done].
  case_decide; [done|]. case_decide; [done|].
  assert (merchantId ≠ "").
  { unfold non_empty in Hm. destruct (req_merchantId req); [|done].
    case_decide; simplify_eq. done. }
  unfold isNonceUsed. rewrite decide_False by tauto.
  cbv [mbind M_bind mret M_ret modify_db get_db].
  fold (purge_nonces now db).
  destruct (used_nonces (purge_nonces now db) !! (merchantId, x_nonce req)) as [e|] eqn:He.
  - rewrite purge_nonces_lookup in He.
    destruct (used_nonces db !! (merchantId, x_nonce req)); [|done].
    case_decide; simplify_eq. by rewrite bool_decide_true by lia.
  - unfold getMerchantSecretForSigning. rewrite getMerchantSigningSecret_run.
    assert (signing_secret (purge_nonces now db) merchantId (default production (req_gwEnv req))
            = signing_secret db merchantId (default production (req_gwEnv req))) as -> by done.
    destruct (signing_secret db merchantId _) as [secret|]; [|done].
    destruct (timingSafeEqualHex _ _); done.
Qed.

(** The middleware never throws, and it changes at most the nonce table:
    nothing, the removal of the expired rows, or that removal followed by
    the insertion of the request's nonce. *)
Lemma requireSignedRequest_effect W ttl now req db :
  ∃ o db', requireSignedRequest' W ttl now req db = (Ok o, db') ∧
    ((db' = db ∧ o ≠ Next) ∨ (db' = purge_nonces now db ∧ o ≠ Next)
     ∨ (o = Next ∧ ∃ merchantId,
          non_empty (req_merchantId req) = Some merchantId ∧
          db' = set_used_nonces (<[(merchantId, x_nonce req) := now + ttl]>)
                  (purge_nonces now db))).
Proof.
  rewrite requireSignedRequest_unfold.
  repeat (case_match || case_decide); eauto 10.
Qed.





(** A request passes the timestamp check when neither of its two
    answers is given. *)
Definition passes_timestamp_check (r : result Outcome) : Prop :=
  r ≠ Ok (Respond 400 "INVALID_TIMESTAMP") ∧ r ≠ Ok (Respond 401 "REQUEST_EXPIRED").

(** C7. A request with its signature headers and a positive integer
    timestamp [ts] passes the timestamp check if and only if
    [|now - ts| <= W]; a skew of exactly [W] passes and a skew of [W + 1]
    is answered 401 REQUEST_EXPIRED. *)
Theorem timestamp_window_inclusive W ttl now req db merchantId ts :
  non_empty (req_merchantId req) = Some merchantId →
  x_timestamp req ≠ "" → x_nonce req ≠ "" → x_signature req ≠ "" →
  Number (x_timestamp req) = Some ts → 0 < ts →
  (passes_timestamp_check (requireSignedRequest' W ttl now req db).1 ↔ Z.abs (now - ts) ≤ W)
  ∧ (Z.abs (now - ts) = W →
     passes_timestamp_check (requireSignedRequest' W ttl now req db).1)
  ∧ (Z.abs (now - ts) = W + 1 →
     (requireSignedRequest' W ttl now req db).1 = Ok (Respond 401 "REQUEST_EXPIRED")).
Proof.
  intros Hm Ht Hn Hs Hts Hpos.
  assert (Hiff : passes_timestamp_check (requireSignedRequest' W ttl now req db).1
                 ↔ Z.abs (now - ts) ≤ W).
  { rewrite requireSignedRequest_unfold, Hm, Hts. unfold passes_timestamp_check.
    rewrite decide_False by tauto. rewrite (decide_False (P := ts ≤ 0)) by lia.
    destruct (decide (Z.abs (now - ts) > W)) as [Hgt|Hle].
    - simpl. split; [intros [_ Hne]; by destruct Hne | lia].
    - split; [lia|]. intros _.
      repeat case_match; simpl; split; congruence. }
  split; [done|]. split.
  - intros Heq. apply Hiff. lia.
  - intros Heq. rewrite requireSignedRequest_unfold, Hm, Hts.
    rewrite decide_False by tauto. rewrite (decide_False (P := ts ≤ 0)) by lia.
    rewrite decide_True by lia. done.
Qed.


(** C10 (as amended). A request that the middleware rejects adds no nonce
    to the table: the database is left as it was when the rejection comes
    before the replay check (no merchant, missing headers, invalid or
    out-of-window timestamp), and otherwise only the rows that had already
    expired are removed (the cleanup done by the replay check); every
    unexpired nonce keeps its row, and any later request gets the answer it
    would have got without the rejected one, so the same nonce can still be
    accepted. The nonce of a request is written only when the request is
    accepted, after its signature has been verified. *)
Theorem rejected_request_marks_no_nonce W ttl now req db :
  (∀ status code db',
     requireSignedRequest' W ttl now req db = (Ok (Respond status code), db') →
     (db' = db ∨ db' = purge_nonces now db)
     ∧ (code ∈ ["UNAUTHENTICATED"; "MISSING_SIGNATURE_HEADERS"; "INVALID_TIMESTAMP";
                "REQUEST_EXPIRED"] → db' = db)
     ∧ (∀ k e, used_nonces db' !! k = Some e → used_nonces db !! k = Some e)
     ∧ (∀ k e, now < e → used_nonces db !! k = Some e → used_nonces db' !! k = Some e)
     ∧ (∀ now' req', now ≤ now' →
          (requireSignedRequest' W ttl now' req' db').1
          = (requireSignedRequest' W ttl now' req' db).1))
  ∧ (∀ db', requireSignedRequest' W ttl now req db = (Ok Next, db') →
       ∃ merchantId secret,
         non_empty (req_merchantId req) = Some merchantId
         ∧ signing_secret db merchantId (default production (req_gwEnv req)) = Some secret
         ∧ timingSafeEqualHex
             (makeHmac secret (canonicalString req (x_timestamp req) (x_nonce req)))
             (x_signature req) = true
         ∧ db' = set_used_nonces (<[(merchantId, x_nonce req) := now + ttl]>)
                   (purge_nonces now db)).
Proof.
  split.
  - intros status code db' Hrun.
    assert (Hdb : db' = db ∨ db' = purge_nonces now db).
    { destruct (requireSignedRequest_effect W ttl now req db)
        as (o & db'' & Heq & Hcases). rewrite Hrun in Heq. simplify_eq.
      destruct Hcases as [[-> _]|[[-> _]|[[=] _]]]; auto. }
    split; [done|]. split; [|split; [|split]].
    + intros Hcode. rewrite requireSignedRequest_unfold in Hrun.
      rewrite !elem_of_cons, elem_of_nil in Hcode.
      repeat (case_match || case_decide); simplify_eq; try done;
        destruct Hcode as [?|[?|[?|[?|[]]]]]; discriminate.
    + intros k e. destruct Hdb as [->| ->]; [done|].
      rewrite purge_nonces_lookup. destruct (used_nonces db !! k); [|done].
      case_decide; congruence.
    + intros k e Hlive Hk. destruct Hdb as [->| ->]; [done|].
      rewrite purge_nonces_lookup, Hk. by rewrite decide_True.
    + intros now' req' Hle. destruct Hdb as [->| ->]; [done|].
      rewrite !requireSignedRequest_unfold.
      rewrite purge_nonces_mono by done.
      destruct (non_empty (req_merchantId req')) as [m'|]; [|done].
      change (signing_secret (purge_nonces now db) m' (default production (req_gwEnv req')))
        with (signing_secret db m' (default production (req_gwEnv req'))).
      repeat (case_match || case_decide); done.
  - intros db' Hrun. rewrite requireSignedRequest_unfold in Hrun.
    repeat (case_match || case_decide); simplify_eq/=. eauto 10.
Qed.

End SignedProperties.


Ltac discharge :=
  first [ reflexivity | lia | discriminate
        | vm_compute; first [ reflexivity | discriminate | intros ?; discriminate ] ].

Lemma timestamp_window_inclusive_witness :
  passes_timestamp_check
    (requireSignedRequest checksum_hmac Number_decimal 60 120 1060 signed_request example_db).1.
Proof.
  apply (proj1 (proj2 (timestamp_window_inclusive checksum_hmac Number_decimal
           60 120 1060 signed_request example_db "m1" 1000
           ltac:(discharge) ltac:(discharge) ltac:(discharge) ltac:(discharge)
           ltac:(discharge) ltac:(discharge)))).
  discharge.
Defined.



Lemma rejected_request_marks_no_nonce_witness :
  used_nonces (purge_nonces 1000 stale_db) !! ("m1", "n1") = Some 1100.
Proof.
  apply (proj1 (proj2 (proj2 (proj2
           (proj1 (rejected_request_marks_no_nonce checksum_hmac Number_decimal
                     60 120 1000 signed_request stale_db)
              409 "REPLAY_DETECTED" (purge_nonces 1000 stale_db) ltac:(discharge)))))
         ("m1", "n1") 1100); discharge.
Defined.

(** C10, counterexample. A replayed request is rejected, and the nonce
    table is not the one before the call: the replay check has deleted the
    row that had expired. *)
Lemma rejected_request_changes_nonce_table :
  (∀ makeHmac,
     requireSignedRequest makeHmac Number_decimal 60 120 1000 signed_request stale_db
     = (Ok (Respond 409 "REPLAY_DETECTED"),
        set_used_nonces (λ _, {[ ("m1", "n1") := 1100 ]}) example_db))
  ∧ used_nonces stale_db !! ("m1", "old") = Some 900
  ∧ used_nonces (set_used_nonces (λ _, {[ ("m1", "n1") := 1100 ]}) example_db)
      !! ("m1", "old") = None.
Proof.
  split; [|split; vm_compute; reflexivity].
  intros makeHmac. rewrite requireSignedRequest_unfold. vm_compute. reflexivity.
Qed.


(** ** Properties of the invoice service *)



(** The webhook configuration that [getMerchantWebhookConfigEnv] reads. *)
Definition webhook_config (db : Db) (merchantId : string) (env : Env) : option string * bool :=
  match merchants db !! merchantId with
  | None => (None, false)
  | Some row =>
      match env with
      | sandbox => (non_empty (m_sandbox_webhook_url row),
                    bool_decide (m_sandbox_webhook_enabled row = 1))
      | production => (non_empty (m_webhook_url row), bool_decide (m_webhook_enabled row = 1))
      end
  end.

Lemma getMerchantWebhookConfigEnv_run merchantId env db :
  getMerchantWebhookConfigEnv merchantId env db = (Ok (webhook_config db merchantId env), db).
Proof.
  unfold getMerchantWebhookConfigEnv, webhook_config. cbv [mbind M_bind mret M_ret get_db].
  destruct (merchants db !! merchantId); [|done]. by destruct env.
Qed.

(** [notify] with fresh identifiers: the event is appended and, when the
    webhook of the merchant is on, the delivery is queued. *)
Lemma notify_run now event_id delivery_id invoiceId merchantId env event_type ep dp db :
  invoice_events db !! event_id = None →
  webhook_deliveries db !! delivery_id = None →
  notify now event_id delivery_id invoiceId merchantId env event_type ep dp db =
  (Ok tt,
   set_webhook_deliveries
     (λ t, if webhook_on (webhook_config db merchantId env)
           then <[delivery_id := mkDelivery merchantId env (Some invoiceId) event_type dp
                                   queued 0 now None None None now now]> t
           else t)
     (set_invoice_events (<[event_id := mkEvent invoiceId merchantId event_type ep now]>) db)).
Proof.
  intros Hev Hwd. unfold notify, createInvoiceEvent, sql_insert.
  cbv [mbind M_bind mret M_ret get_db modify_db]. rewrite Hev.
  rewrite getMerchantWebhookConfigEnv_run.
  change (webhook_config (set_invoice_events _ db) merchantId env)
    with (webhook_config db merchantId env).
  destruct (webhook_on (webhook_config db merchantId env)).
  - unfold enqueueWebhookDelivery, sql_insert. cbv [mbind M_bind mret M_ret get_db modify_db].
    simpl. rewrite Hwd. done.
  - by destruct db.
Qed.

Lemma alter_Some_insert `{Countable K} {V : Type} (f : V → V) (k : K) (v : V) (t : gmap K V) :
  t !! k = Some v → alter f k t = <[k := f v]> t.
Proof.
  intros Hk. apply map_eq. intros k'. destruct (decide (k = k')) as [<-|Hne].
  - by rewrite lookup_alter_eq, lookup_insert_eq, Hk.
  - by rewrite lookup_alter_ne, lookup_insert_ne.
Qed.

Lemma non_empty_inv x s : non_empty x = Some s → s ≠ "" ∧ x = Some s.
Proof. unfold non_empty. destruct x; [|done]. case_decide; naive_solver. Qed.

Lemma non_empty_Some s : s ≠ "" → non_empty (Some s) = Some s.
Proof. intros Hs. unfold non_empty. by rewrite decide_False. Qed.

(** The invoice that a check request names. *)
Definition checked_invoice (req : Request) : string := trim (or_default (req_params_id req) "").












(** ** Properties of the webhook worker *)

(** The row that [markWebhookDeliveryResult] leaves in the place of [d]. *)
Definition marked (now : Z) (input : DeliveryResult) (d : WebhookDelivery) : WebhookDelivery :=
  let attempt := wd_attempt_count d + 1 in
  if res_delivered input then delivery_with_result delivered attempt now input now d
  else
    match res_next_retry_at input with
    | RetryTime t => delivery_with_result queued attempt t input now d
    | RetryUndefined => delivery_with_result queued attempt (now + 60) input now d
    | RetryNull =>
        delivery_with_status failed now
          (delivery_with_result failed attempt (now + 60) input now d)
    end.

Lemma markWebhookDeliveryResult_run now input db d :
  webhook_deliveries db !! res_id input = Some d →
  markWebhookDeliveryResult now input db
  = (Ok tt, set_webhook_deliveries (<[res_id input := marked now input d]>) db).
Proof.
  intros Hd. unfold markWebhookDeliveryResult, marked.
  cbv [mbind M_bind mret M_ret get_db modify_db]. rewrite Hd.
  unfold set_webhook_deliveries. simpl.
  rewrite (alter_Some_insert _ _ d) by done.
  destruct (res_delivered input); [done|].
  destruct (res_next_retry_at input); simpl; try done.
  rewrite (alter_Some_insert _ _ (delivery_with_result failed (wd_attempt_count d + 1)
             (now + 60) input now d)) by apply lookup_insert_eq.
  by rewrite insert_insert_eq.
Qed.

(** The webhook secret that [getMerchantWebhookSecret] reads. *)
Definition webhook_secret (db : Db) (merchantId : string) (env : Env) : option string :=
  row ← merchant_credentials db !! merchantId;
  non_empty (match env with
             | sandbox => mc_sandbox_webhook_secret row
             | production => mc_webhook_secret row
             end).

Lemma getMerchantWebhookSecret_run merchantId env db :
  getMerchantWebhookSecret merchantId env db = (Ok (webhook_secret db merchantId env), db).
Proof.
  unfold getMerchantWebhookSecret, webhook_secret.
  cbv [mbind M_bind mret M_ret get_db option_bind].
  destruct (merchant_credentials db !! merchantId) as [row|]; [|done].
  unfold non_empty, or_default.
  destruct env; [destruct (mc_webhook_secret row) | destruct (mc_sandbox_webhook_secret row)];
    repeat case_decide; congruence.
Qed.

Lemma insert_by_Permutation {A : Type} (lt : A → A → bool) (x : A) (l : list A) :
  insert_by lt x l ≡ₚ x :: l.
Proof.
  induction l as [|y l IH]; simpl; [done|]. destruct (lt x y); [done|].
  rewrite IH. apply Permutation_swap.
Qed.

Lemma order_by_Permutation {A : Type} (lt : A → A → bool) (l : list A) :
  order_by lt l ≡ₚ l.
Proof.
  induction l as [|x l IH]; simpl; [done|].
  rewrite insert_by_Permutation. by f_equiv.
Qed.

(** The batch that [getDueWebhookDeliveries] returns. *)
Definition due_batch (now : Z) (limit : nat) (db : Db) : list (string * WebhookDelivery) :=
  take limit (order_by (λ kv1 kv2, bool_decide (wd_next_retry_at kv1.2 < wd_next_retry_at kv2.2))
                (sql_select_where (λ kv, wd_status kv.2 = queued ∧ wd_next_retry_at kv.2 ≤ now)
                   (webhook_deliveries db))).

Lemma getDueWebhookDeliveries_run now limit db :
  getDueWebhookDeliveries now limit db = (Ok (due_batch now limit db), db).
Proof. reflexivity. Qed.

(** The scan selects rows of the table that are queued and due. *)
Lemma due_batch_elem now limit db id d :
  (id, d) ∈ due_batch now limit db →
  webhook_deliveries db !! id = Some d ∧ wd_status d = queued ∧ wd_next_retry_at d ≤ now.
Proof.
  unfold due_batch, sql_select_where. intros Hin.
  apply subseteq_take in Hin. rewrite order_by_Permutation in Hin.
  apply list_elem_of_filter in Hin as [[Hq Hdue] Hin].
  apply elem_of_map_to_list in Hin. done.
Qed.

Lemma due_batch_NoDup now limit db : NoDup (due_batch now limit db).*1.
Proof.
  unfold due_batch, sql_select_where.
  eapply sublist_NoDup; [|apply fmap_sublist; apply sublist_take].
  rewrite order_by_Permutation.
  eapply sublist_NoDup; [|apply fmap_sublist; apply sublist_filter].
  apply NoDup_fst_map_to_list.
Qed.

Section WorkerProperties.

Variable cfg : Config.
Variable makeHmac : string → string → string.
Variable JSON_stringify : list (string * json) → string.

(** The receiver: the answer of [fetch] to a request. *)
#[local] Abbreviation Receiver := (string → list (string * string) → string → FetchResult).

(** The row left by an attempt that failed. *)
Definition failed_attempt_row (now : Z) (id : string) (d : WebhookDelivery)
    (status_code : option Z) (error : string) (snippet : option string) : WebhookDelivery :=
  if decide (wd_attempt_count d + 1 >= MAX_ATTEMPTS cfg) then
    marked now (mkResult id false status_code (Some error) snippet RetryNull) d
  else
    marked now (mkResult id false status_code (Some error) snippet
                  (RetryTime (now + backoffSeconds cfg (wd_attempt_count d + 1)))) d.

Lemma attempt_failed_run now alert_id id d status_code error snippet reason db :
  webhook_deliveries db !! id = Some d →
  alerts db !! alert_id = None →
  ∃ al, attempt_failed cfg now alert_id id d status_code error snippet reason db
        = (Ok tt,
           set_alerts (λ _, al)
             (set_webhook_deliveries
                (<[id := failed_attempt_row now id d status_code error snippet]>) db))
        ∧ (al = alerts db ∨ ∃ a, al = <[alert_id := a]> (alerts db)).
Proof.
  intros Hd Hal. unfold attempt_failed, failed_attempt_row.
  case_decide.
  - cbv [mbind M_bind]. rewrite (markWebhookDeliveryResult_run _ _ _ d) by done.
    unfold createAlert, sql_insert. cbv [mbind M_bind mret M_ret get_db modify_db].
    simpl. rewrite Hal. eexists. split; [done|]. right. eauto.
  - rewrite (markWebhookDeliveryResult_run _ _ _ d) by done.
    exists (alerts db). split; [|by left]. by destruct db.
Qed.

(** The error recorded for an exception of [fetch]. *)
Definition fetch_error (name message : string) : string :=
  if decide (name = "AbortError") then "TIMEOUT" else or_default (Some message) "ERROR".

Definition response_snippet (text : string) : option string :=
  if decide (text = "") then None else Some (slice_to 500 text).

(** The request that [deliverOne] sends for [d] at [now]. *)
Definition webhook_response (fetch : Receiver) (now : Z) (webhook_url whsec : string)
    (d : WebhookDelivery) : FetchResult :=
  fetch webhook_url
    [("content-type", "application/json"); ("x-event-type", wd_event_type d);
     ("x-webhook-timestamp", String_of_Z now);
     ("x-webhook-signature",
      signWebhook makeHmac whsec now (JSON_stringify (wd_payload d)))]
    (JSON_stringify (wd_payload d)).

(** The row left by [deliverOne] in the place of [d], given the webhook
    configuration of the merchant and its secret. *)
Definition attempted_row (fetch : Receiver) (now : Z) (id : string)
    (whCfg : option string * bool) (whsec : option string) (d : WebhookDelivery)
    : WebhookDelivery :=
  match whCfg, whsec with
  | (Some webhook_url, true), Some whsec =>
      match webhook_response fetch now webhook_url whsec d with
      | Failed name message =>
          failed_attempt_row now id d None (fetch_error name message) None
      | Responded status text =>
          if decide (status >= 200 ∧ status < 300) then
            marked now (mkResult id true (Some status) None (response_snippet text)
                          RetryUndefined) d
          else
            failed_attempt_row now id d (Some status) ("HTTP_" +:+ String_of_Z status)
              (response_snippet text)
      end
  | (Some _, true), None =>
      marked now (mkResult id false None (Some "MISSING_CREDENTIALS") None RetryNull) d
  | _, _ =>
      marked now (mkResult id false None (Some "WEBHOOK_DISABLED") None RetryNull) d
  end.

Lemma deliverOne_run (fetch : Receiver) now alert_id id d db :
  webhook_deliveries db !! id = Some d →
  alerts db !! alert_id = None →
  ∃ al, deliverOne cfg makeHmac JSON_stringify fetch now alert_id (id, d) db
        = (Ok tt,
           set_alerts (λ _, al)
             (set_webhook_deliveries
                (<[id := attempted_row fetch now id
                           (webhook_config db (wd_merchant_id d) (wd_env d))
                           (webhook_secret db (wd_merchant_id d) (wd_env d)) d]>) db))
        ∧ (al = alerts db ∨ ∃ a, al = <[alert_id := a]> (alerts db)).
Proof.
  intros Hd Hal. unfold deliverOne, attempted_row.
  cbv [mbind M_bind]. rewrite getMerchantWebhookConfigEnv_run.
  destruct (webhook_config db (wd_merchant_id d) (wd_env d)) as [[webhook_url|] []];
    try (rewrite (markWebhookDeliveryResult_run _ _ _ d) by done;
         exists (alerts db); split; [by destruct db | by left]).
  rewrite getMerchantWebhookSecret_run.
  destruct (webhook_secret db (wd_merchant_id d) (wd_env d)) as [whsec|].
  2:{ rewrite (markWebhookDeliveryResult_run _ _ _ d) by done.
      exists (alerts db). split; [by destruct db | by left]. }
  cbv zeta. fold (webhook_response fetch now webhook_url whsec d).
  destruct (webhook_response fetch now webhook_url whsec d) as [status text|name message].
  - unfold try_catch. fold (response_snippet text). case_decide.
    + rewrite (markWebhookDeliveryResult_run _ _ _ d) by done.
      exists (alerts db). split; [by destruct db | by left].
    + destruct (attempt_failed_run now alert_id id d (Some status)
                  ("HTTP_" +:+ String_of_Z status) (response_snippet text)
                  ("HTTP " +:+ String_of_Z status) db Hd Hal) as (al & -> & Hal').
      eauto.
  - fold (fetch_error name message).
    destruct (attempt_failed_run now alert_id id d None (fetch_error name message) None
                (fetch_error name message) db Hd Hal) as (al & -> & Hal').
    eauto.
Qed.




Lemma deliverAll_cons (fetch : Receiver) now alert_id d batch db :
  deliverAll cfg makeHmac JSON_stringify fetch now alert_id (d :: batch) db
  = match deliverOne cfg makeHmac JSON_stringify fetch now (alert_id d.1) d db with
    | (Ok _, db') => deliverAll cfg makeHmac JSON_stringify fetch now alert_id batch db'
    | (Thrown e, db') => (Thrown e, db')
    end.
Proof. reflexivity. Qed.

(** The loop over a batch of distinct rows of the table attempts each of
    them once and leaves the other rows as they were. *)
Lemma deliverAll_run (fetch : Receiver) now alert_id batch : ∀ db,
  NoDup batch.*1 →
  (∀ id d, (id, d) ∈ batch → webhook_deliveries db !! id = Some d) →
  Inj (=) (=) alert_id →
  (∀ id, id ∈ batch.*1 → alerts db !! alert_id id = None) →
  ∃ db', deliverAll cfg makeHmac JSON_stringify fetch now alert_id batch db = (Ok tt, db')
    ∧ merchants db' = merchants db
    ∧ merchant_credentials db' = merchant_credentials db
    ∧ ∀ id, ((id ∉ batch.*1) ∧ webhook_deliveries db' !! id = webhook_deliveries db !! id)
            ∨ (∃ d, (id, d) ∈ batch
                    ∧ webhook_deliveries db' !! id
                      = Some (attempted_row fetch now id
                                (webhook_config db (wd_merchant_id d) (wd_env d))
                                (webhook_secret db (wd_merchant_id d) (wd_env d)) d)).
Proof.
  induction batch as [|[id0 d0] batch IH]; intros db Hnd Hrows Hinj Hfresh.
  - exists db. split; [done|]. split; [done|]. split; [done|].
    intros id. left. split; [|done]. apply not_elem_of_nil.
  - simpl in Hnd. apply NoDup_cons in Hnd as [Hid0 Hnd].
    destruct (deliverOne_run fetch now (alert_id id0) id0 d0 db) as (al & Hrun & Hal).
    { apply Hrows. left. }
    { apply Hfresh. simpl. left. }
    rewrite deliverAll_cons. simpl fst. rewrite Hrun.
    set (db1 := set_alerts _ _) in *.
    destruct (IH db1) as (db' & Hrest & Hm & Hc & Hall); [done| | done | |].
    { intros id d Hin. unfold db1. simpl.
      rewrite lookup_insert_ne; [apply Hrows; by right|].
      intros ->. apply Hid0. apply list_elem_of_fmap. by exists (id, d). }
    { intros id Hin. unfold db1. simpl.
      assert (alert_id id0 ≠ alert_id id).
      { intros Heq. apply Hinj in Heq as ->. done. }
      destruct Hal as [-> | [a ->]].
      - apply Hfresh. by right.
      - rewrite lookup_insert_ne by done. apply Hfresh. by right. }
    exists db'. split; [done|]. split; [by rewrite Hm|]. split; [by rewrite Hc|].
    intros id. destruct (Hall id) as [[Hnotin Hsame] | (d & Hin & Hrow)].
    + destruct (decide (id = id0)) as [->|Hne].
      * right. exists d0. split; [left|]. rewrite Hsame. unfold db1. simpl.
        apply lookup_insert_eq.
      * left. split.
        -- simpl. rewrite not_elem_of_cons. done.
        -- rewrite Hsame. unfold db1. simpl. by rewrite lookup_insert_ne.
    + right. exists d. split; [by right|]. rewrite Hrow. done.
Qed.






(** C5. When an attempt fails (a response outside [200, 299] or an
    exception of [fetch]) and retries remain, the row stays queued, its
    attempt count [attempt] is one more than before, and its next retry is
    at [now + base * 2 ^ min(10, attempt - 1)]; the base is 60 seconds by
    default, which spaces the first five attempts by 60, 120, 240 and 480
    seconds. *)
Theorem retry_backoff_schedule (fetch : Receiver) now alert_id id d db webhook_url whsec :
  webhook_deliveries db !! id = Some d →
  alerts db !! alert_id = None →
  webhook_config db (wd_merchant_id d) (wd_env d) = (Some webhook_url, true) →
  webhook_secret db (wd_merchant_id d) (wd_env d) = Some whsec →
  (∀ status text, webhook_response fetch now webhook_url whsec d = Responded status text →
                  ¬ (status >= 200 ∧ status < 300)) →
  0 ≤ wd_attempt_count d →
  wd_attempt_count d + 1 < MAX_ATTEMPTS cfg →
  (∃ d', webhook_deliveries
           (deliverOne cfg makeHmac JSON_stringify fetch now alert_id (id, d) db).2 !! id
         = Some d'
         ∧ wd_status d' = queued
         ∧ wd_attempt_count d' = wd_attempt_count d + 1
         ∧ wd_next_retry_at d'
           = now + BASE_BACKOFF_SECONDS cfg * 2 ^ Z.min 10 (wd_attempt_count d' - 1))
  ∧ BASE_BACKOFF_SECONDS default_config = 60
  ∧ backoffSeconds default_config <$> [1; 2; 3; 4] = [60; 120; 240; 480].
Proof.
  intros Hd Hal Hcfg Hsec Hfail Hnonneg Hleft.
  split; [|split; reflexivity].
  destruct (deliverOne_run fetch now alert_id id d db Hd Hal) as (al & -> & _).
  simpl. rewrite lookup_insert_eq. eexists. split; [done|].
  unfold attempted_row. rewrite Hcfg, Hsec.
  assert (Hrow : ∀ status_code error snippet,
            let d' := failed_attempt_row now id d status_code error snippet in
            wd_status d' = queued ∧ wd_attempt_count d' = wd_attempt_count d + 1
            ∧ wd_next_retry_at d'
              = now + BASE_BACKOFF_SECONDS cfg * 2 ^ Z.min 10 (wd_attempt_count d' - 1)).
  { intros status_code error snippet. unfold failed_attempt_row.
    rewrite decide_False by lia. unfold marked, backoffSeconds. simpl.
    split; [done|]. split; [done|]. do 3 f_equal. lia. }
  destruct (webhook_response fetch now webhook_url whsec d) as [status text|name message] eqn:Hresp.
  - rewrite decide_False by (by eapply Hfail). apply Hrow.
  - apply Hrow.
Qed.

End WorkerProperties.

#[local] Instance alert_uuid_inj : Inj (=) (=) alert_uuid.
Proof. unfold alert_uuid. apply _. Qed.

(** Scenario: the receiver answers 500 four times, then 200. The retries
    are scheduled 60, 120, 240 and 480 seconds after the attempts; the fifth
    attempt delivers, and no alert is raised. *)
Example webhook_retry_scenario :
  (λ times, wd_next_retry_at <$>
              webhook_deliveries (run_worker_at recovering_receiver times queued_db) !! "wd1")
    <$> [[0]; [0; 60]; [0; 60; 180]; [0; 60; 180; 420]]
  = [Some 60; Some 180; Some 420; Some 900]
  ∧ (λ d, (wd_status d, wd_attempt_count d, wd_last_status_code d)) <$>
      webhook_deliveries (run_worker_at recovering_receiver [0; 60; 180; 420; 900] queued_db)
        !! "wd1"
    = Some (delivered, 5, Some 200)
  ∧ alerts (run_worker_at recovering_receiver [0; 60; 180; 420; 900] queued_db) = ∅.
Proof. repeat split; vm_compute; reflexivity. Qed.

(** Scenario: the receiver answers 500 to all eight attempts. The delivery
    fails with eight attempts and one alert. *)
Example webhook_permanent_failure_scenario :
  (λ d, (wd_status d, wd_attempt_count d, wd_last_error d)) <$>
    webhook_deliveries
      (run_worker_at failing_receiver [0; 60; 180; 420; 900; 1860; 3780; 7620] queued_db)
      !! "wd1"
  = Some (failed, 8, Some "HTTP_500")
  ∧ al_type <$> alerts
      (run_worker_at failing_receiver [0; 60; 180; 420; 900; 1860; 3780; 7620] queued_db)
      !! "alert-wd1"
    = Some "WEBHOOK_FAILED".
Proof. split; vm_compute; reflexivity. Qed.


Lemma retry_backoff_schedule_witness :
  ∃ d', webhook_deliveries
          (deliverOne default_config checksum_hmac stringify_object failing_receiver 60
             "alert-wd1" ("wd1", first_failure_row)
             (run_worker_at failing_receiver [0] queued_db)).2 !! "wd1" = Some d'
        ∧ wd_status d' = queued
        ∧ wd_attempt_count d' = 2
        ∧ wd_next_retry_at d' = 60 + 60 * 2 ^ Z.min 10 (wd_attempt_count d' - 1).
Proof.
  refine (proj1 (retry_backoff_schedule default_config checksum_hmac stringify_object
                   failing_receiver 60 "alert-wd1" "wd1" first_failure_row
                   (run_worker_at failing_receiver [0] queued_db)
                   "https://merchant.example/hook" "whsec_live" _ _ _ _ _ _ _)).
  - discharge.
  - discharge.
  - discharge.
  - discharge.
  - intros status text [= <- _]. lia.
  - discharge.
  - discharge.
Defined.

(** ** Properties of the IP allow-list *)

(** Removal of the prefix of an IPv4-mapped IPv6 address. *)
Definition unmap_ipv4 (ip : string) : string :=
  if startsWith ip "::ffff:" then slice_from 7 ip else ip.

(** The first value of the header [X-Forwarded-For], trimmed. *)
Definition forwarded_for (req : Request) : string :=
  trim (split_first (or_default (header req "x-forwarded-for") "") ",").

(** The client address that the middleware parses. *)
Definition client_ip (req : Request) : string :=
  unmap_ipv4 (or_default (Some (forwarded_for req)) (or_default (req_ip req) "")).

(** The entries configured for a merchant. *)
Definition configured (db : Db) (merchantId c : string) : Prop :=
  is_Some (merchant_ip_whitelist db !! (merchantId, c)).

Lemma listIpWhitelist_run merchantId db :
  ∃ cidrs, listIpWhitelist merchantId db = (Ok cidrs, db)
           ∧ ∀ c, c ∈ cidrs ↔ configured db merchantId c.
Proof.
  eexists. split; [reflexivity|]. intros c. rewrite order_by_Permutation.
  rewrite list_elem_of_fmap. unfold sql_select_where, configured. split.
  - intros ([[m c'] created_at] & -> & Hin). apply list_elem_of_filter in Hin as [Hm Hin].
    apply elem_of_map_to_list in Hin. simpl in *. subst. eauto.
  - intros [created_at Hc]. exists ((merchantId, c), created_at). split; [done|].
    apply list_elem_of_filter. split; [done|]. by apply elem_of_map_to_list.
Qed.




Section IpWhitelistProperties.

Variable Addr : Type.
Variable parse : string → option Addr.
Variable parseCIDR : string → option (Addr * Z).
Variable addr_match : Addr → Addr → Z → option bool.
Variable toNormalizedString : Addr → string.

#[local] Abbreviation ipWhitelist' :=
  (ipWhitelist Addr parse parseCIDR addr_match toNormalizedString).
#[local] Abbreviation entry_matches' :=
  (entry_matches Addr parse parseCIDR addr_match toNormalizedString).


End IpWhitelistProperties.

(** The first value of [X-Forwarded-For] decides, not the peer address, and
    the prefix of an IPv4-mapped address is dropped. *)
Example forwarded_address_in_range :
  client_ip (request_from "m1" (Some "::ffff:10.1.2.3, 172.16.0.1") (Some "8.8.8.8"))
  = "10.1.2.3"
  ∧ ipv4_whitelist (request_from "m1" (Some "::ffff:10.1.2.3, 172.16.0.1") (Some "8.8.8.8"))
      whitelist_db
    = (Ok Next, whitelist_db).
Proof. split; vm_compute; reflexivity. Qed.

Example peer_address_listed :
  ipv4_whitelist (request_from "m1" None (Some "::ffff:192.168.1.5")) whitelist_db
  = (Ok Next, whitelist_db).
Proof. vm_compute. reflexivity. Qed.

Example address_not_listed :
  ipv4_whitelist (request_from "m1" (Some "10.2.0.1") (Some "10.1.0.1")) whitelist_db
  = (Ok (Respond 403 "IP_NOT_ALLOWED"), whitelist_db).
Proof. vm_compute. reflexivity. Qed.

Example empty_list_rejects :
  ipv4_whitelist (request_from "m3" None (Some "10.1.2.3")) whitelist_db
  = (Ok (Respond 403 "IP_NOT_ALLOWED"), whitelist_db).
Proof. vm_compute. reflexivity. Qed.


(** ** Properties of the QRIS codec *)

(** The check value of CRC-16/X.25. *)
Example crc16_x25_check : crc16_x25 "123456789" = 0x906E.
Proof. vm_compute. reflexivity. Qed.

Example static_payload_valid : validateQris static_payload = true.
Proof. vm_compute. reflexivity. Qed.

Example dynamic_payload_example :
  generateDynamicQris static_payload 10001
  = Some ("000201" +:+ "010212" +:+ "5907WARUNGA" +:+ "540510001" +:+ "5802ID" +:+ "6304" +:+
          hex4 (crc16_x25 ("000201" +:+ "010212" +:+ "5907WARUNGA" +:+ "540510001"
                           +:+ "5802ID" +:+ "6304"))).
Proof. vm_compute. reflexivity. Qed.

Lemma string_app_length (a b : string) :
  String.length (a +:+ b) = (String.length a + String.length b)%nat.
Proof.
  induction a as [|c a IH]; [done|].
  change (S (String.length (a +:+ b)) = S (String.length a + String.length b)).
  by rewrite IH.
Qed.

Lemma string_app_assoc (a b c : string) : (a +:+ b) +:+ c = a +:+ (b +:+ c).
Proof.
  induction a as [|x a IH]; [done|].
  change (String x ((a +:+ b) +:+ c) = String x (a +:+ (b +:+ c))). by rewrite IH.
Qed.

Lemma slice_from_app (a b : string) : slice_from (String.length a) (a +:+ b) = b.
Proof. induction a as [|c a IH]; [by destruct b|]. exact IH. Qed.

Lemma string_take_app (a b : string) : string_take (String.length a) (a +:+ b) = a.
Proof.
  induction a as [|c a IH]; [by destruct b|].
  change (String c (string_take (String.length a) (a +:+ b)) = String c a). by rewrite IH.
Qed.

Lemma string_take_length (n : nat) (s : string) :
  (n ≤ String.length s)%nat → String.length (string_take n s) = n.
Proof.
  revert s. induction n as [|n IH]; intros [|c s] Hle; simpl in *; try done; try lia.
  rewrite IH; [done|lia].
Qed.

Lemma digit_value_range c d : digit_value c = Some d → 0 ≤ d ≤ 9.
Proof.
  unfold digit_value. destruct (_ && _) eqn:Hrange; [|done].
  intros [= <-]. apply andb_true_iff in Hrange as [?%Z.leb_le ?%Z.leb_le]. lia.
Qed.

Lemma digit_value_char d : 0 ≤ d ≤ 9 → digit_value (digit_char d) = Some d.
Proof.
  intros Hd.
  assert (d = 0 ∨ d = 1 ∨ d = 2 ∨ d = 3 ∨ d = 4 ∨ d = 5 ∨ d = 6 ∨ d = 7 ∨ d = 8 ∨ d = 9)
    as Hcases by lia.
  repeat (destruct Hcases as [-> | Hcases]; [reflexivity|]). by subst.
Qed.

(** A record that can be rendered and read back: a tag of two digits and a
    value of at most 99 characters. *)
Definition wf_tlv (r : TLV) : Prop :=
  (∃ t1 t2, r.1 = String t1 (String t2 EmptyString) ∧ is_digit t1 = true ∧ is_digit t2 = true)
  ∧ (String.length r.2 ≤ 99)%nat.

Lemma parse_tlv_cons fuel t1 t2 l1 l2 rest :
  parse_tlv (S fuel) (String t1 (String t2 (String l1 (String l2 rest)))) =
  match digit_value l1, digit_value l2 with
  | Some d1, Some d2 =>
      let len := Z.to_nat (10 * d1 + d2) in
      if is_digit t1 && is_digit t2 && bool_decide (len ≤ String.length rest)%nat then
        records ← parse_tlv fuel (slice_from len rest);
        Some ((String t1 (String t2 EmptyString), string_take len rest) :: records)
      else None
  | _, _ => None
  end.
Proof. reflexivity. Qed.

Lemma render_tlv_cons t1 t2 value records :
  render_tlv ((String t1 (String t2 EmptyString), value) :: records) =
  String t1 (String t2
    (String (digit_char (Z.of_nat (String.length value) / 10))
       (String (digit_char (Z.of_nat (String.length value) mod 10))
          (value +:+ render_tlv records)))).
Proof. reflexivity. Qed.

Lemma render_tlv_app (records1 records2 : list TLV) :
  render_tlv (records1 ++ records2) = render_tlv records1 +:+ render_tlv records2.
Proof.
  induction records1 as [|[tag value] records1 IH]; [done|]. simpl.
  by rewrite IH, !string_app_assoc.
Qed.

(** Round trip: the rendering of well-formed records parses to them. *)
Lemma parse_render (records : list TLV) : ∀ fuel,
  Forall wf_tlv records → (length records ≤ fuel)%nat →
  parse_tlv fuel (render_tlv records) = Some records.
Proof.
  induction records as [|[tag value] records IH]; intros fuel Hwf Hfuel.
  - by destruct fuel.
  - apply Forall_cons in Hwf as [[(t1 & t2 & Htag & Ht1 & Ht2) Hlen] Hwf].
    simpl in Htag, Hlen. subst tag.
    destruct fuel as [|fuel]; [simpl in Hfuel; lia|].
    rewrite render_tlv_cons, parse_tlv_cons.
    rewrite !digit_value_char
      by (split; [apply Z.div_pos || apply Z.mod_pos_bound; lia
                 | apply Z.lt_succ_r; apply Z.div_lt_upper_bound || apply Z.mod_pos_bound; lia]).
    cbv zeta.
    replace (Z.to_nat (10 * (Z.of_nat (String.length value) / 10)
                       + Z.of_nat (String.length value) mod 10))
      with (String.length value)
      by (rewrite <- Z.div_mod by lia; lia).
    rewrite Ht1, Ht2, bool_decide_true by (rewrite string_app_length; lia).
    simpl andb. cbv iota.
    rewrite slice_from_app, string_take_app, IH by (done || simpl in Hfuel; lia).
    done.
Qed.

Lemma parse_tlv_wf fuel : ∀ s records, parse_tlv fuel s = Some records → Forall wf_tlv records.
Proof.
  induction fuel as [|fuel IH]; intros s records Hparse.
  - destruct s as [|? [|? [|? [|? ?]]]]; simplify_eq/=. constructor.
  - destruct s as [|t1 [|t2 [|l1 [|l2 rest]]]]; try (simplify_eq/=; by constructor).
    rewrite parse_tlv_cons in Hparse.
    destruct (digit_value l1) as [d1|] eqn:Hd1; [|done].
    destruct (digit_value l2) as [d2|] eqn:Hd2; [|done].
    cbv zeta in Hparse.
    destruct (is_digit t1) eqn:Ht1; [|done]. destruct (is_digit t2) eqn:Ht2; [|done].
    simpl andb in Hparse. case_bool_decide as Hlen; [|done]. cbv iota in Hparse.
    destruct (parse_tlv fuel _) as [records'|] eqn:Hrest; simplify_eq/=.
    constructor; [|by eapply IH]. split; [by eauto 6|]. simpl.
    rewrite string_take_length by done.
    apply digit_value_range in Hd1, Hd2. lia.
Qed.

Lemma decimal_digits_length fuel : ∀ n acc,
  (String.length (decimal_digits fuel n acc) ≤ fuel + String.length acc)%nat.
Proof.
  induction fuel as [|fuel IH]; intros n acc; simpl; [lia|].
  destruct (n / 10 =? 0); simpl; [lia|].
  etrans; [apply IH|]. simpl. lia.
Qed.

(** [Number.MAX_SAFE_INTEGER]: up to it every integer is a number of
    JavaScript. *)
Definition MAX_SAFE_INTEGER : Z := 9007199254740991.

Lemma String_of_Z_length n :
  0 < n ≤ MAX_SAFE_INTEGER → (String.length (String_of_Z n) ≤ 99)%nat.
Proof.
  intros [Hpos Hmax]. unfold String_of_Z.
  rewrite (proj2 (Z.ltb_ge n 0)) by lia.
  etrans; [apply decimal_digits_length|]. simpl String.length.
  assert (Z.log2 (Z.abs n) < 53); [|lia].
  rewrite Z.abs_eq by lia. apply Z.log2_lt_pow2; [done|].
  unfold MAX_SAFE_INTEGER in Hmax. lia.
Qed.

Lemma wf_tlv_literal t1 t2 value :
  is_digit t1 = true → is_digit t2 = true → (String.length value ≤ 99)%nat →
  wf_tlv (String t1 (String t2 EmptyString), value).
Proof. intros. split; [by eauto 6 | done]. Qed.

Lemma switch_to_dynamic_wf records :
  Forall wf_tlv records → Forall wf_tlv (switch_to_dynamic records).
Proof.
  intros Hwf. unfold switch_to_dynamic. apply Forall_fmap.
  eapply Forall_impl; [done|]. intros r Hr. simpl. case_decide; [|done].
  by apply wf_tlv_literal; [..|simpl; lia].
Qed.

Lemma inject_amount_wf amount records :
  (String.length amount ≤ 99)%nat →
  Forall wf_tlv records → Forall wf_tlv (inject_amount amount records).
Proof.
  intros Hlen Hwf. unfold inject_amount. destruct (has_tag "54" records).
  - apply Forall_fmap. eapply Forall_impl; [done|]. intros r Hr. simpl.
    case_decide; [|done]. by apply wf_tlv_literal.
  - induction Hwf as [|[tag value] records Hr Hwf IH]; simpl.
    + constructor; [|constructor]. by apply wf_tlv_literal.
    + case_decide.
      * constructor; [by apply wf_tlv_literal|]. by constructor.
      * by constructor.
Qed.

Lemma length_le_render records : (length records ≤ String.length (render_tlv records))%nat.
Proof.
  induction records as [|[tag value] records IH]; simpl; [lia|].
  rewrite !string_app_length. simpl. lia.
Qed.

Lemma hex4_length crc : String.length (hex4 crc) = 4%nat.
Proof. reflexivity. Qed.

Lemma hex_digit_upper_upper n :
  0 ≤ n < 16 → upper_ascii (hex_digit_upper n) = hex_digit_upper n.
Proof.
  intros Hn.
  assert (Hcases : n ∈ [0; 1; 2; 3; 4; 5; 6; 7; 8; 9; 10; 11; 12; 13; 14; 15]).
  { rewrite !elem_of_cons. lia. }
  rewrite !elem_of_cons, elem_of_nil in Hcases.
  repeat (destruct Hcases as [->|Hcases]; [reflexivity|]). done.
Qed.

Lemma hex4_upper crc : toUpperCase (hex4 crc) = hex4 crc.
Proof.
  unfold hex4. cbn [toUpperCase].
  assert (Hland : ∀ x, 0 ≤ Z.land x 15 < 16).
  { intros x. change 15 with (Z.ones 4). rewrite Z.land_ones by lia.
    apply Z.mod_pos_bound. lia. }
  by rewrite !hex_digit_upper_upper.
Qed.

(** A payload made of well-formed records, the header [6304] and four
    digits of the CRC of what precedes them is valid. *)
Lemma validateQris_sealed records :
  Forall wf_tlv records →
  validateQris ((render_tlv records +:+ "6304")
                  +:+ hex4 (crc16_x25 (render_tlv records +:+ "6304"))) = true.
Proof.
  intros Hwf. set (payload := render_tlv records +:+ "6304").
  set (crc := hex4 (crc16_x25 payload)).
  assert (Hrender : payload +:+ crc = render_tlv (records ++ [("63", crc)])).
  { rewrite render_tlv_app. unfold payload. rewrite string_app_assoc. done. }
  unfold validateQris, parseQris.
  assert (Hlen : String.length (payload +:+ crc) = (String.length payload + 4)%nat).
  { by rewrite string_app_length. }
  rewrite Hlen.
  replace (String.length payload + 4 - 4)%nat with (String.length payload) by lia.
  rewrite string_take_app.
  rewrite Hrender at 1. rewrite parse_render.
  - rewrite last_snoc. rewrite !bool_decide_true by done. done.
  - apply Forall_app. split; [done|]. constructor; [|constructor].
    by apply wf_tlv_literal; [..|simpl; lia].
  - rewrite <- Hlen, Hrender. apply length_le_render.
Qed.

(** C9 (on the codec modelled from the specification). For a valid static
    payload and a positive integer amount (up to [MAX_SAFE_INTEGER]), the
    dynamic payload is the rendering of the records without tag [63],
    followed by the literal [6304] and the four uppercase hexadecimal digits
    of the CRC-16/X.25 of all that precedes them, and it passes
    validation. *)
Theorem dynamic_qris_validates qris_static amount :
  validateQris qris_static = true →
  0 < amount ≤ MAX_SAFE_INTEGER →
  ∃ records,
    Forall (λ r : TLV, r.1 ≠ "63") records
    ∧ generateDynamicQris qris_static amount
      = Some ((render_tlv records +:+ "6304")
                +:+ hex4 (crc16_x25 (render_tlv records +:+ "6304")))
    ∧ validateQris ((render_tlv records +:+ "6304")
                      +:+ hex4 (crc16_x25 (render_tlv records +:+ "6304"))) = true
    ∧ String.length (hex4 (crc16_x25 (render_tlv records +:+ "6304"))) = 4%nat
    ∧ toUpperCase (hex4 (crc16_x25 (render_tlv records +:+ "6304")))
      = hex4 (crc16_x25 (render_tlv records +:+ "6304")).
Proof.
  intros Hvalid Hamount. unfold validateQris in Hvalid.
  destruct (parseQris qris_static) as [parsed|] eqn:Hparse; [|done]. clear Hvalid.
  pose proof (parse_tlv_wf _ _ _ Hparse) as Hwf.
  set (records := inject_amount (String_of_Z amount)
                    (switch_to_dynamic (filter (λ r : TLV, r.1 ≠ "63") parsed))).
  assert (Hwf' : Forall wf_tlv records).
  { apply inject_amount_wf; [by apply String_of_Z_length|].
    apply switch_to_dynamic_wf. apply Forall_forall.
    intros r [_ Hr]%list_elem_of_filter. revert r Hr. by apply Forall_forall. }
  exists records. split; [|split; [|split; [|split; [done | apply hex4_upper]]]].
  - unfold records, inject_amount, switch_to_dynamic.
    assert (Hno : Forall (λ r : TLV, r.1 ≠ "63")
                    ((λ r : TLV, if decide (r = ("01", "11")) then ("01", "12") else r)
                       <$> filter (λ r : TLV, r.1 ≠ "63") parsed)).
    { apply Forall_fmap, Forall_forall. intros r Hr%list_elem_of_filter. simpl.
      case_decide; [done | tauto]. }
    revert Hno. generalize ((λ r : TLV, if decide (r = ("01", "11")) then ("01", "12") else r)
                              <$> filter (λ r : TLV, r.1 ≠ "63") parsed).
    intros l Hno. destruct (has_tag "54" l).
    + apply Forall_fmap. eapply Forall_impl; [done|]. intros r Hr. simpl.
      by case_decide.
    + induction Hno as [|[tag value] l Hr Hno IH]; simpl.
      * by repeat constructor.
      * case_decide; [by repeat constructor | by constructor].
  - unfold generateDynamicQris. by rewrite Hparse.
  - by apply validateQris_sealed.
Qed.

Lemma dynamic_qris_validates_witness :
  ∃ records,
    Forall (λ r : TLV, r.1 ≠ "63") records
    ∧ generateDynamicQris static_payload 10001
      = Some ((render_tlv records +:+ "6304")
                +:+ hex4 (crc16_x25 (render_tlv records +:+ "6304")))
    ∧ validateQris ((render_tlv records +:+ "6304")
                      +:+ hex4 (crc16_x25 (render_tlv records +:+ "6304"))) = true
    ∧ String.length (hex4 (crc16_x25 (render_tlv records +:+ "6304"))) = 4%nat
    ∧ toUpperCase (hex4 (crc16_x25 (render_tlv records +:+ "6304")))
      = hex4 (crc16_x25 (render_tlv records +:+ "6304")).
Proof.
  apply (dynamic_qris_validates static_payload 10001).
  - vm_compute. reflexivity.
  - unfold MAX_SAFE_INTEGER. lia.
Defined.

(** ** Further properties of the signed-request pipeline *)

(** *** Strings without white space *)

Fixpoint no_space (s : string) : bool :=
  match s with
  | String c s' => negb (Ascii.is_space c) && no_space s'
  | EmptyString => true
  end.

Lemma rev_app_rev_app (s t u : string) :
  String.rev_app (String.rev_app s t) u = String.rev_app t (s +:+ u).
Proof.
  revert t u. induction s as [|c s IH]; intros t u; [done|].
  simpl. by rewrite IH.
Qed.

Lemma string_app_empty (s : string) : s +:+ "" = s.
Proof.
  induction s as [|c s IH]; [done|].
  change (String c (s +:+ "") = String c s). by rewrite IH.
Qed.

Lemma string_rev_involutive (s : string) : String.rev (String.rev s) = s.
Proof. unfold String.rev. rewrite rev_app_rev_app. apply string_app_empty. Qed.

Lemma no_space_rev_app (s t : string) :
  no_space s = true → no_space t = true → no_space (String.rev_app s t) = true.
Proof.
  revert t. induction s as [|c s IH]; intros t Hs Ht; [done|].
  simpl in *. apply andb_true_iff in Hs as [Hc Hs]. apply IH; [done|].
  simpl. by rewrite Hc.
Qed.

Lemma trimStart_no_space (s : string) : no_space s = true → trimStart s = s.
Proof.
  destruct s as [|c s]; [done|]. simpl. intros [Hc _]%andb_true_iff.
  by destruct (Ascii.is_space c).
Qed.

Lemma trim_no_space (s : string) : no_space s = true → trim s = s.
Proof.
  intros Hs. unfold trim. rewrite (trimStart_no_space s) by done.
  rewrite trimStart_no_space by (by apply no_space_rev_app).
  apply string_rev_involutive.
Qed.

Lemma digit_char_no_space d : 0 ≤ d < 10 → Ascii.is_space (digit_char d) = false.
Proof.
  intros Hd.
  assert (Hcases : d ∈ [0; 1; 2; 3; 4; 5; 6; 7; 8; 9]) by (rewrite !elem_of_cons; lia).
  rewrite !elem_of_cons, elem_of_nil in Hcases.
  repeat (destruct Hcases as [->|Hcases]; [reflexivity|]). done.
Qed.

Lemma decimal_digits_no_space fuel : ∀ n acc,
  0 ≤ n → no_space acc = true → no_space (decimal_digits fuel n acc) = true.
Proof.
  induction fuel as [|fuel IH]; intros n acc Hn Hacc; [done|].
  assert (Hstep : no_space (String (digit_char (n mod 10)) acc) = true).
  { simpl. rewrite digit_char_no_space by (apply Z.mod_pos_bound; lia). done. }
  simpl. destruct (n / 10 =? 0); [done|].
  apply IH; [|done]. apply Z.div_pos; lia.
Qed.

Lemma decimal_digits_non_empty fuel n acc :
  acc ≠ "" ∨ fuel ≠ 0%nat → decimal_digits fuel n acc ≠ "".
Proof.
  revert n acc. induction fuel as [|fuel IH]; intros n acc Hne; simpl.
  - destruct Hne; done.
  - destruct (n / 10 =? 0); [done|]. apply IH. by left.
Qed.

(** The decimal rendering of a natural number is not empty and has no
    white space: trimming leaves it as it is. *)
Lemma String_of_Z_trim n : 0 ≤ n → trim (String_of_Z n) = String_of_Z n ∧ String_of_Z n ≠ "".
Proof.
  intros Hn. unfold String_of_Z. rewrite (proj2 (Z.ltb_ge n 0)) by lia. split.
  - apply trim_no_space. by apply decimal_digits_no_space.
  - apply decimal_digits_non_empty. by right.
Qed.

(** *** Comparison of hexadecimal signatures *)

Lemma string_pair_ind (P : string → Prop) :
  P "" → (∀ a, P (String a "")) → (∀ a b s, P s → P (String a (String b s))) → ∀ s, P s.
Proof.
  intros H0 H1 H2 s.
  assert (H : P s ∧ ∀ a, P (String a s)); [|by destruct H].
  induction s as [|b s [IH1 IH2]]; [by split|]. split; [apply IH2|].
  intros a. by apply H2.
Qed.

(** A string made of pairs of hexadecimal digits. *)
Fixpoint hex_pairs (s : string) : bool :=
  match s with
  | EmptyString => true
  | String a (String b s') =>
      bool_decide (is_Some (hex_value a)) && bool_decide (is_Some (hex_value b)) && hex_pairs s'
  | String _ EmptyString => false
  end.

Lemma hex_value_upper c : hex_value (upper_ascii c) = hex_value c.
Proof. destruct c as [[] [] [] [] [] [] [] []]; reflexivity. Qed.

Lemma buffer_from_hex_upper s : buffer_from_hex (toUpperCase s) = buffer_from_hex s.
Proof.
  induction s as [|a|a b s IH] using string_pair_ind; [done..|].
  cbn [toUpperCase buffer_from_hex]. rewrite !hex_value_upper, IH. done.
Qed.

Lemma buffer_from_hex_app a t :
  hex_pairs a = true → buffer_from_hex (a +:+ t) = buffer_from_hex a ++ buffer_from_hex t.
Proof.
  induction a as [|c|c d a IH] using string_pair_ind; [done..|].
  cbn [hex_pairs]. rewrite !andb_true_iff, !bool_decide_eq_true.
  intros [[[h Hc] [l Hd]] Ha].
  change (String c (String d a) +:+ t) with (String c (String d (a +:+ t))).
  cbn [buffer_from_hex]. rewrite Hc, Hd, IH by done. done.
Qed.

Lemma buffer_from_hex_junk c rest : hex_value c = None → buffer_from_hex (String c rest) = [].
Proof. intros Hc. destruct rest; simpl; [done|]. by rewrite Hc. Qed.

Lemma timingSafeEqualHex_true a b :
  timingSafeEqualHex a b = true ↔ buffer_from_hex a = buffer_from_hex b.
Proof.
  unfold timingSafeEqualHex. case_decide as Hlen.
  - split; [done|]. intros Heq. by rewrite Heq in Hlen.
  - apply bool_decide_eq_true.
Qed.

(** X1. Two signatures compare equal exactly when they decode to the same
    bytes: the letter case of the digits does not matter, and whatever
    follows the first character that is not a hexadecimal digit is
    ignored. *)
Theorem timingSafeEqualHex_compares_decoded_bytes a b :
  (timingSafeEqualHex a b = true ↔ buffer_from_hex a = buffer_from_hex b)
  ∧ timingSafeEqualHex (toUpperCase a) a = true
  ∧ (∀ c rest, hex_pairs a = true → hex_value c = None →
       timingSafeEqualHex (a +:+ String c rest) a = true)
  ∧ (∀ c rest, hex_value c = None → timingSafeEqualHex (String c rest) "" = true).
Proof.
  split; [apply timingSafeEqualHex_true|]. split; [|split].
  - apply timingSafeEqualHex_true, buffer_from_hex_upper.
  - intros c rest Ha Hc. apply timingSafeEqualHex_true.
    rewrite buffer_from_hex_app, buffer_from_hex_junk by done. apply app_nil_r.
  - intros c rest Hc. apply timingSafeEqualHex_true. by rewrite buffer_from_hex_junk.
Qed.

(** *** The canonical string *)

Definition line_feed : Ascii.ascii := Ascii.ascii_of_N 10.

Fixpoint no_newline (s : string) : bool :=
  match s with
  | String c s' => negb (bool_decide (c = line_feed)) && no_newline s'
  | EmptyString => true
  end.

(** The parts of the canonical string of a request. *)
Definition canonical_method (req : Request) : string :=
  toUpperCase (or_default (Some (req_method req)) "GET").

Definition canonical_path (req : Request) : string :=
  or_default (Some (req_originalUrl req)) (or_default (Some (req_url req)) "/").

Definition canonical_body (req : Request) : string :=
  match req_rawBody req with Some b => b | None => "" end.

Lemma line_split_inj (a a' r r' : string) :
  no_newline a = true → no_newline a' = true →
  a +:+ newline +:+ r = a' +:+ newline +:+ r' → a = a' ∧ r = r'.
Proof.
  revert a'. induction a as [|c a IH]; intros [|c' a'] Ha Ha' Heq.
  - by injection Heq.
  - injection Heq as Hc _. simpl in Ha'. rewrite <- Hc in Ha'.
    by rewrite bool_decide_true in Ha' by done.
  - injection Heq as Hc _. simpl in Ha. rewrite Hc in Ha.
    by rewrite bool_decide_true in Ha by done.
  - injection Heq as -> Heq. simpl in Ha, Ha'.
    apply andb_true_iff in Ha as [_ Ha]. apply andb_true_iff in Ha' as [_ Ha'].
    destruct (IH a' Ha Ha' Heq) as [-> ->]. done.
Qed.

(** X2. The canonical string is unambiguous: when the method, the path, the
    timestamp and the nonce of two requests hold no line feed, the two
    canonical strings are equal only if the requests agree on the
    upper-cased method, the path, the timestamp, the nonce and the body. *)
Theorem canonicalString_unambiguous r1 r2 t1 t2 n1 n2 :
  no_newline (canonical_method r1) = true → no_newline (canonical_method r2) = true →
  no_newline (canonical_path r1) = true → no_newline (canonical_path r2) = true →
  no_newline t1 = true → no_newline t2 = true →
  no_newline n1 = true → no_newline n2 = true →
  canonicalString r1 t1 n1 = canonicalString r2 t2 n2 →
  canonical_method r1 = canonical_method r2 ∧ canonical_path r1 = canonical_path r2
  ∧ t1 = t2 ∧ n1 = n2 ∧ canonical_body r1 = canonical_body r2.
Proof.
  intros Hm1 Hm2 Hp1 Hp2 Ht1 Ht2 Hn1 Hn2 Heq. unfold canonicalString in Heq.
  fold (canonical_method r1) (canonical_method r2) (canonical_path r1) (canonical_path r2)
       (canonical_body r1) (canonical_body r2) in Heq.
  apply line_split_inj in Heq as [Hm Heq]; [|done..].
  apply line_split_inj in Heq as [Hp Heq]; [|done..].
  apply line_split_inj in Heq as [Ht Heq]; [|done..].
  apply line_split_inj in Heq as [Hn Heq]; [|done..].
  done.
Qed.

Lemma canonicalString_unambiguous_witness :
  canonical_method signed_request = canonical_method unsigned_request
  ∧ canonical_path signed_request = canonical_path unsigned_request
  ∧ "1000" = "1000" ∧ "n1" = "n1"
  ∧ canonical_body signed_request = canonical_body unsigned_request.
Proof.
  apply (canonicalString_unambiguous signed_request unsigned_request "1000" "1000" "n1" "n1");
    reflexivity.
Defined.

(** *** The nonce store *)

(** X3. Marking a nonce and asking for it: the nonce of a merchant that
    has a row (the table references [merchants]) is reported used exactly
    until its expiry time ([now < expiresAt]), the
    row is dropped by the question once it has expired, the answers for
    other nonces are what they were, and an empty merchant or nonce is
    reported used without a look at the table. *)
Theorem nonce_used_until_expiry now merchantId nonce expiresAt db :
  merchantId ≠ "" → nonce ≠ "" →
  merchant_exists db merchantId →
  (isNonceUsed now merchantId nonce (markNonceUsed merchantId nonce expiresAt db).2).1
    = Ok (bool_decide (now < expiresAt))
  ∧ (expiresAt ≤ now →
     used_nonces (isNonceUsed now merchantId nonce
                    (markNonceUsed merchantId nonce expiresAt db).2).2
       !! (merchantId, nonce) = None)
  ∧ (∀ merchantId' nonce', (merchantId', nonce') ≠ (merchantId, nonce) →
       (isNonceUsed now merchantId' nonce' (markNonceUsed merchantId nonce expiresAt db).2).1
       = (isNonceUsed now merchantId' nonce' db).1)
  ∧ (∀ db', isNonceUsed now "" nonce db' = (Ok true, db')
            ∧ isNonceUsed now merchantId "" db' = (Ok true, db')).
Proof.
  intros Hm Hn Hrow.
  assert (Hrun : ∀ m n db',
            m ≠ "" → n ≠ "" →
            isNonceUsed now m n db'
            = (Ok (match used_nonces (purge_nonces now db') !! (m, n) with
                   | Some e => bool_decide (e > now)
                   | None => false
                   end), purge_nonces now db')).
  { intros m n db' ? ?. unfold isNonceUsed. by rewrite decide_False by tauto. }
  set (db1 := (markNonceUsed merchantId nonce expiresAt db).2).
  assert (Hdb1 : used_nonces db1 = <[(merchantId, nonce) := expiresAt]> (used_nonces db))
    by reflexivity.
  split; [|split; [|split]].
  - rewrite Hrun by done. cbn [fst]. rewrite purge_nonces_lookup, Hdb1, lookup_insert_eq.
    case_decide.
    + by rewrite !bool_decide_true by lia.
    + by rewrite bool_decide_false by lia.
  - intros Hexp. rewrite Hrun by done. cbn [snd].
    rewrite purge_nonces_lookup, Hdb1, lookup_insert_eq. by rewrite decide_False by lia.
  - intros m' n' Hne. unfold isNonceUsed. case_decide; [done|].
    cbv [mbind M_bind mret M_ret modify_db get_db fst].
    fold (purge_nonces now db1). fold (purge_nonces now db).
    rewrite !purge_nonces_lookup, Hdb1. by rewrite lookup_insert_ne.
  - intros db'. unfold isNonceUsed. split; by rewrite decide_True by tauto.
Qed.

Lemma nonce_used_until_expiry_witness :
  (isNonceUsed 1119 "m1" "n1" (markNonceUsed "m1" "n1" 1120 signing_db).2).1
  = Ok (bool_decide (1119 < 1120)).
Proof.
  refine (proj1 (nonce_used_until_expiry 1119 "m1" "n1" 1120 signing_db _ _ _)).
  - discriminate.
  - discriminate.
  - vm_compute. eexists. reflexivity.
Defined.

(** *** Replays over the whole life of a nonce *)

Section ReplayProperties.

Variable makeHmac : string → string → string.
Variable Number : string → option Z.

#[local] Abbreviation requireSignedRequest' := (requireSignedRequest makeHmac Number).

(** What the acceptance of a request tells about it. *)
Lemma accepted_request W ttl now req db db' :
  requireSignedRequest' W ttl now req db = (Ok Next, db') →
  ∃ merchantId ts secret,
    non_empty (req_merchantId req) = Some merchantId
    ∧ x_timestamp req ≠ "" ∧ x_nonce req ≠ "" ∧ x_signature req ≠ ""
    ∧ Number (x_timestamp req) = Some ts ∧ 0 < ts ∧ Z.abs (now - ts) ≤ W
    ∧ used_nonces (purge_nonces now db) !! (merchantId, x_nonce req) = None
    ∧ signing_secret db merchantId (default production (req_gwEnv req)) = Some secret
    ∧ timingSafeEqualHex
        (makeHmac secret (canonicalString req (x_timestamp req) (x_nonce req)))
        (x_signature req) = true
    ∧ db' = set_used_nonces (<[(merchantId, x_nonce req) := now + ttl]>) (purge_nonces now db).
Proof.
  rewrite requireSignedRequest_unfold. intros Hrun.
  destruct (non_empty (req_merchantId req)) as [merchantId|]; [|done].
  case_decide as Hhdr; [done|].
  destruct (Number (x_timestamp req)) as [ts|]; [|done].
  case_decide; [done|]. case_decide; [done|].
  destruct (used_nonces (purge_nonces now db) !! (merchantId, x_nonce req)) eqn:Hnonce; [done|].
  destruct (signing_secret db merchantId _) as [secret|] eqn:Hsec; [|done].
  destruct (timingSafeEqualHex _ _) eqn:Hsig; [|done].
  injection Hrun as <-. exists merchantId, ts, secret.
  repeat split; try done; try lia; tauto.
Qed.


(** X5. When the life of a nonce is at most twice the window
    ([NONCE_TTL <= 2 * W], as with the defaults 120 and 60), a replay can
    be accepted: a request of a merchant that has a row, whose timestamp
    is still in the window when its nonce expires, is accepted again at
    that time, on the database that its first acceptance left. *)
Theorem replay_accepted_once_nonce_expired W ttl t1 req db0 db1 ts merchantId :
  0 ≤ ttl →
  non_empty (req_merchantId req) = Some merchantId →
  merchant_exists db0 merchantId →
  Number (x_timestamp req) = Some ts →
  Z.abs (t1 + ttl - ts) ≤ W →
  requireSignedRequest' W ttl t1 req db0 = (Ok Next, db1) →
  ∃ db2, requireSignedRequest' W ttl (t1 + ttl) req db1 = (Ok Next, db2).
Proof.
  intros Httl Hmerchant Hrow Hts Hwin Hacc.
  apply accepted_request in Hacc
    as (m & ts' & secret & Hm & Ht & Hn & Hs & Hts' & Hpos & _ & _ & Hsec & Hsig & ->).
  rewrite Hts in Hts'. injection Hts' as <-.
  rewrite requireSignedRequest_unfold, Hm, Hts.
  rewrite decide_False by tauto. rewrite (decide_False (P := ts ≤ 0)) by lia.
  rewrite (decide_False (P := Z.abs (t1 + ttl - ts) > W)) by lia.
  rewrite purge_nonces_lookup. cbn [used_nonces set_used_nonces].
  rewrite lookup_insert_eq. rewrite decide_False by lia.
  change (signing_secret (set_used_nonces _ (purge_nonces t1 db0)) m
            (default production (req_gwEnv req)))
    with (signing_secret db0 m (default production (req_gwEnv req))).
  rewrite Hsec, Hsig. eauto.
Qed.

End ReplayProperties.


(** With the defaults (a window of 60 seconds, a nonce life of 120), the
    request stamped 1000 that was accepted at 940 is accepted again at
    1060. *)
Lemma replay_accepted_once_nonce_expired_witness :
  ∃ db2, requireSignedRequest checksum_hmac Number_decimal 60 120 (940 + 120) signed_request
           (set_used_nonces (λ _, {[ ("m1", "n1") := 1060 ]}) signing_db) = (Ok Next, db2).
Proof.
  apply (replay_accepted_once_nonce_expired checksum_hmac Number_decimal 60 120 940
           signed_request signing_db
           (set_used_nonces (λ _, {[ ("m1", "n1") := 1060 ]}) signing_db) 1000 "m1").
  - lia.
  - reflexivity.
  - vm_compute. eexists. reflexivity.
  - vm_compute. reflexivity.
  - vm_compute. discriminate.
  - vm_compute. reflexivity.
Defined.

(** *** From the client-side signer to the middleware *)

(** A digest in hexadecimal: digits only, and at least one. *)
Fixpoint hex_digits (s : string) : bool :=
  match s with
  | String c s' => bool_decide (is_Some (hex_value c)) && hex_digits s'
  | EmptyString => true
  end.

Definition hex_digest (s : string) : Prop := s ≠ "" ∧ hex_digits s = true.

Lemma hex_value_no_space c : is_Some (hex_value c) → Ascii.is_space c = false.
Proof. destruct c as [[] [] [] [] [] [] [] []]; intros [h Hh]; done. Qed.

Lemma hex_digits_no_space s : hex_digits s = true → no_space s = true.
Proof.
  induction s as [|c s IH]; [done|]. simpl.
  intros [Hc Hs]%andb_true_iff. apply bool_decide_eq_true in Hc.
  by rewrite hex_value_no_space, IH.
Qed.

Lemma upper_ascii_idemp c : upper_ascii (upper_ascii c) = upper_ascii c.
Proof. destruct c as [[] [] [] [] [] [] [] []]; reflexivity. Qed.

Lemma toUpperCase_idemp s : toUpperCase (toUpperCase s) = toUpperCase s.
Proof. induction s as [|c s IH]; [done|]. simpl. by rewrite upper_ascii_idemp, IH. Qed.

Lemma toUpperCase_non_empty s : s ≠ "" → toUpperCase s ≠ "".
Proof. by destruct s. Qed.

Lemma or_default_non_empty x d : d ≠ "" → or_default x d ≠ "".
Proof. intros Hd. unfold or_default. destruct x; [case_decide|]; done. Qed.

Lemma or_default_Some s d : s ≠ "" → or_default (Some s) d = s.
Proof. intros Hs. unfold or_default. by rewrite decide_False. Qed.

(** The request that the server receives when the client sends what
    [signGatewayRequest] returned: the method it named, the path and the
    body that were signed, and the signed headers; [merchantId] and [env]
    are what the API key stands for. *)
Definition received (merchantId : string) (env : option Env) (method : option string)
    (out : Client.SignedRequest) : Request :=
  mkRequest (Some merchantId) env (or_default method "GET") (Client.pathWithQuery out)
    (Client.pathWithQuery out) (Some (Client.bodyRaw out)) (list_to_map (Client.headers out))
    None None ∅.

Section ClientServer.

Variable makeHmac : string → string → string.
Variable Number : string → option Z.
Variable JSON_stringify : list (string * json) → string.
Variable URL_pathname_search : string → option string.

(** X6. A request signed by the client helper is accepted by the
    middleware: when the digests are hexadecimal, the merchant has a row
    and the API secret is its signing secret, the timestamp is positive, read back by
    [Number] and within the window, and the nonce is not empty, has no
    white space and is not in use, the middleware calls [next()] and
    records the nonce for [nonceTtlSeconds]. *)
Theorem signed_client_request_is_accepted W ttl now db merchantId env apiKey apiSecret method
    urlOrPath body timestamp nonce out :
  (∀ secret data, hex_digest (makeHmac secret data)) →
  Client.signGatewayRequest makeHmac JSON_stringify URL_pathname_search apiKey apiSecret method
    urlOrPath body timestamp nonce = Ok out →
  merchantId ≠ "" →
  merchant_exists db merchantId →
  signing_secret db merchantId (default production env) = Some apiSecret →
  Number (String_of_Z timestamp) = Some timestamp →
  0 < timestamp → Z.abs (now - timestamp) ≤ W →
  nonce ≠ "" → no_space nonce = true →
  ¬ nonce_live now db merchantId nonce →
  requireSignedRequest makeHmac Number W ttl now (received merchantId env method out) db
  = (Ok Next, set_used_nonces (<[(merchantId, nonce) := now + ttl]>) (purge_nonces now db)).
Proof.
  intros Hhex Hsign Hm Hrow Hsec Hnum Hpos Hwin Hn Hnsp Hfree.
  unfold Client.signGatewayRequest in Hsign.
  case_decide as Hkey; [done|]. case_decide as Hsecret; [done|].
  set (m := toUpperCase (or_default method "GET")) in *.
  set (path := if startsWith _ "/" then _ else _) in *.
  set (raw := match body with Client.BodyString s => s | _ => _ end) in *.
  set (sig := makeHmac apiSecret _) in *.
  injection Hsign as <-.
  set (req := received _ _ _ _).
  assert (Hpath : path ≠ "").
  { unfold path. destruct (startsWith _ "/") eqn:Hs; [|done]. by intros Heq; rewrite Heq in Hs. }
  destruct (String_of_Z_trim timestamp) as [Htrim Hne]; [lia|].
  destruct (Hhex apiSecret
              (Client.canonicalString (Some m) path timestamp nonce raw)) as [Hsig Hdigits].
  fold sig in Hsig, Hdigits.
  assert (Hts : x_timestamp req = String_of_Z timestamp).
  { unfold x_timestamp, header, req, received. cbn [req_headers Client.headers app].
    rewrite !list_to_map_cons, lookup_insert_ne, lookup_insert_eq by done.
    by rewrite or_default_Some. }
  assert (Hnonce : x_nonce req = nonce).
  { unfold x_nonce, header, req, received. cbn [req_headers Client.headers app].
    rewrite !list_to_map_cons. do 2 rewrite lookup_insert_ne by done. rewrite lookup_insert_eq.
    rewrite or_default_Some by done. by apply trim_no_space. }
  assert (Hsigh : x_signature req = sig).
  { unfold x_signature, header, req, received. cbn [req_headers Client.headers app].
    rewrite !list_to_map_cons. do 3 rewrite lookup_insert_ne by done. rewrite lookup_insert_eq.
    rewrite or_default_Some by done. by apply trim_no_space, hex_digits_no_space. }
  assert (Hcanon : canonicalString req (x_timestamp req) (x_nonce req)
                   = Client.canonicalString (Some m) path timestamp nonce raw).
  { rewrite Hts, Hnonce. unfold canonicalString, Client.canonicalString, req, received.
    cbn [req_method req_originalUrl req_url req_rawBody Client.pathWithQuery Client.bodyRaw].
    assert (Hmethod : or_default method "GET" ≠ "") by (by apply or_default_non_empty).
    rewrite (or_default_Some (or_default method "GET")) by done.
    rewrite (or_default_Some m) by (by apply toUpperCase_non_empty).
    unfold m. rewrite toUpperCase_idemp.
    rewrite !(or_default_Some path) by done.
    assert (or_default (Some raw) "" = raw) as ->; [|done].
    unfold or_default. by destruct (decide (raw = "")) as [->|]. }
  rewrite requireSignedRequest_unfold. fold req.
  assert (non_empty (req_merchantId req) = Some merchantId) as ->
    by (by apply non_empty_Some).
  rewrite Hcanon, Hts, Hnonce, Hsigh, Hnum.
  rewrite decide_False by tauto. rewrite (decide_False (P := timestamp ≤ 0)) by lia.
  rewrite (decide_False (P := Z.abs (now - timestamp) > W)) by lia.
  rewrite purge_nonces_lookup.
  assert (match used_nonces db !! (merchantId, nonce) with
          | Some e => if decide (now < e) then Some e else None
          | None => None
          end = None) as ->.
  { destruct (used_nonces db !! (merchantId, nonce)) as [e|] eqn:He; [|done].
    case_decide; [|done]. exfalso. apply Hfree. by exists e. }
  change (req_gwEnv req) with env. rewrite Hsec. fold sig.
  by rewrite (proj2 (timingSafeEqualHex_true sig sig)).
Qed.

End ClientServer.

Lemma hex_digit_lower_hex d : 0 ≤ d < 16 → is_Some (hex_value (hex_digit_lower d)).
Proof.
  intros Hd.
  assert (Hcases : d ∈ [0; 1; 2; 3; 4; 5; 6; 7; 8; 9; 10; 11; 12; 13; 14; 15])
    by (rewrite !elem_of_cons; lia).
  rewrite !elem_of_cons, elem_of_nil in Hcases.
  repeat (destruct Hcases as [->|Hcases]; [by eexists|]). done.
Qed.

Lemma checksum_hmac_hex secret data : hex_digest (checksum_hmac secret data).
Proof.
  unfold checksum_hmac, hex_digest. cbv zeta.
  set (n := (byte_sum secret + byte_sum data) mod 256).
  assert (0 ≤ n < 256) by (apply Z.mod_pos_bound; lia).
  split; [done|]. cbn [hex_digits].
  rewrite !bool_decide_true; [done| |].
  - apply hex_digit_lower_hex, Z.mod_pos_bound. lia.
  - apply hex_digit_lower_hex. split; [apply Z.div_pos; lia|].
    apply Z.div_lt_upper_bound; lia.
Qed.

(** A client signs a POST of an object body for merchant [m1]. *)
Lemma signed_client_request_is_accepted_witness :
  requireSignedRequest checksum_hmac Number_decimal 60 120 1010
    (received "m1" None (Some "post")
       (Client.mkSigned
          [("x-api-key", "sk_live_1"); ("x-timestamp", "1000"); ("x-nonce", "a1b2");
           ("x-signature",
            checksum_hmac "sksec_live"
              (Client.canonicalString (Some "POST") "/api/v1/gw/invoices" 1000 "a1b2"
                 (stringify_object [("amount", JNum 10000)])));
           ("content-type", "application/json")]
          (stringify_object [("amount", JNum 10000)]) "/api/v1/gw/invoices"))
    signing_db
  = (Ok Next, set_used_nonces (<[("m1", "a1b2") := 1010 + 120]>) (purge_nonces 1010 signing_db)).
Proof.
  apply (signed_client_request_is_accepted checksum_hmac Number_decimal stringify_object
           (λ _, None) 60 120 1010 signing_db "m1" None "sk_live_1" "sksec_live"
           (Some "post") "api/v1/gw/invoices" (Client.BodyObject [("amount", JNum 10000)])
           1000 "a1b2").
  - apply checksum_hmac_hex.
  - vm_compute. reflexivity.
  - discriminate.
  - vm_compute. eexists. reflexivity.
  - vm_compute. reflexivity.
  - vm_compute. reflexivity.
  - lia.
  - lia.
  - discriminate.
  - reflexivity.
  - intros (e & He & _). vm_compute in He. discriminate.
Defined.

(** ** Properties of invoice creation *)

(** The database after [cleanupExpired]. *)
Definition cleaned (now : Z) (db : Db) : Db := (cleanupExpired now db).2.

Lemma cleaned_pending now db id :
  pending_transactions (cleaned now db) !! id =
  match pending_transactions db !! id with
  | Some p => if decide (pt_expires_at p < now) then None else Some p
  | None => None
  end.
Proof.
  unfold cleaned, cleanupExpired. cbv [mbind M_bind modify_db snd].
  cbn [pending_transactions set_paid_transactions set_pending_transactions].
  rewrite sql_delete_where_lookup. done.
Qed.

Lemma cleaned_tables now db :
  invoices (cleaned now db) = invoices db
  ∧ invoice_events (cleaned now db) = invoice_events db
  ∧ webhook_deliveries (cleaned now db) = webhook_deliveries db
  ∧ merchants (cleaned now db) = merchants db
  ∧ used_nonces (cleaned now db) = used_nonces db.
Proof. done. Qed.

Lemma getAvailableSuffix_run now username db :
  getAvailableSuffix now username db
  = ((getAvailableSuffix now username db).1, cleaned now db).
Proof.
  unfold cleaned.
  cbv [getAvailableSuffix cleanupExpired modify_db get_db throw mbind M_bind mret M_ret fst snd].
  destruct (first_unused _ (seqZ 1 500)); [done|].
  destruct (first_unused _ (seqZ 501 499)); done.
Qed.

(** A suffix that [getAvailableSuffix] returns is one of 1..999 that no
    unexpired pending transaction of the principal holds. *)
Lemma getAvailableSuffix_Ok now username db suffix :
  (getAvailableSuffix now username db).1 = Ok suffix →
  1 ≤ suffix ≤ 999 ∧ ¬ claimed now username db suffix.
Proof.
  rewrite getAvailableSuffix_result. cbv zeta.
  set (usedSet := list_to_set _ : gset Z).
  assert (Hused : ∀ s, s ∈ usedSet ↔ claimed now username db s)
    by (intros s; apply usedSet_claimed).
  destruct (first_unused usedSet (seqZ 1 500)) as [i|] eqn:H1.
  - intros [= <-]. apply first_unused_Some in H1 as (Hi & Hni & _).
    split; [lia|]. by rewrite <- Hused.
  - destruct (first_unused usedSet (seqZ 501 499)) as [i|] eqn:H2; [|done].
    intros [= <-]. apply first_unused_Some in H2 as (Hi & Hni & _).
    split; [lia|]. by rewrite <- Hused.
Qed.

Lemma createPendingTransaction_run id tx db :
  pending_transactions db !! id = None →
  (∀ id' p, pending_transactions db !! id' = Some p →
            pt_username p = pt_username tx → pt_unique_suffix p ≠ pt_unique_suffix tx) →
  createPendingTransaction id tx db = (Ok tt, set_pending_transactions (<[id := tx]>) db).
Proof.
  intros Hid Hfree. unfold createPendingTransaction, sql_insert.
  cbv [mbind M_bind mret M_ret get_db modify_db].
  destruct (sql_select_where _ _) as [|[id' p] rows] eqn:Hrows.
  - by rewrite Hid.
  - exfalso. assert (Hin : (id', p) ∈ (id', p) :: rows) by left.
    rewrite <- Hrows in Hin. unfold sql_select_where in Hin.
    apply list_elem_of_filter in Hin as [[Hu Hs] Hin]. apply elem_of_map_to_list in Hin.
    by apply (Hfree id' p).
Qed.


Lemma references_merchant_run merchantId db :
  merchant_exists db merchantId → references_merchant merchantId db = (Ok tt, db).
Proof.
  intros Hm. unfold references_merchant. cbv [mbind M_bind mret M_ret get_db].
  by rewrite decide_True.
Qed.

Section InvoiceProperties.

Variable cfg : Config.
Variable JSON_stringify_value : json → string.
Variable lib_generateDynamicQris : string → Z → result string.

#[local] Abbreviation createInvoice' :=
  (createInvoice cfg JSON_stringify_value lib_generateDynamicQris).

(** The rows written for an invoice. *)
Definition created_pending (now : Z) (req : Request) (baseAmount suffix : Z) (qrisString : string)
    : PendingTransaction :=
  mkPending (String_of (req_body req !! "username")) baseAmount suffix (baseAmount + suffix)
    qrisString now (now + EXPIRY_SECONDS cfg).

Definition created_invoice (now : Z) (merchantId : string) (req : Request)
    (baseAmount suffix : Z) (qrisString : string) : Invoice :=
  mkInvoice merchantId (default production (req_gwEnv req))
    (String_of (req_body req !! "username"))
    (if truthy (req_body req !! "reference_id")
     then Some (String_of (req_body req !! "reference_id")) else None)
    baseAmount suffix (baseAmount + suffix) pending qrisString now (now + EXPIRY_SECONDS cfg)
    None
    (if truthy (req_body req !! "metadata")
     then JSON_stringify_value <$> req_body req !! "metadata" else None).

Definition created_event (now : Z) (invoiceId merchantId : string) (req : Request)
    (baseAmount suffix : Z) : InvoiceEvent :=
  mkEvent invoiceId merchantId "payment.created"
    [("invoice_id", JStr invoiceId);
     ("reference_id", default JNull (req_body req !! "reference_id"));
     ("amount", JNum baseAmount); ("final_amount", JNum (baseAmount + suffix))] now.

Definition created_delivery (now : Z) (invoiceId merchantId : string) (req : Request)
    (baseAmount suffix : Z) : WebhookDelivery :=
  mkDelivery merchantId (default production (req_gwEnv req)) (Some invoiceId) "payment.created"
    [("event_type", JStr "payment.created"); ("invoice_id", JStr invoiceId);
     ("reference_id", default JNull (req_body req !! "reference_id"));
     ("base_amount", JNum baseAmount); ("final_amount", JNum (baseAmount + suffix));
     ("created_at", JNum now)]
    queued 0 now None None None now now.

(** The database after the creation of an invoice. *)
Definition db_after_creation (now : Z) (invoiceId event_id delivery_id merchantId : string)
    (req : Request) (baseAmount suffix : Z) (qrisString : string) (db : Db) : Db :=
  let db1 := set_pending_transactions
               (<[invoiceId := created_pending now req baseAmount suffix qrisString]>)
               (cleaned now db) in
  let db2 := set_invoices
               (<[invoiceId := created_invoice now merchantId req baseAmount suffix qrisString]>)
               db1 in
  let db3 := set_invoice_events
               (<[event_id := created_event now invoiceId merchantId req baseAmount suffix]>)
               db2 in
  set_webhook_deliveries
    (λ t, if webhook_on (webhook_config db merchantId (default production (req_gwEnv req)))
          then <[delivery_id := created_delivery now invoiceId merchantId req baseAmount suffix]> t
          else t) db3.

(** A request that names a merchant and the four parameters, with an
    amount that [parseInt] reads as [baseAmount > 0], small enough for the
    sum with a suffix to be exact in the numbers of the code. *)
Definition creation_request (req : Request) (merchantId : string) (baseAmount : Z) : Prop :=
  req_method req = "POST"
  ∧ non_empty (req_merchantId req) = Some merchantId
  ∧ truthy (req_body req !! "username") = true
  ∧ truthy (req_body req !! "token") = true
  ∧ truthy (req_body req !! "amount") = true
  ∧ truthy (req_body req !! "qris_static") = true
  ∧ parseInt (String_of (req_body req !! "amount")) = Some baseAmount
  ∧ 0 < baseAmount ≤ MAX_SAFE_INTEGER - 999.

Lemma createInvoice_run now invoiceId event_id delivery_id req db merchantId baseAmount suffix
    qrisString :
  creation_request req merchantId baseAmount →
  merchant_exists db merchantId →
  (getAvailableSuffix now (String_of (req_body req !! "username")) db).1 = Ok suffix →
  lib_generateDynamicQris (String_of (req_body req !! "qris_static")) (baseAmount + suffix)
    = Ok qrisString →
  pending_transactions (cleaned now db) !! invoiceId = None →
  invoices db !! invoiceId = None →
  invoice_events db !! event_id = None →
  webhook_deliveries db !! delivery_id = None →
  createInvoice' now invoiceId event_id delivery_id req db
  = (Ok (Success [("invoice_id", JStr invoiceId);
                  ("reference_id", default JNull (req_body req !! "reference_id"));
                  ("base_amount", JNum baseAmount); ("unique_suffix", JNum suffix);
                  ("final_amount", JNum (baseAmount + suffix));
                  ("qris_string", JStr qrisString); ("status", JStr "pending");
                  ("expires_at", JNum (now + EXPIRY_SECONDS cfg))]),
     db_after_creation now invoiceId event_id delivery_id merchantId req baseAmount suffix
       qrisString db).
Proof.
  intros (Hpost & Hm & Hu & Ht & Ha & Hq & Hamount & Hpos & Hsafe) Hrow Hsuffix Hqris Hpend Hinv Hev Hwd.
  unfold createInvoice. rewrite decide_False by (by rewrite Hpost; intros []).
  rewrite Hm, Hu, Ht, Ha, Hq, Hamount. cbv [negb orb].
  rewrite decide_False by lia.
  cbv [mbind M_bind]. rewrite getAvailableSuffix_run, Hsuffix, Hqris.
  rewrite createPendingTransaction_run; [|done|].
  2:{ intros id' p Hp Hpu Hps. apply getAvailableSuffix_Ok in Hsuffix as [_ Hfree].
      apply Hfree. rewrite cleaned_pending in Hp.
      destruct (pending_transactions db !! id') as [p'|] eqn:Hp'; [|done].
      case_decide; simplify_eq. exists id', p. repeat split; try done. lia. }
  unfold createInvoiceRecord, sql_insert.
  cbv [mbind M_bind mret M_ret get_db modify_db].
  cbn [invoices set_pending_transactions].
  destruct (cleaned_tables now db) as (Hci & Hce & Hcw & Hcm & _). rewrite Hci, Hinv.
  rewrite references_merchant_run by done.
  rewrite notify_run by done.
  unfold db_after_creation, created_pending, created_invoice, created_event, created_delivery.
  done.
Qed.






(** The smallest suffix of 1..500 that is not claimed is the one
    returned. *)
Lemma getAvailableSuffix_smallest now username db s :
  1 ≤ s ≤ 500 → ¬ claimed now username db s →
  (∀ j, 1 ≤ j < s → claimed now username db j) →
  (getAvailableSuffix now username db).1 = Ok s.
Proof.
  intros Hs Hfree Hbelow. rewrite getAvailableSuffix_result. cbv zeta.
  set (usedSet := list_to_set _ : gset Z).
  assert (Hused : ∀ s, s ∈ usedSet ↔ claimed now username db s)
    by (intros s'; apply usedSet_claimed).
  assert (first_unused usedSet (seqZ 1 500) = Some s) as ->; [|done].
  apply first_unused_Some. split; [lia|]. split; [by rewrite Hused|].
  intros j Hj. by apply Hused, Hbelow.
Qed.

(** X9. Final amounts are not unique across base amounts: when a principal
    without claims creates an invoice for [baseAmount + 1] and then, before
    it expires, one for [baseAmount] (each for a merchant that has a row),
    the first gets suffix 1 and the second suffix 2, and both are payable
    by the same amount [baseAmount + 2]. *)
Theorem final_amounts_can_coincide now1 now2 id1 id2 ev1 ev2 wd1 wd2 req1 req2 db
    merchantId1 merchantId2 baseAmount qris1 qris2 :
  creation_request req1 merchantId1 (baseAmount + 1) →
  creation_request req2 merchantId2 baseAmount →
  merchant_exists db merchantId1 → merchant_exists db merchantId2 →
  String_of (req_body req2 !! "username") = String_of (req_body req1 !! "username") →
  (∀ s, ¬ claimed now1 (String_of (req_body req1 !! "username")) db s) →
  now1 ≤ now2 ≤ now1 + EXPIRY_SECONDS cfg →
  lib_generateDynamicQris (String_of (req_body req1 !! "qris_static")) (baseAmount + 1 + 1)
    = Ok qris1 →
  lib_generateDynamicQris (String_of (req_body req2 !! "qris_static")) (baseAmount + 2)
    = Ok qris2 →
  id1 ≠ id2 → ev1 ≠ ev2 → wd1 ≠ wd2 →
  pending_transactions db !! id1 = None → pending_transactions db !! id2 = None →
  invoices db !! id1 = None → invoices db !! id2 = None →
  invoice_events db !! ev1 = None → invoice_events db !! ev2 = None →
  webhook_deliveries db !! wd1 = None → webhook_deliveries db !! wd2 = None →
  let r1 := createInvoice' now1 id1 ev1 wd1 req1 db in
  let r2 := createInvoice' now2 id2 ev2 wd2 req2 r1.2 in
  (∃ p1 p2, pending_transactions r2.2 !! id1 = Some p1
            ∧ pending_transactions r2.2 !! id2 = Some p2
            ∧ pt_username p1 = pt_username p2
            ∧ pt_base_amount p1 = baseAmount + 1 ∧ pt_unique_suffix p1 = 1
            ∧ pt_base_amount p2 = baseAmount ∧ pt_unique_suffix p2 = 2
            ∧ pt_final_amount p1 = baseAmount + 2 ∧ pt_final_amount p2 = baseAmount + 2)
  ∧ (∃ inv1 inv2, invoices r2.2 !! id1 = Some inv1 ∧ invoices r2.2 !! id2 = Some inv2
                  ∧ inv_status inv1 = pending ∧ inv_status inv2 = pending
                  ∧ inv_final_amount inv1 = inv_final_amount inv2).
Proof.
  intros Hreq1 Hreq2 Hrow1 Hrow2 Huser Hnone Hnow Hq1 Hq2 Hid Hev Hwd Hp1 Hp2 Hi1 Hi2 He1 He2 Hw1 Hw2 r1 r2.
  set (u := String_of (req_body req1 !! "username")) in *.
  assert (Hs1 : (getAvailableSuffix now1 u db).1 = Ok 1).
  { apply getAvailableSuffix_smallest; [lia | apply Hnone | intros j Hj; lia]. }
  assert (Hr1 : r1 = (r1.1, db_after_creation now1 id1 ev1 wd1 merchantId1 req1
                              (baseAmount + 1) 1 qris1 db)).
  { unfold r1. rewrite (createInvoice_run _ _ _ _ _ _ merchantId1 (baseAmount + 1) 1 qris1);
      [done..| by rewrite cleaned_pending, Hp1 | done | done | done]. }
  set (db1 := db_after_creation _ _ _ _ _ _ _ _ _ db) in Hr1.
  assert (Hdb1 : r1.2 = db1) by (by rewrite Hr1).
  assert (Hpend1 : ∀ id, pending_transactions db1 !! id
            = if decide (id = id1)
              then Some (created_pending now1 req1 (baseAmount + 1) 1 qris1)
              else pending_transactions (cleaned now1 db) !! id).
  { intros id. unfold db1, db_after_creation.
    cbn [pending_transactions set_webhook_deliveries set_invoice_events set_invoices
         set_pending_transactions].
    case_decide as Hc; [subst; apply lookup_insert_eq | by rewrite lookup_insert_ne]. }
  assert (Hclaim : ∀ s, claimed now2 u db1 s ↔ s = 1).
  { intros s. split.
    - intros (id & p & Hp & Hpu & Hlive & Hps). rewrite Hpend1 in Hp.
      case_decide; [by simplify_eq|]. exfalso.
      rewrite cleaned_pending in Hp.
      destruct (pending_transactions db !! id) as [p'|] eqn:Hp'; [|done].
      case_decide; simplify_eq. apply (Hnone (pt_unique_suffix p)).
      exists id, p. repeat split; try done. lia.
    - intros ->. exists id1, (created_pending now1 req1 (baseAmount + 1) 1 qris1).
      rewrite Hpend1, decide_True by done. repeat split; simpl; lia. }
  assert (Hs2 : (getAvailableSuffix now2 (String_of (req_body req2 !! "username")) db1).1
                = Ok 2).
  { rewrite Huser. apply getAvailableSuffix_smallest; [lia | by rewrite Hclaim |].
    intros j Hj. apply Hclaim. lia. }
  assert (Hr2 : r2 = (r2.1, db_after_creation now2 id2 ev2 wd2 merchantId2 req2
                              baseAmount 2 qris2 db1)).
  { unfold r2. rewrite Hdb1.
    rewrite (createInvoice_run _ _ _ _ _ _ merchantId2 baseAmount 2 qris2); [done..| | | |].
    - rewrite cleaned_pending, Hpend1, decide_False by done.
      rewrite cleaned_pending, Hp2. done.
    - unfold db1, db_after_creation.
      cbn [invoices set_webhook_deliveries set_invoice_events set_invoices].
      by rewrite lookup_insert_ne.
    - unfold db1, db_after_creation.
      cbn [invoice_events set_webhook_deliveries set_invoice_events].
      by rewrite lookup_insert_ne.
    - unfold db1, db_after_creation.
      cbn [webhook_deliveries set_webhook_deliveries set_invoice_events set_invoices
           set_pending_transactions].
      destruct (cleaned_tables now1 db) as (_ & _ & -> & _).
      destruct (webhook_on _); [by rewrite lookup_insert_ne | done]. }
  rewrite Hr2. cbn [snd]. unfold db_after_creation at 1 2 3 4.
  cbn [pending_transactions invoices set_webhook_deliveries set_invoice_events set_invoices
       set_pending_transactions].
  split.
  - exists (created_pending now1 req1 (baseAmount + 1) 1 qris1),
           (created_pending now2 req2 baseAmount 2 qris2).
    split; [|split; [apply lookup_insert_eq|]].
    + rewrite lookup_insert_ne by done. rewrite cleaned_pending, Hpend1, decide_True by done.
      rewrite decide_False; [done|]. simpl. lia.
    + simpl. repeat split; try done; lia.
  - exists (created_invoice now1 merchantId1 req1 (baseAmount + 1) 1 qris1),
           (created_invoice now2 merchantId2 req2 baseAmount 2 qris2).
    split; [|split; [apply lookup_insert_eq|]].
    + rewrite lookup_insert_ne by done.
      destruct (cleaned_tables now2 db1) as (-> & _).
      unfold db1, db_after_creation.
      cbn [invoices set_webhook_deliveries set_invoice_events set_invoices].
      apply lookup_insert_eq.
    + simpl. repeat split; try done; lia.
Qed.

End InvoiceProperties.




(** Principal [merchantA] has no claim; merchant [m1] creates an invoice
    for 10001 and merchant [m2] one for 10000: both are payable by 10002. *)
Lemma final_amounts_can_coincide_witness :
  ∃ inv1 inv2,
    invoices (example_createInvoice 1250 "inv2" "ev2" "wd2" (create_request "m2" (JNum 10000))
                (example_createInvoice 1200 "inv1" "ev1" "wd1"
                   (create_request "m1" (JNum 10001))
                   (mkDb ∅ ∅ ∅ ∅ ∅ ∅ ∅ example_merchants ∅ ∅)).2).2 !! "inv1" = Some inv1
    ∧ invoices (example_createInvoice 1250 "inv2" "ev2" "wd2" (create_request "m2" (JNum 10000))
                  (example_createInvoice 1200 "inv1" "ev1" "wd1"
                     (create_request "m1" (JNum 10001))
                     (mkDb ∅ ∅ ∅ ∅ ∅ ∅ ∅ example_merchants ∅ ∅)).2).2 !! "inv2" = Some inv2
    ∧ inv_status inv1 = pending ∧ inv_status inv2 = pending
    ∧ inv_final_amount inv1 = inv_final_amount inv2.
Proof.
  refine (proj2 (final_amounts_can_coincide default_config stringify_value example_generator
                   1200 1250 "inv1" "inv2" "ev1" "ev2" "wd1" "wd2"
                   (create_request "m1" (JNum 10001)) (create_request "m2" (JNum 10000))
                   (mkDb ∅ ∅ ∅ ∅ ∅ ∅ ∅ example_merchants ∅ ∅) "m1" "m2" 10000
                   (default "" (generateDynamicQris static_payload 10002))
                   (default "" (generateDynamicQris static_payload 10002))
                   _ _ _ _ _ _ _ _ _ _ _ _ _ _ _ _ _ _ _ _)).
  - repeat split; discharge.
  - repeat split; discharge.
  - vm_compute. eexists. reflexivity.
  - vm_compute. eexists. reflexivity.
  - reflexivity.
  - intros s (id & p & Hp & _). discriminate Hp.
  - simpl. lia.
  - vm_compute. reflexivity.
  - vm_compute. reflexivity.
  - discriminate.
  - discriminate.
  - discriminate.
  - reflexivity.
  - reflexivity.
  - reflexivity.
  - reflexivity.
  - reflexivity.
  - reflexivity.
  - reflexivity.
  - reflexivity.
Defined.

(** ** Further properties of the check endpoint *)

(** A check request that names its merchant and the two credentials. *)
Definition check_request_ok (req : Request) (merchantId : string) : Prop :=
  req_method req = "POST"
  ∧ non_empty (req_merchantId req) = Some merchantId
  ∧ truthy (req_body req !! "username") = true
  ∧ truthy (req_body req !! "token") = true.

(** The steps of [checkInvoice] up to the look at the paid cache. *)
Lemma checkInvoice_owned cfg now event_id delivery_id getQrisHistory req db merchantId :
  check_request_ok req merchantId →
  checkInvoice cfg now event_id delivery_id getQrisHistory req db =
  match invoices db !! checked_invoice req with
  | Some inv =>
      if decide (inv_merchant_id inv = merchantId) then
        match paid_transactions db !! checked_invoice req with
        | Some paidTx =>
            if decide (inv_status inv ≠ paid) then
              checkInvoice cfg now event_id delivery_id getQrisHistory req db
            else
              (Ok (Success [("status", JStr "paid");
                            ("final_amount", JNum (paid_final_amount paidTx));
                            ("paid_at", JNum (paid_paid_at paidTx))]), db)
        | None =>
            match pending_transactions db !! checked_invoice req with
            | None =>
                (Ok (Success [("status", JStr (if decide (inv_status inv = expired)
                                               then "expired" else "not_found"))]), db)
            | Some p => checkInvoice cfg now event_id delivery_id getQrisHistory req db
            end
        end
      else (Ok (ErrorResponse 404 "NOT_FOUND"), db)
  | None => (Ok (ErrorResponse 404 "NOT_FOUND"), db)
  end.
Proof.
  intros (Hpost & Hm & Hu & Ht).
  destruct (invoices db !! checked_invoice req) as [inv|] eqn:Hinv.
  2:{ unfold checkInvoice. fold (checked_invoice req).
      rewrite decide_False by (by rewrite Hpost; intros []).
      rewrite Hm, Hu, Ht. unfold getInvoiceById.
      cbv [negb orb mbind M_bind mret M_ret get_db]. by rewrite Hinv. }
  case_decide as Hown.
  2:{ unfold checkInvoice. fold (checked_invoice req).
      rewrite decide_False by (by rewrite Hpost; intros []).
      rewrite Hm, Hu, Ht. unfold getInvoiceById.
      cbv [negb orb mbind M_bind mret M_ret get_db]. rewrite Hinv.
      rewrite non_empty_Some by (by apply non_empty_inv in Hm as [? _]).
      by rewrite decide_False. }
  destruct (paid_transactions db !! checked_invoice req) as [paidTx|] eqn:Hpaid.
  - case_decide as Hst; [done|].
    unfold checkInvoice. fold (checked_invoice req).
    rewrite decide_False by (by rewrite Hpost; intros []).
    rewrite Hm, Hu, Ht. unfold getInvoiceById, getPaidTransaction.
    cbv [negb orb mbind M_bind mret M_ret get_db]. rewrite Hinv.
    rewrite non_empty_Some by (by apply non_empty_inv in Hm as [? _]).
    rewrite decide_True by done. rewrite Hpaid.
    rewrite (decide_False (P := inv_status inv ≠ paid)) by (intros Hne; by apply Hne). done.
  - destruct (pending_transactions db !! checked_invoice req) as [p|] eqn:Hpend; [done|].
    unfold checkInvoice. fold (checked_invoice req).
    rewrite decide_False by (by rewrite Hpost; intros []).
    rewrite Hm, Hu, Ht. unfold getInvoiceById, getPaidTransaction, getPendingTransaction.
    cbv [negb orb mbind M_bind mret M_ret get_db]. rewrite Hinv.
    rewrite non_empty_Some by (by apply non_empty_inv in Hm as [? _]).
    rewrite decide_True by done. by rewrite Hpaid, Hpend.
Qed.






(** X12. Invoices are scoped to their merchant: a check, a read or a
    listing of events by another merchant finds nothing and writes nothing,
    and the listing of a merchant holds only its own invoices, at most
    [limit] of them. *)
Theorem invoices_are_scoped_to_their_merchant cfg now event_id delivery_id getQrisHistory req db
    merchantId inv :
  check_request_ok req merchantId →
  invoices db !! checked_invoice req = Some inv →
  inv_merchant_id inv ≠ merchantId →
  checkInvoice cfg now event_id delivery_id getQrisHistory req db
    = (Ok (ErrorResponse 404 "NOT_FOUND"), db)
  ∧ getInvoice req db = (Ok (ReplyError 404 "NOT_FOUND"), db)
  ∧ (∃ items, listEvents req db = (Ok (ReplyOk items), db)
              ∧ (length items ≤ 100)%nat
              ∧ ∀ id ev, (id, ev) ∈ items →
                  invoice_events db !! id = Some ev ∧ ev_merchant_id ev = merchantId
                  ∧ ev_invoice_id ev = checked_invoice req)
  ∧ (∀ limit offset,
       ∃ items, listInvoices merchantId limit offset db = (Ok items, db)
                ∧ (length items ≤ limit)%nat
                ∧ (∀ id inv', (id, inv') ∈ items →
                     invoices db !! id = Some inv' ∧ inv_merchant_id inv' = merchantId)
                ∧ (checked_invoice req ∉ items.*1)).
Proof.
  intros Hreq Hinv Hown. pose proof Hreq as (Hpost & Hm & Hu & Ht).
  split; [|split; [|split]].
  - rewrite (checkInvoice_owned _ _ _ _ _ _ _ merchantId) by done.
    by rewrite Hinv, decide_False.
  - unfold getInvoice. rewrite Hm. fold (checked_invoice req). unfold getInvoiceById.
    cbv [mbind M_bind mret M_ret get_db]. rewrite Hinv.
    rewrite non_empty_Some by (by apply non_empty_inv in Hm as [? _]).
    by rewrite decide_False.
  - unfold listEvents. rewrite Hm. fold (checked_invoice req). unfold listInvoiceEvents.
    cbv [mbind M_bind mret M_ret get_db]. eexists. split; [done|]. split.
    + rewrite length_take. lia.
    + intros id ev Hin. apply subseteq_take in Hin. rewrite order_by_Permutation in Hin.
      unfold sql_select_where in Hin. apply list_elem_of_filter in Hin as [[Hi Hmm] Hin].
      apply elem_of_map_to_list in Hin. done.
  - intros limit offset. unfold listInvoices.
    cbv [mbind M_bind mret M_ret get_db]. eexists. split; [done|].
    assert (Hrows : ∀ id inv',
              (id, inv') ∈ take limit (drop offset
                 (order_by (λ kv1 kv2 : string * Invoice,
                              bool_decide (inv_created_at kv2.2 < inv_created_at kv1.2))
                    (sql_select_where (λ kv, inv_merchant_id kv.2 = merchantId) (invoices db)))) →
              invoices db !! id = Some inv' ∧ inv_merchant_id inv' = merchantId).
    { intros id inv' Hin. apply subseteq_take in Hin. apply subseteq_drop in Hin.
      rewrite order_by_Permutation in Hin. unfold sql_select_where in Hin.
      apply list_elem_of_filter in Hin as [Hmm Hin]. apply elem_of_map_to_list in Hin. done. }
    split; [rewrite length_take; lia|]. split; [done|].
    intros Hin. apply list_elem_of_fmap in Hin as ([id inv'] & Hid & Hin). simpl in Hid.
    subst id. apply Hrows in Hin as [Hinv' Hmm]. rewrite Hinv in Hinv'. by simplify_eq.
Qed.

Lemma check_request_example merchantId :
  merchantId ≠ "" → check_request_ok (check_request merchantId) merchantId.
Proof. intros Hm. split; [done|]. split; [by apply non_empty_Some|]. by split. Qed.



(** Merchant [m2] asks for the invoice of merchant [m1]. *)
Lemma invoices_are_scoped_to_their_merchant_witness :
  checkInvoice default_config 1200 "ev1" "wd1" upstream_with_credit (check_request "m2")
    (in_flight_db "m1")
  = (Ok (ErrorResponse 404 "NOT_FOUND"), in_flight_db "m1").
Proof.
  refine (proj1 (invoices_are_scoped_to_their_merchant default_config 1200 "ev1" "wd1"
                   upstream_with_credit (check_request "m2") (in_flight_db "m1") "m2"
                   (example_invoice "m1" pending None) _ _ _)).
  - by apply check_request_example.
  - reflexivity.
  - discriminate.
Defined.


Section CreateThenCheck.

Variable cfg : Config.
Variable JSON_stringify_value : json → string.
Variable lib_generateDynamicQris : string → Z → result string.


End CreateThenCheck.


(** ** Further properties of the webhook worker *)

Lemma marked_attempt now input d :
  wd_attempt_count (marked now input d) = wd_attempt_count d + 1
  ∧ wd_updated_at (marked now input d) = now
  ∧ wd_merchant_id (marked now input d) = wd_merchant_id d
  ∧ wd_payload (marked now input d) = wd_payload d.
Proof.
  unfold marked. destruct (res_delivered input); [done|].
  by destruct (res_next_retry_at input).
Qed.

Section WorkerRuns.

Variable cfg : Config.
Variable makeHmac : string → string → string.
Variable JSON_stringify : list (string * json) → string.

#[local] Abbreviation Receiver := (string → list (string * string) → string → FetchResult).

Lemma attempted_row_attempt (fetch : Receiver) now id whCfg whsec d :
  wd_attempt_count (attempted_row cfg makeHmac JSON_stringify fetch now id whCfg whsec d)
    = wd_attempt_count d + 1
  ∧ wd_updated_at (attempted_row cfg makeHmac JSON_stringify fetch now id whCfg whsec d) = now.
Proof.
  unfold attempted_row, failed_attempt_row.
  repeat (case_match || case_decide);
    match goal with |- context [marked ?n ?i ?d] =>
      destruct (marked_attempt n i d) as (? & ? & _) end; done.
Qed.

(** X14. One run of the worker attempts each delivery of its batch exactly
    once: the batch holds at most 20 rows, all of them queued and due; the
    attempt count of each goes up by one; every other row, and so every
    delivered or failed row, is left as it was; no row is added or removed;
    and when at most 20 rows are due, all of them are in the batch. *)
Theorem worker_run_attempts_each_due_delivery_once (fetch : Receiver) now alert_id db :
  Inj (=) (=) alert_id →
  (∀ id, alerts db !! alert_id id = None) →
  ∃ db', runWebhookWorkerOnce cfg makeHmac JSON_stringify fetch now alert_id db
         = (Ok (length (due_batch now 20 db)), db')
    ∧ (length (due_batch now 20 db) ≤ 20)%nat
    ∧ (∀ id d, webhook_deliveries db !! id = Some d →
         ∃ d', webhook_deliveries db' !! id = Some d'
               ∧ ((id, d) ∈ due_batch now 20 db
                  ∧ wd_status d = queued ∧ wd_next_retry_at d ≤ now
                  ∧ wd_attempt_count d' = wd_attempt_count d + 1 ∧ wd_updated_at d' = now
                  ∨ (id ∉ (due_batch now 20 db).*1) ∧ d' = d))
    ∧ (∀ id, webhook_deliveries db !! id = None → webhook_deliveries db' !! id = None)
    ∧ ((length (sql_select_where
                  (λ kv, wd_status kv.2 = queued ∧ (wd_next_retry_at kv.2 ≤ now)%Z)
                  (webhook_deliveries db)) ≤ 20)%nat →
       ∀ id d, webhook_deliveries db !! id = Some d →
               wd_status d = queued → wd_next_retry_at d ≤ now →
               (id, d) ∈ due_batch now 20 db).
Proof.
  intros Hinj Hfresh.
  destruct (deliverAll_run cfg makeHmac JSON_stringify fetch now alert_id
              (due_batch now 20 db) db) as (db' & Hall & _ & _ & Hrows).
  { apply due_batch_NoDup. }
  { intros id d Hin. by apply due_batch_elem in Hin as [? _]. }
  { done. }
  { intros id _. apply Hfresh. }
  exists db'. split.
  { unfold runWebhookWorkerOnce. cbv [mbind M_bind mret M_ret].
    rewrite getDueWebhookDeliveries_run, Hall. done. }
  split; [unfold due_batch; rewrite length_take; lia|]. split; [|split].
  - intros id d Hd. destruct (Hrows id) as [[Hnotin Hsame] | (d0 & Hin & Hrow)].
    + exists d. rewrite Hsame. split; [done|]. by right.
    + pose proof (due_batch_elem _ _ _ _ _ Hin) as (Hd0 & Hq & Hdue).
      rewrite Hd in Hd0. injection Hd0 as <-.
      eexists. split; [done|]. left.
      destruct (attempted_row_attempt fetch now id
                  (webhook_config db (wd_merchant_id d) (wd_env d))
                  (webhook_secret db (wd_merchant_id d) (wd_env d)) d) as [Hcount Hupd].
      done.
  - intros id Hnone. destruct (Hrows id) as [[Hnotin Hsame] | (d0 & Hin & Hrow)].
    + by rewrite Hsame.
    + apply due_batch_elem in Hin as (Hd0 & _). by rewrite Hnone in Hd0.
  - intros Hfew id d Hd Hq Hdue. unfold due_batch.
    rewrite take_ge by (by rewrite order_by_Permutation).
    rewrite order_by_Permutation. unfold sql_select_where.
    apply list_elem_of_filter. split; [done|]. by apply elem_of_map_to_list.
Qed.

(** X15. A delivery whose merchant has no usable webhook (disabled, or
    without a URL) or no webhook secret fails for good at its first
    attempt: the row becomes [failed] with the reason WEBHOOK_DISABLED or
    MISSING_CREDENTIALS, whatever the number of attempts that were left;
    the receiver is not called, and no alert is raised. *)
Theorem delivery_without_configuration_fails_for_good (fetch : Receiver) now alert_id id d db :
  webhook_deliveries db !! id = Some d →
  webhook_on (webhook_config db (wd_merchant_id d) (wd_env d)) = false
  ∨ webhook_secret db (wd_merchant_id d) (wd_env d) = None →
  ∃ d', deliverOne cfg makeHmac JSON_stringify fetch now alert_id (id, d) db
        = (Ok tt, set_webhook_deliveries (<[id := d']>) db)
    ∧ wd_status d' = failed
    ∧ wd_attempt_count d' = wd_attempt_count d + 1
    ∧ wd_last_error d'
      = Some (if webhook_on (webhook_config db (wd_merchant_id d) (wd_env d))
              then "MISSING_CREDENTIALS" else "WEBHOOK_DISABLED")
    ∧ wd_last_status_code d' = None
    ∧ (∀ fetch' : Receiver,
         deliverOne cfg makeHmac JSON_stringify fetch' now alert_id (id, d) db
         = deliverOne cfg makeHmac JSON_stringify fetch now alert_id (id, d) db).
Proof.
  intros Hd Hoff. unfold deliverOne. cbv [mbind M_bind].
  rewrite getMerchantWebhookConfigEnv_run.
  assert (Hdisabled : ∀ reason,
            let d' := marked now (mkResult id false None (Some reason) None RetryNull) d in
            wd_status d' = failed ∧ wd_attempt_count d' = wd_attempt_count d + 1
            ∧ wd_last_error d' = Some reason ∧ wd_last_status_code d' = None) by done.
  destruct (webhook_config db (wd_merchant_id d) (wd_env d)) as [[webhook_url|] []] eqn:Hcfg;
    try (rewrite (markWebhookDeliveryResult_run _ _ _ d) by done;
         eexists; split; [done|]; destruct (Hdisabled "WEBHOOK_DISABLED") as (? & ? & ? & ?);
         done).
  destruct Hoff as [Hoff|Hnone]; [done|].
  rewrite getMerchantWebhookSecret_run, Hnone.
  rewrite (markWebhookDeliveryResult_run _ _ _ d) by done.
  eexists. split; [done|]. destruct (Hdisabled "MISSING_CREDENTIALS") as (? & ? & ? & ?).
  done.
Qed.

(** Why an attempt did not deliver: the HTTP status outside [200, 299], or
    the error of [fetch]; [None] when it delivered. *)
Definition attempt_reason (fetch : Receiver) (now : Z) (webhook_url whsec : string)
    (d : WebhookDelivery) : option string :=
  match webhook_response makeHmac JSON_stringify fetch now webhook_url whsec d with
  | Responded status text =>
      if decide (status >= 200 ∧ status < 300) then None
      else Some ("HTTP " +:+ String_of_Z status)
  | Failed name message => Some (fetch_error name message)
  end.

(** X16. With a webhook and a secret configured, an alert is raised
    exactly when the attempt does not deliver and was the last one allowed
    ([attempt_count + 1 >= MAX_ATTEMPTS]): the row is then [failed] and the
    alert, of type WEBHOOK_FAILED, names the merchant; in every other case
    the table of alerts is left as it was, and a response in [200, 299]
    delivers whatever the attempt count. *)
Theorem alert_raised_exactly_on_last_failed_attempt (fetch : Receiver) now alert_id id d db
    webhook_url whsec :
  webhook_deliveries db !! id = Some d →
  alerts db !! alert_id = None →
  webhook_config db (wd_merchant_id d) (wd_env d) = (Some webhook_url, true) →
  webhook_secret db (wd_merchant_id d) (wd_env d) = Some whsec →
  let r := deliverOne cfg makeHmac JSON_stringify fetch now alert_id (id, d) db in
  r.1 = Ok tt
  ∧ (∀ reason,
       attempt_reason fetch now webhook_url whsec d = Some reason →
       wd_attempt_count d + 1 >= MAX_ATTEMPTS cfg →
       alerts r.2 = <[alert_id := mkAlert (Some (wd_merchant_id d)) "WEBHOOK_FAILED"
                                     ("Webhook failed permanently for event "
                                        +:+ wd_event_type d +:+ " (" +:+ reason +:+ ")")
                                     now None]> (alerts db)
       ∧ wd_status <$> webhook_deliveries r.2 !! id = Some failed)
  ∧ (∀ reason,
       attempt_reason fetch now webhook_url whsec d = Some reason →
       ¬ wd_attempt_count d + 1 >= MAX_ATTEMPTS cfg →
       alerts r.2 = alerts db ∧ wd_status <$> webhook_deliveries r.2 !! id = Some queued)
  ∧ (attempt_reason fetch now webhook_url whsec d = None →
     alerts r.2 = alerts db ∧ wd_status <$> webhook_deliveries r.2 !! id = Some delivered).
Proof.
  intros Hd Hal Hcfg Hsec r.
  assert (Hfail : ∀ status_code error snippet reason,
            let r' := attempt_failed cfg now alert_id id d status_code error snippet reason db in
            r'.1 = Ok tt
            ∧ (wd_attempt_count d + 1 >= MAX_ATTEMPTS cfg →
               alerts r'.2 = <[alert_id := mkAlert (Some (wd_merchant_id d)) "WEBHOOK_FAILED"
                                              ("Webhook failed permanently for event "
                                                 +:+ wd_event_type d +:+ " (" +:+ reason +:+ ")")
                                              now None]> (alerts db)
               ∧ wd_status <$> webhook_deliveries r'.2 !! id = Some failed)
            ∧ (¬ wd_attempt_count d + 1 >= MAX_ATTEMPTS cfg →
               alerts r'.2 = alerts db
               ∧ wd_status <$> webhook_deliveries r'.2 !! id = Some queued)).
  { intros status_code error snippet reason. unfold attempt_failed. case_decide as Hlast.
    - cbv [mbind M_bind]. rewrite (markWebhookDeliveryResult_run _ _ _ d) by done.
      unfold createAlert, sql_insert. cbv [mbind M_bind mret M_ret get_db modify_db].
      cbn [alerts set_webhook_deliveries]. rewrite Hal. cbn [fst snd].
      split; [done|]. split; [|done]. intros _. split; [done|].
      cbn [webhook_deliveries set_alerts set_webhook_deliveries].
      by rewrite lookup_insert_eq.
    - rewrite (markWebhookDeliveryResult_run _ _ _ d) by done. cbn [fst snd].
      split; [done|]. split; [done|]. intros _. split; [done|].
      cbn [webhook_deliveries set_webhook_deliveries]. by rewrite lookup_insert_eq. }
  unfold r, deliverOne, attempt_reason. cbv [mbind M_bind].
  rewrite getMerchantWebhookConfigEnv_run, Hcfg, getMerchantWebhookSecret_run, Hsec.
  cbv zeta. fold (webhook_response makeHmac JSON_stringify fetch now webhook_url whsec d).
  destruct (webhook_response makeHmac JSON_stringify fetch now webhook_url whsec d)
    as [status text|name message].
  - unfold try_catch. case_decide as H2xx.
    + rewrite (markWebhookDeliveryResult_run _ _ _ d) by done. cbn [fst snd].
      split; [done|]. split; [done|]. split; [done|]. intros _. split; [done|].
      cbn [webhook_deliveries set_webhook_deliveries]. by rewrite lookup_insert_eq.
    + destruct (Hfail (Some status) ("HTTP_" +:+ String_of_Z status)
                  (if decide (text = "") then None else Some (slice_to 500 text))
                  ("HTTP " +:+ String_of_Z status)) as (Hok & Hlast & Hmore).
      destruct (attempt_failed _ _ _ _ _ _ _ _ _ _) as [[[]|e] db'] eqn:Hrun; [|done].
      cbn [fst snd] in *. split; [done|]. split; [|split; [|done]].
      * intros reason [= <-]. apply Hlast.
      * intros reason [= <-]. apply Hmore.
  - fold (fetch_error name message).
    destruct (Hfail None (fetch_error name message) None (fetch_error name message))
      as (Hok & Hlast & Hmore).
    split; [done|]. split; [|split; [|done]].
    + intros reason [= <-]. apply Hlast.
    + intros reason [= <-]. apply Hmore.
Qed.

End WorkerRuns.

Lemma worker_run_attempts_each_due_delivery_once_witness :
  ∃ db', runWebhookWorkerOnce default_config checksum_hmac stringify_object failing_receiver
           0 alert_uuid queued_db = (Ok 1%nat, db').
Proof.
  destruct (worker_run_attempts_each_due_delivery_once default_config checksum_hmac
              stringify_object failing_receiver 0 alert_uuid queued_db)
    as (db' & Hrun & _).
  - apply alert_uuid_inj.
  - intros id. reflexivity.
  - exists db'. exact Hrun.
Defined.

(** A delivery for merchant [m2], whose webhook is off. *)
Lemma delivery_without_configuration_fails_for_good_witness :
  ∃ d', deliverOne default_config checksum_hmac stringify_object failing_receiver 0 "alert-wd2"
          ("wd2", mkDelivery "m2" production None "payment.expired" [] queued 0 0
                    None None None 0 0)
          (set_webhook_deliveries
             (λ _, {[ "wd2" := mkDelivery "m2" production None "payment.expired" [] queued 0 0
                                  None None None 0 0 ]}) webhook_db)
        = (Ok tt,
           set_webhook_deliveries (<["wd2" := d']>)
             (set_webhook_deliveries
                (λ _, {[ "wd2" := mkDelivery "m2" production None "payment.expired" [] queued 0 0
                                     None None None 0 0 ]}) webhook_db))
        ∧ wd_status d' = failed.
Proof.
  destruct (delivery_without_configuration_fails_for_good default_config checksum_hmac
              stringify_object failing_receiver 0 "alert-wd2" "wd2"
              (mkDelivery "m2" production None "payment.expired" [] queued 0 0
                 None None None 0 0)
              (set_webhook_deliveries
                 (λ _, {[ "wd2" := mkDelivery "m2" production None "payment.expired" [] queued
                                      0 0 None None None 0 0 ]}) webhook_db)
           ) as (d' & Hrun & Hst & _).
  - reflexivity.
  - left. reflexivity.
  - exists d'. split; [exact Hrun | exact Hst].
Defined.

(** The eighth attempt of a delivery of merchant [m1] is answered 500. *)
Lemma alert_raised_exactly_on_last_failed_attempt_witness :
  al_type <$> alerts
    (deliverOne default_config checksum_hmac stringify_object failing_receiver 7620 "alert-wd1"
       ("wd1", mkDelivery "m1" production (Some "inv1") "payment.paid" [] queued 7 7620
                 (Some 500) (Some "HTTP_500") (Some "error") 0 3780)
       (set_webhook_deliveries
          (λ _, {[ "wd1" := mkDelivery "m1" production (Some "inv1") "payment.paid" [] queued 7
                               7620 (Some 500) (Some "HTTP_500") (Some "error") 0 3780 ]})
          webhook_db)).2 !! "alert-wd1"
  = Some "WEBHOOK_FAILED".
Proof.
  destruct (alert_raised_exactly_on_last_failed_attempt default_config checksum_hmac
              stringify_object failing_receiver 7620 "alert-wd1" "wd1"
              (mkDelivery "m1" production (Some "inv1") "payment.paid" [] queued 7 7620
                 (Some 500) (Some "HTTP_500") (Some "error") 0 3780)
              (set_webhook_deliveries
                 (λ _, {[ "wd1" := mkDelivery "m1" production (Some "inv1") "payment.paid" []
                                      queued 7 7620 (Some 500) (Some "HTTP_500") (Some "error")
                                      0 3780 ]}) webhook_db)
              "https://merchant.example/hook" "whsec_live")
    as (_ & Hlast & _).
  - reflexivity.
  - reflexivity.
  - reflexivity.
  - reflexivity.
  - destruct (Hlast "HTTP 500") as [Halerts _].
    + reflexivity.
    + simpl. lia.
    + rewrite Halerts, lookup_insert_eq. reflexivity.
Defined.

(** ** Properties of the scheduler *)

(** The rows that [cleanupExpiredRows] keeps are those that expire after
    [now]. *)
Lemma cleanupExpiredRows_run now db :
  ∃ db', cleanupExpiredRows now db = (Ok tt, db')
    ∧ (∀ k, used_nonces db' !! k
            = match used_nonces db !! k with
              | Some e => if decide (now < e) then Some e else None
              | None => None
              end)
    ∧ (∀ id, paid_transactions db' !! id
             = match paid_transactions db !! id with
               | Some p => if decide (now < paid_expires_at p) then Some p else None
               | None => None
               end)
    ∧ (∀ id, pending_transactions db' !! id
             = match pending_transactions db !! id with
               | Some p => if decide (now < pt_expires_at p) then Some p else None
               | None => None
               end)
    ∧ invoices db' = invoices db ∧ invoice_events db' = invoice_events db
    ∧ webhook_deliveries db' = webhook_deliveries db ∧ alerts db' = alerts db
    ∧ merchants db' = merchants db ∧ merchant_credentials db' = merchant_credentials db.
Proof.
  eexists. split; [reflexivity|].
  cbn [used_nonces paid_transactions pending_transactions set_used_nonces
       set_paid_transactions set_pending_transactions].
  split; [|split; [|split; [|done]]]; intros k; rewrite sql_delete_where_lookup;
    (destruct (_ !! k) as [e|]; [|done]); simpl; repeat case_decide; done || lia.
Qed.











Section SchedulerProperties.

Variable cfg : Config.
Variable makeHmac : string → string → string.
Variable JSON_stringify : list (string * json) → string.

#[local] Abbreviation Receiver := (string → list (string * string) → string → FetchResult).



End SchedulerProperties.



(** The invoice of merchant [m2], whose webhook is off, is due at 1600:
    the tick at 1700 sets it to [expired], appends the event, and the
    delivery that it queues is failed by the worker in the same tick. *)
Example scheduler_tick_scenario :
  inv_status <$> invoices (example_tick 1700 (in_flight_db "m2")).2 !! "inv1" = Some expired
  ∧ ev_event_type <$> invoice_events (example_tick 1700 (in_flight_db "m2")).2
                        !! "event-inv1" = Some "payment.expired"
  ∧ (λ d, (wd_status d, wd_attempt_count d, wd_last_error d))
      <$> webhook_deliveries (example_tick 1700 (in_flight_db "m2")).2 !! "delivery-inv1"
    = Some (failed, 1, Some "WEBHOOK_DISABLED")
  ∧ pending_transactions (example_tick 1700 (in_flight_db "m2")).2 = ∅.
Proof. repeat split; vm_compute; reflexivity. Qed.


(** X18. A paid invoice is reported [not_found] once its paid transaction
    has left the cache: while the row is there a check answers [paid]; after
    the cleanup at or after the expiry of the row ([expires_at <= now], an
    hour after the payment by default) a check of the same invoice answers
    [not_found], although the invoice is still [paid]; nothing is
    written. *)
Theorem paid_invoice_is_not_found_after_cache_expiry cfg now now' event_id delivery_id
    getQrisHistory req db merchantId inv paidTx :
  check_request_ok req merchantId →
  invoices db !! checked_invoice req = Some inv →
  inv_merchant_id inv = merchantId →
  inv_status inv = paid →
  paid_transactions db !! checked_invoice req = Some paidTx →
  pending_transactions db !! checked_invoice req = None →
  paid_expires_at paidTx ≤ now →
  checkInvoice cfg now' event_id delivery_id getQrisHistory req db
    = (Ok (Success [("status", JStr "paid"); ("final_amount", JNum (paid_final_amount paidTx));
                    ("paid_at", JNum (paid_paid_at paidTx))]), db)
  ∧ checkInvoice cfg now' event_id delivery_id getQrisHistory req (cleanupExpiredRows now db).2
    = (Ok (Success [("status", JStr "not_found")]), (cleanupExpiredRows now db).2)
  ∧ inv_status <$> invoices (cleanupExpiredRows now db).2 !! checked_invoice req = Some paid.
Proof.
  intros Hreq Hinv Hown Hst Hpaid Hpend Hexp.
  destruct (cleanupExpiredRows_run now db)
    as (db' & Hrun & _ & Hpd & Hp & Hinv' & _).
  rewrite Hrun. cbn [snd]. split; [|split].
  - rewrite (checkInvoice_owned _ _ _ _ _ _ _ merchantId) by done.
    rewrite Hinv, decide_True, Hpaid by done.
    by rewrite decide_False by (intros Hne; by apply Hne).
  - rewrite (checkInvoice_owned _ _ _ _ _ _ _ merchantId) by done.
    rewrite Hinv', Hinv, decide_True by done.
    rewrite Hpd, Hpaid, decide_False by lia. rewrite Hp, Hpend.
    rewrite Hst. done.
  - by rewrite Hinv', Hinv, <- Hst.
Qed.

(** The invoice paid at 1200 is checked after the cleanup of 4800. *)
Lemma paid_invoice_is_not_found_after_cache_expiry_witness :
  checkInvoice default_config 5000 "ev9" "wd9" upstream_with_credit (check_request "m1")
    (cleanupExpiredRows 4800
       (checkInvoice default_config 1200 "ev1" "wd1" upstream_with_credit (check_request "m1")
          (in_flight_db "m1")).2).2
  = (Ok (Success [("status", JStr "not_found")]),
     (cleanupExpiredRows 4800
        (checkInvoice default_config 1200 "ev1" "wd1" upstream_with_credit (check_request "m1")
           (in_flight_db "m1")).2).2).
Proof.
  destruct (paid_invoice_is_not_found_after_cache_expiry default_config 4800 5000 "ev9" "wd9"
              upstream_with_credit (check_request "m1")
              (checkInvoice default_config 1200 "ev1" "wd1" upstream_with_credit
                 (check_request "m1") (in_flight_db "m1")).2
              "m1" (example_invoice "m1" paid (Some 1200)) (mkPaid "merchantA" 10001 1200 4800))
    as (_ & Hnot & _).
  - by apply check_request_example.
  - vm_compute. reflexivity.
  - reflexivity.
  - reflexivity.
  - vm_compute. reflexivity.
  - vm_compute. reflexivity.
  - simpl. lia.
  - exact Hnot.
Defined.

(** ** Properties of the merchant settings *)

(** What [addIpWhitelist] does for a merchant that has a row. *)
Lemma addIpWhitelist_run now merchantId cidr db :
  merchant_exists db merchantId →
  ∃ db', addIpWhitelist now merchantId cidr db = (Ok tt, db')
    ∧ merchants db' = merchants db
    ∧ ∀ k, merchant_ip_whitelist db' !! k
           = if decide (k = (merchantId, trim cidr))
             then Some (default now (merchant_ip_whitelist db !! k))
             else merchant_ip_whitelist db !! k.
Proof.
  intros Hrow. unfold addIpWhitelist, references_merchant.
  cbv [mbind M_bind mret M_ret get_db modify_db].
  destruct (merchant_ip_whitelist db !! (merchantId, trim cidr)) as [t0|] eqn:Hk.
  - exists db. split; [done|]. split; [done|]. intros k.
    case_decide as Hc; [|done]. subst k. by rewrite Hk.
  - rewrite decide_True by done. eexists. split; [reflexivity|]. split; [done|]. intros k.
    cbn [merchant_ip_whitelist set_merchant_ip_whitelist].
    case_decide as Hc; [subst k; rewrite Hk; apply lookup_insert_eq|].
    by rewrite lookup_insert_ne.
Qed.

Section SettingsProperties.

Variable Addr : Type.
Variable parse : string → option Addr.
Variable parseCIDR : string → option (Addr * Z).
Variable addr_match : Addr → Addr → Z → option bool.
Variable toNormalizedString : Addr → string.

#[local] Abbreviation ipWhitelist' :=
  (ipWhitelist Addr parse parseCIDR addr_match toNormalizedString).
#[local] Abbreviation entry_matches' :=
  (entry_matches Addr parse parseCIDR addr_match toNormalizedString).

(** The middleware for a merchant with the allow-list enabled and a
    client address that parses. *)
Lemma ipWhitelist_enabled_run req db merchantId row parsed :
  non_empty (req_merchantId req) = Some merchantId →
  merchants db !! merchantId = Some row →
  m_ip_whitelist_enabled row = 1 →
  parse (client_ip req) = Some parsed →
  ((∃ c, configured db merchantId c ∧ entry_matches' parsed c = true) →
   ipWhitelist' req db = (Ok Next, db))
  ∧ ((∀ c, configured db merchantId c → entry_matches' parsed c = false) →
     ipWhitelist' req db = (Ok (Respond 403 "IP_NOT_ALLOWED"), db)).
Proof.
  intros Hm Hrow Hon Hparse.
  destruct (listIpWhitelist_run merchantId db) as (cidrs & Hlist & Hcidrs).
  assert (Hrun : ipWhitelist' req db =
            (Ok (if decide (length cidrs = 0%nat) then Respond 403 "IP_NOT_ALLOWED"
                 else if existsb (entry_matches' parsed) cidrs then Next
                      else Respond 403 "IP_NOT_ALLOWED"), db)).
  { unfold ipWhitelist, isIpWhitelistEnabled. rewrite Hm.
    cbv [mbind M_bind mret M_ret get_db]. rewrite Hrow, bool_decide_true by done.
    cbv [negb]. rewrite Hlist.
    case_decide; [done|].
    fold (forwarded_for req). fold (unmap_ipv4 (or_default (Some (forwarded_for req))
                                             (or_default (req_ip req) ""))).
    fold (client_ip req). rewrite Hparse. by destruct (existsb _ _). }
  rewrite Hrun. split.
  - intros (c & Hc & Hmatch). apply Hcidrs in Hc.
    rewrite decide_False by (destruct cidrs; [by apply elem_of_nil in Hc | done]).
    assert (existsb (entry_matches' parsed) cidrs = true) as ->; [|done].
    apply existsb_exists. exists c. split; [by apply list_elem_of_In | done].
  - intros Hnone. case_decide; [done|].
    destruct (existsb _ _) eqn:Hex; [|done].
    apply existsb_exists in Hex as (c & Hin & Hc).
    rewrite Hnone in Hc; [done|]. apply Hcidrs. by apply list_elem_of_In.
Qed.

(** X19. The settings of the allow-list take effect in the middleware.
    For a merchant that has a row, after the allow-list is enabled and an
    entry is added, the trimmed entry is configured beside the entries
    that were, and a request of the merchant from an address that the
    entry matches passes; adding the entry again changes nothing; after
    the entry is removed the other entries are left, and the request is
    answered 403 IP_NOT_ALLOWED when none of them matches; once the
    allow-list is disabled every request of the merchant passes. For a
    merchant without a row a new entry is refused by the foreign key and
    nothing is written. *)
Theorem allow_list_settings_take_effect req now db merchantId cidr parsed :
  non_empty (req_merchantId req) = Some merchantId →
  merchant_exists db merchantId →
  parse (client_ip req) = Some parsed →
  let enabled := (setIpWhitelistEnabled merchantId true db).2 in
  let added := (addIpWhitelist now merchantId cidr enabled).2 in
  let removed := (removeIpWhitelist merchantId cidr added).2 in
  (addIpWhitelist now merchantId cidr enabled).1 = Ok tt
  ∧ (∀ m c, configured added m c ↔ configured db m c ∨ (m = merchantId ∧ c = trim cidr))
  ∧ (entry_matches' parsed (trim cidr) = true → ipWhitelist' req added = (Ok Next, added))
  ∧ (∀ now', addIpWhitelist now' merchantId cidr added = (Ok tt, added))
  ∧ (∀ m c, configured removed m c ↔ configured db m c ∧ (m, c) ≠ (merchantId, trim cidr))
  ∧ ((∀ c, configured db merchantId c → c ≠ trim cidr → entry_matches' parsed c = false) →
     ipWhitelist' req removed = (Ok (Respond 403 "IP_NOT_ALLOWED"), removed))
  ∧ (∀ db', ipWhitelist' req (setIpWhitelistEnabled merchantId false db').2
            = (Ok Next, (setIpWhitelistEnabled merchantId false db').2))
  ∧ (∀ m db', ¬ merchant_exists db' m → ¬ configured db' m (trim cidr) →
              addIpWhitelist now m cidr db' = (Thrown constraint_failed, db')).
Proof.
  intros Hm [row Hrow] Hparse enabled added removed.
  assert (Hen : merchants enabled !! merchantId
                = Some (merchant_with_ip_whitelist_enabled 1 row)).
  { unfold enabled, setIpWhitelistEnabled. cbv [modify_db snd]. cbn [merchants set_merchants].
    by rewrite lookup_alter_eq, Hrow. }
  destruct (addIpWhitelist_run now merchantId cidr enabled) as (db1 & Hrun & Hms & Hadd).
  { by eexists. }
  assert (Hadded : added = db1) by (unfold added; by rewrite Hrun).
  assert (Hconf : ∀ m c, configured added m c
            ↔ configured db m c ∨ (m = merchantId ∧ c = trim cidr)).
  { intros m c. rewrite Hadded. unfold configured. rewrite Hadd. case_decide as Hc.
    - injection Hc as -> ->. split; [by right | by eexists].
    - split; [by left|]. intros [?|[-> ->]]; done. }
  assert (Hrem : ∀ m c, configured removed m c
            ↔ configured db m c ∧ (m, c) ≠ (merchantId, trim cidr)).
  { intros m c. unfold removed, removeIpWhitelist. cbv [modify_db snd]. unfold configured at 1.
    cbn [merchant_ip_whitelist set_merchant_ip_whitelist].
    destruct (decide ((m, c) = (merchantId, trim cidr))) as [Heq|Hne].
    - rewrite Heq, lookup_delete_eq. split; [by intros [? ?] | by intros [_ ?]].
    - rewrite lookup_delete_ne by done. fold (configured added m c). rewrite Hconf.
      split; [intros [?|[-> ->]]; done | intros [? _]; by left]. }
  split; [by rewrite Hrun|]. split; [done|]. split; [|split; [|split; [done|split; [|split]]]].
  - intros Hmatch.
    apply (ipWhitelist_enabled_run req added merchantId
             (merchant_with_ip_whitelist_enabled 1 row) parsed); try done.
    + by rewrite Hadded, Hms.
    + exists (trim cidr). split; [|done]. apply Hconf. by right.
  - intros now'. rewrite Hadded. unfold addIpWhitelist.
    cbv [mbind M_bind mret M_ret get_db]. rewrite Hadd, decide_True by done. done.
  - intros Hnone.
    apply (ipWhitelist_enabled_run req removed merchantId
             (merchant_with_ip_whitelist_enabled 1 row) parsed); try done.
    + unfold removed, removeIpWhitelist. cbv [modify_db snd].
      cbn [merchants set_merchant_ip_whitelist]. by rewrite Hadded, Hms.
    + intros c [Hc Hne]%Hrem. apply Hnone; [done|]. intros ->. done.
  - intros db'. unfold ipWhitelist, isIpWhitelistEnabled, setIpWhitelistEnabled. rewrite Hm.
    cbv [mbind M_bind mret M_ret get_db modify_db snd]. cbn [merchants set_merchants].
    rewrite lookup_alter_eq. by destruct (merchants db' !! merchantId).
  - intros m db' Hno Hnc. unfold addIpWhitelist, references_merchant.
    cbv [mbind M_bind mret M_ret get_db modify_db throw].
    destruct (merchant_ip_whitelist db' !! (m, trim cidr)) eqn:Hk.
    + exfalso. apply Hnc. by eexists.
    + by rewrite decide_False.
Qed.

End SettingsProperties.

Lemma set_merchants_alter_absent (f : Merchant → Merchant) merchantId db :
  ¬ merchant_exists db merchantId → set_merchants (alter f merchantId) db = db.
Proof.
  intros Hno. destruct db as [pt pd un iv ev wd al ms mc wl]. unfold set_merchants. cbn.
  f_equal. apply map_eq. intros m. destruct (decide (m = merchantId)) as [->|Hne].
  - rewrite lookup_alter_eq. destruct (ms !! merchantId) eqn:Hrow; [|done].
    exfalso. apply Hno. by eexists.
  - by rewrite lookup_alter_ne.
Qed.

(** X20. The webhook settings are kept per merchant and environment.
    [setMerchantWebhookConfigEnv] writes the URL and the flag of one
    environment of one merchant: [getMerchantWebhookConfigEnv] then reads
    them back, a parameter that is absent or [null] keeps the stored value
    (so that a URL cannot be cleared with [null], while the empty string is
    stored and read as no URL), and every other merchant and the other
    environment read what they read before; for an unknown merchant nothing
    is written. [setMerchantWebhookConfig] writes the production columns
    only: an explicit [null] clears the URL, an absent parameter keeps the
    value read by [getMerchantWebhookConfig], and the sandbox settings are
    never changed by it. *)
Theorem webhook_settings_are_kept_per_environment merchantId env webhook_url webhook_enabled
    url_param db :
  let db1 := (setMerchantWebhookConfigEnv merchantId env webhook_url webhook_enabled db).2 in
  let db2 := (setMerchantWebhookConfig merchantId url_param webhook_enabled db).2 in
  (merchant_exists db merchantId →
   getMerchantWebhookConfigEnv merchantId env db1
   = (Ok (match webhook_url with
          | Some u => non_empty (Some u)
          | None => (webhook_config db merchantId env).1
          end,
          default (webhook_config db merchantId env).2 webhook_enabled), db1))
  ∧ (∀ m e, (m, e) ≠ (merchantId, env) →
       getMerchantWebhookConfigEnv m e db1 = (Ok (webhook_config db m e), db1))
  ∧ (¬ merchant_exists db merchantId → db1 = db ∧ db2 = db)
  ∧ (merchant_exists db merchantId →
     getMerchantWebhookConfigEnv merchantId production db2
     = (Ok (match url_param with
            | UrlUndefined => (webhook_config db merchantId production).1
            | UrlNull => None
            | UrlString s => non_empty (Some s)
            end,
            default (webhook_config db merchantId production).2 webhook_enabled), db2))
  ∧ (∀ m e, (m, e) ≠ (merchantId, production) →
       getMerchantWebhookConfigEnv m e db2 = (Ok (webhook_config db m e), db2)).
Proof.
  intros db1 db2.
  assert (Hidem : ∀ o, non_empty (non_empty o) = non_empty o).
  { intros [s|]; [|done]. unfold non_empty. case_decide; [done|]. by rewrite decide_False. }
  split; [|split; [|split; [|split]]].
  - intros [row Hrow]. rewrite getMerchantWebhookConfigEnv_run. f_equal. f_equal.
    unfold db1, webhook_config, setMerchantWebhookConfigEnv.
    destruct env; cbv [modify_db snd]; cbn [merchants set_merchants];
      rewrite lookup_alter_eq, Hrow; cbn [fmap option_fmap option_map m_webhook_url
        m_webhook_enabled m_sandbox_webhook_url m_sandbox_webhook_enabled fst snd];
      destruct webhook_url, webhook_enabled as [[]|]; done.
  - intros m e Hne. rewrite getMerchantWebhookConfigEnv_run. f_equal. f_equal.
    unfold db1, webhook_config, setMerchantWebhookConfigEnv.
    destruct (decide (m = merchantId)) as [->|Hm].
    + destruct env, e; try done; cbv [modify_db snd]; cbn [merchants set_merchants];
        rewrite lookup_alter_eq; by destruct (merchants db !! merchantId).
    + destruct env; cbv [modify_db snd]; cbn [merchants set_merchants];
        by rewrite lookup_alter_ne.
  - intros Hno. split.
    + unfold db1, setMerchantWebhookConfigEnv.
      destruct env; cbv [modify_db snd]; by apply set_merchants_alter_absent.
    + unfold db2, setMerchantWebhookConfig, getMerchantWebhookConfig.
      cbv [mbind M_bind mret M_ret get_db modify_db snd].
      by apply set_merchants_alter_absent.
  - intros [row Hrow]. rewrite getMerchantWebhookConfigEnv_run. f_equal. f_equal.
    unfold db2, webhook_config, setMerchantWebhookConfig, getMerchantWebhookConfig.
    cbv [mbind M_bind mret M_ret get_db modify_db snd]. cbn [merchants set_merchants].
    rewrite lookup_alter_eq, Hrow.
    cbn [fmap option_fmap option_map m_webhook_url m_webhook_enabled fst snd].
    destruct url_param, webhook_enabled as [[]|]; cbn [default]; rewrite ?Hidem; done.
  - intros m e Hne. rewrite getMerchantWebhookConfigEnv_run. f_equal. f_equal.
    unfold db2, webhook_config, setMerchantWebhookConfig, getMerchantWebhookConfig.
    cbv [mbind M_bind mret M_ret get_db modify_db snd]. cbn [merchants set_merchants].
    destruct (decide (m = merchantId)) as [->|Hm].
    + destruct e; [done|]. rewrite lookup_alter_eq. by destruct (merchants db !! merchantId).
    + by rewrite lookup_alter_ne.
Qed.

(** Merchant [m3] adds the range [10.9.0.0/16], written with spaces around
    it: a request from 10.9.1.1 passes. *)
Lemma allow_list_settings_take_effect_witness :
  ipv4_whitelist (request_from "m3" None (Some "10.9.1.1"))
    (addIpWhitelist 2000 "m3" " 10.9.0.0/16 " (setIpWhitelistEnabled "m3" true whitelist_db).2).2
  = (Ok Next,
     (addIpWhitelist 2000 "m3" " 10.9.0.0/16 "
        (setIpWhitelistEnabled "m3" true whitelist_db).2).2).
Proof.
  destruct (allow_list_settings_take_effect (list Z) ipv4_parse ipv4_parseCIDR ipv4_match
              ipv4_toNormalizedString (request_from "m3" None (Some "10.9.1.1")) 2000
              whitelist_db "m3" " 10.9.0.0/16 " [10; 9; 1; 1])
    as (_ & _ & Hpass & _).
  - reflexivity.
  - vm_compute. eexists. reflexivity.
  - vm_compute. reflexivity.
  - apply Hpass. vm_compute. reflexivity.
Defined.

(** ** Properties of the refunds *)

(** A call of one of the functions that write [refunds]. *)
Inductive RefundCall :=
  | CallCreate (db : Db) (now : Z) (id invoice_id merchant_id : string) (amount : Z)
      (reason : option string)
  | CallApprove (now : Z) (id adminEmail : string)
  | CallReject (now : Z) (id adminEmail : string)
  | CallProcess (now : Z) (id adminEmail : string).

(** The table after a call; a call that throws leaves the table as it was
    at the throw. *)
Definition refund_call (c : RefundCall) (bk : Books) : Books :=
  match c with
  | CallCreate db now id invoice_id merchant_id amount reason =>
      (createRefundRequest db now id invoice_id merchant_id amount reason bk).2
  | CallApprove now id adminEmail => (approveRefund now id adminEmail bk).2
  | CallReject now id adminEmail => (rejectRefund now id adminEmail bk).2
  | CallProcess now id adminEmail => (processRefund now id adminEmail bk).2
  end.

(** Calls made one after the other. *)
Definition refund_calls (cs : list RefundCall) (bk : Books) : Books :=
  foldl (λ bk c, refund_call c bk) bk cs.

(** The moves of the status of a refund: it stays, a requested refund is
    approved or rejected, an approved refund is processed. *)
Inductive refund_moves : RefundStatus → RefundStatus → Prop :=
  | refund_stays s : refund_moves s s
  | refund_approved : refund_moves requested approved
  | refund_rejected : refund_moves requested rejected
  | refund_processed s : s = requested ∨ s = approved → refund_moves s processed.

(** The decision and the processing are recorded exactly for the statuses
    that follow them. *)
Definition refund_recorded (r : Refund) : Prop :=
  (is_Some (rf_approved_at r) ↔ rf_status r ≠ requested)
  ∧ (is_Some (rf_approved_by r) ↔ rf_status r ≠ requested)
  ∧ (is_Some (rf_processed_at r) ↔ rf_status r = processed)
  ∧ (is_Some (rf_processed_by r) ↔ rf_status r = processed).

(** What a refund keeps. *)
Definition same_request (r r' : Refund) : Prop :=
  rf_invoice_id r' = rf_invoice_id r ∧ rf_merchant_id r' = rf_merchant_id r
  ∧ rf_amount r' = rf_amount r ∧ rf_reason r' = rf_reason r
  ∧ rf_requested_at r' = rf_requested_at r.

Lemma refund_moves_trans s1 s2 s3 :
  refund_moves s1 s2 → refund_moves s2 s3 → refund_moves s1 s3.
Proof.
  intros H12 H23. destruct H12; [done|..]; inversion H23; subst;
    try constructor; try tauto; try (destruct H as [?|?]; done);
    try (destruct H0 as [?|?]; done).
Qed.
Lemma refund_call_step c bk id r :
  refunds bk !! id = Some r → refund_recorded r →
  ∃ r', refunds (refund_call c bk) !! id = Some r'
    ∧ same_request r r' ∧ refund_moves (rf_status r) (rf_status r') ∧ refund_recorded r'
    ∧ (rf_status r = rejected ∨ rf_status r = processed → r' = r).
Proof.
  intros Hr Hrec.
  assert (Hsame : ∃ r', Some r = Some r'
            ∧ same_request r r' ∧ refund_moves (rf_status r) (rf_status r') ∧ refund_recorded r'
            ∧ (rf_status r = rejected ∨ rf_status r = processed → r' = r)).
  { exists r. repeat split; try done; try apply Hrec. constructor. }
  assert (Hdecide : ∀ status now id' adminEmail,
            status = approved ∨ status = rejected →
            ∃ r', refunds (decide_refund status now id' adminEmail bk).2 !! id = Some r'
              ∧ same_request r r' ∧ refund_moves (rf_status r) (rf_status r')
              ∧ refund_recorded r'
              ∧ (rf_status r = rejected ∨ rf_status r = processed → r' = r)).
  { intros status now id' adminEmail Hstatus. unfold decide_refund. cbv [modify_books snd].
    cbn [refunds set_refunds]. destruct (decide (id' = id)) as [->|Hne].
    - rewrite lookup_alter_eq, Hr. cbn [fmap option_fmap option_map].
      case_decide as Hreq; [|exact Hsame]. eexists. split; [reflexivity|].
      cbn [rf_status]. rewrite Hreq. split; [done|]. split.
      { destruct Hstatus as [-> | ->]; constructor. }
      split.
      { unfold refund_recorded. cbn. destruct Hrec as (_ & _ & Hp1 & Hp2).
        rewrite Hp1, Hp2, Hreq.
        destruct Hstatus as [-> | ->]; repeat split; try done; by eexists. }
      intros [?|?]; done.
    - rewrite lookup_alter_ne by done. rewrite Hr. exact Hsame. }
  destruct c as [db now id' invoice_id merchant_id amount reason | now id' adminEmail
                 | now id' adminEmail | now id' adminEmail]; cbn [refund_call].
  - unfold createRefundRequest, sql_insert.
    cbv [mbind B_bind mret B_ret get_books modify_books throw_books].
    destruct (refunds bk !! id') eqn:Hid'; [cbn [snd]; rewrite Hr; exact Hsame|].
    case_decide; [|cbn [snd]; rewrite Hr; exact Hsame]. cbn [snd refunds set_refunds].
    rewrite lookup_insert_ne; [cbn [snd]; rewrite Hr; exact Hsame|]. intros ->. by rewrite Hr in Hid'.
  - apply Hdecide. by left.
  - apply Hdecide. by right.
  - unfold processRefund. cbv [mbind B_bind mret B_ret get_books modify_books throw_books].
    destruct (refunds bk !! id') as [r0|] eqn:Hid'; [|cbn [snd]; rewrite Hr; exact Hsame].
    case_decide as Hst; [cbn [snd]; rewrite Hr; exact Hsame|]. cbn [snd refunds set_refunds].
    destruct (decide (id' = id)) as [->|Hne].
    + rewrite lookup_alter_eq, Hr. cbn [fmap option_fmap option_map].
      rewrite Hr in Hid'. injection Hid' as <-.
      assert (Happ : rf_status r = approved) by (by destruct (decide (rf_status r = approved))).
      eexists. split; [reflexivity|]. cbn [rf_status]. split; [done|]. split.
      { constructor. by right. }
      split.
      { unfold refund_recorded. cbn. destruct Hrec as (Ha1 & Ha2 & _ & _).
        rewrite Ha1, Ha2, Happ. repeat split; try done; by eexists. }
      rewrite Happ. intros [?|?]; done.
    + rewrite lookup_alter_ne by done. rewrite Hr. exact Hsame.
Qed.

(** X21. The life of a refund. Whatever calls of [createRefundRequest],
    [approveRefund], [rejectRefund] and [processRefund] are made, in any
    order and for any identifiers, a refund keeps its invoice, merchant,
    amount, reason and request time; its status only moves from requested
    to approved or rejected and from approved to processed; the decision
    and the processing are recorded exactly for the statuses that follow
    them, so that a processed refund has been approved; a rejected or
    processed refund is never changed again. [processRefund] on a refund
    that is missing or not approved throws and writes nothing. *)
Theorem refund_lifecycle cs bk id r :
  refunds bk !! id = Some r → refund_recorded r →
  (∃ r', refunds (refund_calls cs bk) !! id = Some r'
     ∧ same_request r r' ∧ refund_moves (rf_status r) (rf_status r') ∧ refund_recorded r'
     ∧ (rf_status r = rejected ∨ rf_status r = processed → r' = r)
     ∧ (rf_status r' = processed → is_Some (rf_approved_at r') ∧ is_Some (rf_approved_by r')))
  ∧ (∀ now id' adminEmail bk',
       rf_status <$> refunds bk' !! id' ≠ Some approved →
       ∃ e, processRefund now id' adminEmail bk' = (Thrown e, bk')).
Proof.
  intros Hr Hrec. split.
  - revert bk r Hr Hrec. induction cs as [|c cs IH]; intros bk r Hr Hrec.
    + exists r. split; [done|]. split; [done|]. split; [constructor|]. split; [done|].
      split; [done|]. intros Hp. destruct Hrec as (Ha1 & Ha2 & _).
      rewrite Ha1, Ha2, Hp. done.
    + destruct (refund_call_step c bk id r Hr Hrec) as (r1 & Hr1 & Hsame1 & Hmove1 & Hrec1 & Hfin1).
      destruct (IH (refund_call c bk) r1 Hr1 Hrec1)
        as (r' & Hr' & Hsame & Hmove & Hrec' & Hfin & Hproc).
      exists r'. split; [done|]. split.
      { destruct Hsame1 as (? & ? & ? & ? & ?), Hsame as (? & ? & ? & ? & ?).
        repeat split; congruence. }
      split; [by eapply refund_moves_trans|]. split; [done|]. split; [|done].
      intros Hst. rewrite <- (Hfin1 Hst). apply Hfin. by rewrite (Hfin1 Hst).
  - intros now id' adminEmail bk' Hst. unfold processRefund.
    cbv [mbind B_bind mret B_ret get_books modify_books throw_books].
    destruct (refunds bk' !! id') as [r0|]; [|by eexists].
    case_decide as Hne; [by eexists|]. exfalso. apply Hst. cbn. f_equal.
    by destruct (decide (rf_status r0 = approved)).
Qed.

(** A refund of 5000 is requested: processing it at once fails, it is
    rejected, and neither a later approval nor a later processing changes
    it. *)
Definition example_books : Books :=
  mkBooks {[ "rf1" := mkRefund "inv1" "m1" 5000 None requested 1000 None None None None ]} ∅ ∅ ∅.

Lemma refund_lifecycle_witness :
  ∃ r', refunds (refund_calls [CallProcess 1100 "rf1" "admin@example.com";
                               CallReject 1200 "rf1" "admin@example.com";
                               CallApprove 1300 "rf1" "admin@example.com";
                               CallProcess 1400 "rf1" "admin@example.com"] example_books)
          !! "rf1" = Some r'
    ∧ same_request (mkRefund "inv1" "m1" 5000 None requested 1000 None None None None) r'
    ∧ refund_moves requested (rf_status r') ∧ refund_recorded r'.
Proof.
  destruct (refund_lifecycle [CallProcess 1100 "rf1" "admin@example.com";
                              CallReject 1200 "rf1" "admin@example.com";
                              CallApprove 1300 "rf1" "admin@example.com";
                              CallProcess 1400 "rf1" "admin@example.com"] example_books "rf1"
              (mkRefund "inv1" "m1" 5000 None requested 1000 None None None None))
    as [(r' & Hr' & Hsame & Hmove & Hrec & _) _].
  - reflexivity.
  - repeat split; intros H; try done; by destruct H.
  - exists r'. done.
Defined.

Example refund_rejected_scenario :
  rf_status <$> refunds (refund_calls [CallProcess 1100 "rf1" "admin@example.com";
                                       CallReject 1200 "rf1" "admin@example.com";
                                       CallApprove 1300 "rf1" "admin@example.com";
                                       CallProcess 1400 "rf1" "admin@example.com"]
                           example_books) !! "rf1"
  = Some rejected.
Proof. vm_compute. reflexivity. Qed.

(** ** Properties of the settlements *)

(** The sum of [f] over the invoices of a list. *)
Definition sum_of (f : Invoice → Z) (l : list (string * Invoice)) : Z :=
  foldr (λ kv acc, f kv.2 + acc) 0 l.

Lemma total_sum_of field feeBps feeFixed l :
  total field feeBps feeFixed l = sum_of (λ inv, field (settlement_item feeBps feeFixed inv)) l.
Proof.
  unfold total, sum_of.
  assert (H : ∀ acc, foldl (λ acc kv, acc + field (settlement_item feeBps feeFixed kv.2)) acc l
                     = acc + foldr (λ kv acc, field (settlement_item feeBps feeFixed kv.2) + acc)
                               0 l).
  { induction l as [|kv l IH]; intros acc; simpl; [lia|]. rewrite IH. lia. }
  rewrite H. lia.
Qed.

Lemma feeForAmount_nonneg amount feeBps feeFixed : 0 ≤ feeForAmount amount feeBps feeFixed.
Proof. unfold feeForAmount. lia. Qed.

(** The totals of a settlement: the fee and the net amount are not
    negative, the gross amount is at most their sum, and it is their sum
    when no fee exceeds its amount. *)
Lemma totals_balance feeBps feeFixed l :
  0 ≤ total si_fee feeBps feeFixed l
  ∧ 0 ≤ total si_net feeBps feeFixed l
  ∧ total si_amount feeBps feeFixed l
    ≤ total si_fee feeBps feeFixed l + total si_net feeBps feeFixed l
  ∧ ((∀ kv, kv ∈ l → feeForAmount (inv_final_amount kv.2) feeBps feeFixed
                     ≤ inv_final_amount kv.2) →
     total si_amount feeBps feeFixed l
     = total si_fee feeBps feeFixed l + total si_net feeBps feeFixed l).
Proof.
  rewrite !total_sum_of. unfold sum_of.
  cbv beta zeta delta [settlement_item]. cbn [si_amount si_fee si_net].
  induction l as [|kv l IH]; cbn [foldr].
  - repeat split; intros; lia.
  - destruct IH as (Hf & Hn & Hle & Heq).
    pose proof (feeForAmount_nonneg (inv_final_amount kv.2) feeBps feeFixed).
    split; [lia|]. split; [lia|]. split; [lia|]. intros Hfees.
    pose proof (Hfees kv ltac:(left)).
    rewrite Heq by (intros kv' Hin; apply Hfees; by right). lia.
Qed.

(** The insertion of the items of a settlement whose identifier is new. *)
Lemma insertItems_run settlementId feeBps feeFixed l : ∀ bk,
  NoDup l.*1 →
  (∀ i, i ∈ l.*1 → settlement_items bk !! (settlementId, i) = None) →
  ∃ bk', insertItems settlementId feeBps feeFixed l bk = (Ok tt, bk')
    ∧ refunds bk' = refunds bk ∧ settlements bk' = settlements bk
    ∧ merchant_fees bk' = merchant_fees bk
    ∧ (∀ i inv, (i, inv) ∈ l →
         settlement_items bk' !! (settlementId, i) = Some (settlement_item feeBps feeFixed inv))
    ∧ (∀ k, (∀ i, i ∈ l.*1 → k ≠ (settlementId, i)) →
         settlement_items bk' !! k = settlement_items bk !! k).
Proof.
  induction l as [|[i0 inv0] l IH]; intros bk Hnd Hfresh.
  - exists bk. split; [done|]. repeat split; try done. intros i inv Hin.
    by apply elem_of_nil in Hin.
  - simpl in Hnd. apply NoDup_cons in Hnd as [Hi0 Hnd].
    cbn [insertItems]. unfold sql_insert.
    cbv [mbind B_bind mret B_ret get_books modify_books]. cbn [fst snd].
    rewrite (Hfresh i0) by (simpl; left).
    match goal with |- context [insertItems _ _ _ l ?bk1] => set (bk1' := bk1) end.
    destruct (IH bk1') as (bk' & Hrun & Hr & Hs & Hf & Hitems & Hothers); [done| |].
    { intros i Hin. unfold bk1'. cbn [settlement_items set_settlement_items].
      rewrite lookup_insert_ne; [apply Hfresh; by right|]. intros [= ->]. done. }
    exists bk'. split; [done|]. split; [by rewrite Hr|]. split; [by rewrite Hs|].
    split; [by rewrite Hf|]. split.
    + intros i inv [[= -> ->]|Hin]%elem_of_cons; [|by apply Hitems].
      rewrite Hothers; [unfold bk1'; cbn [settlement_items set_settlement_items];
                        apply lookup_insert_eq|].
      intros i Hin [= ->]. done.
    + intros k Hk. rewrite Hothers by (intros i Hin; apply Hk; by right).
      unfold bk1'. cbn [settlement_items set_settlement_items].
      rewrite lookup_insert_ne; [done|]. intros Heq. by apply (Hk i0); [left|].
Qed.

(** A merchant has a settlement of the day. *)
Definition settled (bk : Books) (merchantId periodDate : string) : Prop :=
  ∃ id s, settlements bk !! id = Some s
          ∧ st_merchant_id s = merchantId ∧ st_period_date s = periodDate.

Lemma existing_settlement bk merchantId periodDate :
  match sql_select_where
          (λ kv, st_merchant_id kv.2 = merchantId ∧ st_period_date kv.2 = periodDate)
          (settlements bk) with
  | [] => ¬ settled bk merchantId periodDate
  | (id, s) :: _ => settlements bk !! id = Some s ∧ settled bk merchantId periodDate
  end.
Proof.
  destruct (sql_select_where _ _) as [|[id s] rows] eqn:Hrows.
  - intros (id & s & Hs & Hm & Hd).
    assert (Hin : (id, s) ∈ sql_select_where
                    (λ kv, st_merchant_id kv.2 = merchantId ∧ st_period_date kv.2 = periodDate)
                    (settlements bk)).
    { apply list_elem_of_filter. split; [done|]. by apply elem_of_map_to_list. }
    rewrite Hrows in Hin. by apply elem_of_nil in Hin.
  - assert (Hin : (id, s) ∈ (id, s) :: rows) by left.
    rewrite <- Hrows in Hin. apply list_elem_of_filter in Hin as [[Hm Hd] Hin].
    apply elem_of_map_to_list in Hin. split; [done|]. by exists id, s.
Qed.

Section SettlementProperties.

Variable Date_getTime : string → option Z.

#[local] Abbreviation runSettlementForDate' := (runSettlementForDate Date_getTime).
#[local] Abbreviation settleMerchant' := (settleMerchant Date_getTime).
#[local] Abbreviation settleAll' := (settleAll Date_getTime).

(** The invoices of a merchant that were paid on the day. *)
Definition day_invoices (db : Db) (periodDate merchantId : string) : list (string * Invoice) :=
  sql_select_where (paid_on (day_bounds Date_getTime periodDate) merchantId) (invoices db).

Definition fees_of (bk : Books) (merchantId : string) : MerchantFees :=
  default (mkFees 0 0) (merchant_fees bk !! merchantId).

(** The settlement written for a merchant. *)
Definition settlement_row (db : Db) (bk : Books) (now : Z) (periodDate merchantId : string)
    : Settlement :=
  let feeBps := fee_bps (fees_of bk merchantId) in
  let feeFixed := fee_fixed (fees_of bk merchantId) in
  let paidInvoices := day_invoices db periodDate merchantId in
  mkSettlement merchantId periodDate
    (total si_amount feeBps feeFixed paidInvoices)
    (total si_fee feeBps feeFixed paidInvoices)
    (total si_net feeBps feeFixed paidInvoices)
    "pending" now None.

Lemma day_invoices_NoDup db periodDate merchantId :
  NoDup (day_invoices db periodDate merchantId).*1.
Proof.
  unfold day_invoices, sql_select_where.
  eapply sublist_NoDup; [|apply fmap_sublist; apply sublist_filter].
  apply NoDup_fst_map_to_list.
Qed.

(** One turn of the loop over the merchants. *)
Lemma settleMerchant_run db now settlement_id periodDate merchantId row bk :
  settlements bk !! "" = None →
  settlements bk !! settlement_id merchantId = None →
  (∀ i, settlement_items bk !! (settlement_id merchantId, i) = None) →
  ∃ ok bk', settleMerchant' db now settlement_id periodDate (merchantId, row) bk = (Ok ok, bk')
    ∧ (ok = true ↔ day_invoices db periodDate merchantId ≠ []
                   ∧ ¬ settled bk merchantId periodDate)
    ∧ (ok = false → bk' = bk)
    ∧ (ok = true →
       settlements bk'
       = <[settlement_id merchantId := settlement_row db bk now periodDate merchantId]>
           (settlements bk)
       ∧ (∀ i inv, (i, inv) ∈ day_invoices db periodDate merchantId →
            settlement_items bk' !! (settlement_id merchantId, i)
            = Some (settlement_item (fee_bps (fees_of bk merchantId))
                      (fee_fixed (fees_of bk merchantId)) inv))
       ∧ (∀ k, k.1 ≠ settlement_id merchantId →
            settlement_items bk' !! k = settlement_items bk !! k))
    ∧ refunds bk' = refunds bk ∧ merchant_fees bk' = merchant_fees bk.
Proof.
  intros Hempty Hfresh Hitems. unfold settleMerchant.
  cbv [mbind B_bind mret B_ret get_books modify_books throw_books]. cbn [fst].
  fold (day_invoices db periodDate merchantId). fold (fees_of bk merchantId).
  destruct (day_invoices db periodDate merchantId) as [|kv l] eqn:Hl.
  { exists false, bk. split; [done|]. split; [split; [done | by intros [? _]]|]. done. }
  pose proof (existing_settlement bk merchantId periodDate) as Hex.
  destruct (sql_select_where _ (settlements bk)) as [|[id s] rows].
  - unfold sql_insert. rewrite Hfresh.
    match goal with |- context [insertItems ?a ?b ?c ?d ?bk1] =>
      destruct (insertItems_run a b c d bk1) as (bk' & Hrun & Hr & Hs & Hf & Hin & Hout) end.
    { rewrite <- Hl. apply day_invoices_NoDup. }
    { intros i _. cbn [settlement_items set_settlements]. apply Hitems. }
    rewrite Hrun. exists true, bk'. split; [done|].
    split; [split; [done | intros _; by split]|]. split; [done|]. split; [|by rewrite Hr, Hf].
    intros _. split; [|split].
    + rewrite Hs. cbn [settlements set_settlements]. unfold settlement_row. by rewrite Hl.
    + intros i inv Hi. by apply Hin.
    + intros k Hk. rewrite Hout; [done|]. intros i _ ->. done.
  - destruct Hex as [Hid Hsettled]. rewrite decide_False by (intros ->; by rewrite Hempty in Hid).
    exists false, bk. split; [done|]. split; [split; [done | by intros [_ ?]]|]. done.
Qed.

(** The loop over the merchants, with new identifiers: the merchants that
    get a settlement are those with paid invoices of the day and without a
    settlement of the day. *)
Lemma settleAll_run db now settlement_id periodDate ms : ∀ created bk,
  NoDup ms.*1 →
  Inj (=) (=) settlement_id →
  (∀ m, settlement_id m ≠ "") →
  settlements bk !! "" = None →
  (∀ m, m ∈ ms.*1 → settlements bk !! settlement_id m = None) →
  (∀ m i, m ∈ ms.*1 → settlement_items bk !! (settlement_id m, i) = None) →
  ∃ dues bk',
    settleAll' db now settlement_id periodDate ms created bk
    = (Ok (created + length dues)%nat, bk')
    ∧ NoDup dues
    ∧ (∀ m, m ∈ dues ↔ m ∈ ms.*1 ∧ day_invoices db periodDate m ≠ []
                        ∧ ¬ settled bk m periodDate)
    ∧ (∀ m, m ∈ dues →
         settlements bk' !! settlement_id m = Some (settlement_row db bk now periodDate m))
    ∧ (∀ k, (∀ m, m ∈ dues → k ≠ settlement_id m) →
         settlements bk' !! k = settlements bk !! k)
    ∧ (∀ m i inv, m ∈ dues → (i, inv) ∈ day_invoices db periodDate m →
         settlement_items bk' !! (settlement_id m, i)
         = Some (settlement_item (fee_bps (fees_of bk m)) (fee_fixed (fees_of bk m)) inv))
    ∧ (∀ k, (∀ m, m ∈ dues → k.1 ≠ settlement_id m) →
         settlement_items bk' !! k = settlement_items bk !! k)
    ∧ refunds bk' = refunds bk ∧ merchant_fees bk' = merchant_fees bk.
Proof.
  induction ms as [|[m0 row0] ms IH]; intros created bk Hnd Hinj Hne Hempty Hfresh Hitems.
  - exists [], bk. split; [cbn; by rewrite Nat.add_0_r|]. split; [constructor|].
    split; [intros m; split; [by intros ?%elem_of_nil | by intros [?%elem_of_nil _]]|].
    split; [by intros m ?%elem_of_nil|]. split; [done|].
    split; [by intros m i inv ?%elem_of_nil|]. done.
  - simpl in Hnd. apply NoDup_cons in Hnd as [Hm0 Hnd].
    destruct (settleMerchant_run db now settlement_id periodDate m0 row0 bk)
      as (ok & bk1 & Hrun & Hok & Hfalse & Htrue & Hr1 & Hf1); [done| | |].
    { apply Hfresh. simpl. left. }
    { intros i. apply Hitems. simpl. left. }
    cbn [settleAll]. cbv [mbind B_bind]. rewrite Hrun. destruct ok.
    + destruct (Htrue eq_refl) as (Hs1 & Hin1 & Hout1). clear Hfalse Htrue.
      assert (Hsettled : ∀ m, m ≠ m0 → settled bk1 m periodDate ↔ settled bk m periodDate).
      { intros m Hm. unfold settled. rewrite Hs1. split.
        - intros (id' & s & Hs & Hms & Hd). exists id', s. split; [|done].
          destruct (decide (id' = settlement_id m0)) as [->|Hid].
          + rewrite lookup_insert_eq in Hs. injection Hs as <-. done.
          + by rewrite lookup_insert_ne in Hs.
        - intros (id' & s & Hs & Hms & Hd). exists id', s. split; [|done].
          rewrite lookup_insert_ne; [done|]. intros <-.
          rewrite Hfresh in Hs; [done|]. simpl. left. }
      assert (Hfees : ∀ m, fees_of bk1 m = fees_of bk m)
        by (intros m; unfold fees_of; by rewrite Hf1).
      destruct (IH (S created) bk1)
        as (dues & bk' & Hrest & Hnd' & Hdues & Hrows & Hothers & Hits & Hitothers & Hr & Hf);
        [done | done | done | | | |].
      { rewrite Hs1, lookup_insert_ne; [done|]. apply Hne. }
      { intros m Hm. rewrite Hs1, lookup_insert_ne; [apply Hfresh; by right|].
        intros Heq. apply Hinj in Heq as <-. done. }
      { intros m i Hm. rewrite Hout1; [apply Hitems; by right|]. cbn [fst].
        intros Heq. apply Hinj in Heq as ->. done. }
      assert (Hnot0 : m0 ∉ dues) by (intros Hin; apply Hdues in Hin as [? _]; done).
      exists (m0 :: dues), bk'. split.
      { rewrite Hrest. do 2 f_equal. cbn [length]. lia. }
      split; [by constructor|]. split.
      { intros m. rewrite elem_of_cons, Hdues. split.
        - intros [-> | (Hm & Hl & Hns)].
          + split; [by left|]. by apply Hok.
          + assert (m ≠ m0) by (by intros ->). split; [by right|]. split; [done|].
            by rewrite <- Hsettled.
        - intros (Hm & Hl & Hns). destruct (decide (m = m0)) as [->|Hmne]; [by left|].
          right. apply elem_of_cons in Hm as [?|Hm]; [done|]. split; [done|]. split; [done|].
          by rewrite Hsettled. }
      split.
      { intros m [-> | Hm]%elem_of_cons.
        - rewrite Hothers; [by rewrite Hs1, lookup_insert_eq|].
          intros m Hm Heq. apply Hinj in Heq as <-. done.
        - rewrite (Hrows m Hm). unfold settlement_row. by rewrite !Hfees. }
      split.
      { intros k Hk. rewrite Hothers by (intros m Hm; apply Hk; by right).
        rewrite Hs1, lookup_insert_ne; [done|]. intros Heq. by apply (Hk m0); [left|]. }
      split.
      { intros m i inv [-> | Hm]%elem_of_cons Hi.
        - rewrite Hitothers; [by apply Hin1|]. cbn [fst].
          intros m Hm Heq. apply Hinj in Heq as <-. done.
        - rewrite (Hits m i inv Hm Hi). by rewrite !Hfees. }
      split.
      { intros k Hk. rewrite Hitothers by (intros m Hm; apply Hk; by right).
        apply Hout1. apply Hk. by left. }
      by rewrite Hr, Hf, Hr1, Hf1.
    + rewrite (Hfalse eq_refl) in *. clear Hfalse Htrue.
      destruct (IH created bk)
        as (dues & bk' & Hrest & Hnd' & Hdues & Hrows & Hothers & Hits & Hitothers & Hr & Hf);
        [done | done | done | done | | |].
      { intros m Hm. apply Hfresh. by right. }
      { intros m i Hm. apply Hitems. by right. }
      exists dues, bk'. split; [done|]. split; [done|]. split; [|done].
      intros m. rewrite Hdues. split.
      * intros (Hm & Hl & Hns). split; [by right | done].
      * intros ([-> | Hm]%elem_of_cons & Hl & Hns); [|done].
        assert (false = true) by (by apply Hok). done.
Qed.

(** The loop writes nothing when every merchant is without paid invoices
    of the day or has its settlement. *)
Lemma settleAll_settled db now settlement_id periodDate ms : ∀ created bk,
  settlements bk !! "" = None →
  (∀ m, m ∈ ms.*1 → day_invoices db periodDate m = [] ∨ settled bk m periodDate) →
  settleAll' db now settlement_id periodDate ms created bk = (Ok created, bk).
Proof.
  induction ms as [|[m0 row0] ms IH]; intros created bk Hempty Hdone; [done|].
  cbn [settleAll]. cbv [mbind B_bind].
  assert (settleMerchant' db now settlement_id periodDate (m0, row0) bk = (Ok false, bk)) as ->.
  { unfold settleMerchant. cbv [mbind B_bind mret B_ret get_books]. cbn [fst].
    fold (day_invoices db periodDate m0).
    destruct (day_invoices db periodDate m0) as [|kv l] eqn:Hl; [done|].
    pose proof (existing_settlement bk m0 periodDate) as Hex.
    destruct (sql_select_where _ (settlements bk)) as [|[id s] rows].
    - exfalso. destruct (Hdone m0) as [?|?]; [simpl; left | congruence | done].
    - destruct Hex as [Hid _]. by rewrite decide_False by (intros ->; by rewrite Hempty in Hid). }
  apply IH; [done|]. intros m Hm. apply Hdone. by right.
Qed.

(** A merchant gets a settlement when it is active, has invoices paid on
    the day and has no settlement of the day. *)
Definition to_settle (db : Db) (bk : Books) (periodDate merchantId : string) : Prop :=
  (∃ row, merchants db !! merchantId = Some row ∧ m_status row = "active")
  ∧ day_invoices db periodDate merchantId ≠ []
  ∧ ¬ settled bk merchantId periodDate.

(** The amounts of the day and the fees of a merchant are small enough
    for the products and the sums of the code, on numbers in double
    precision, to be exact. *)
Definition exact_totals (db : Db) (bk : Books) (periodDate merchantId : string) : Prop :=
  sum_of (λ inv, Z.abs (inv_final_amount inv)) (day_invoices db periodDate merchantId)
    * (Z.abs (fee_bps (fees_of bk merchantId)) + 1)
  + Z.of_nat (length (day_invoices db periodDate merchantId))
    * Z.abs (fee_fixed (fees_of bk merchantId))
  ≤ MAX_SAFE_INTEGER.

(** X22. One run of the settlement of a day, with new identifiers and
    amounts in the exact range: the run does not throw and counts the
    settlements it creates, one for each active merchant that has invoices
    paid on the day and no settlement of the day yet. The settlement is
    [pending]; its gross amount is the sum of the final amounts of these
    invoices, its fee the sum of their fees and its net amount the sum of
    their net amounts; the fee and the net amount are not negative, the
    gross amount is at most their sum and equals it when no fee exceeds
    its amount; each invoice has its item. The other settlements and the
    refunds are left as they were, and a second run for the same day
    creates nothing and writes nothing. *)
Theorem settlement_run_creates_balanced_settlements db now settlement_id periodDate bk :
  Inj (=) (=) settlement_id →
  (∀ m, settlement_id m ≠ "") →
  settlements bk !! "" = None →
  (∀ m, settlements bk !! settlement_id m = None) →
  (∀ m i, settlement_items bk !! (settlement_id m, i) = None) →
  (∀ m, to_settle db bk periodDate m → exact_totals db bk periodDate m) →
  ∃ dues bk',
    runSettlementForDate' db now settlement_id periodDate bk = (Ok (length dues), bk')
    ∧ NoDup dues
    ∧ (∀ m, m ∈ dues ↔ to_settle db bk periodDate m)
    ∧ (∀ m, to_settle db bk periodDate m →
         let feeBps := fee_bps (fees_of bk m) in
         let feeFixed := fee_fixed (fees_of bk m) in
         let paidInvoices := day_invoices db periodDate m in
         ∃ s, settlements bk' !! settlement_id m = Some s
           ∧ st_merchant_id s = m ∧ st_period_date s = periodDate
           ∧ st_status s = "pending" ∧ st_created_at s = now ∧ st_completed_at s = None
           ∧ st_gross_amount s = sum_of inv_final_amount paidInvoices
           ∧ st_fee_amount s
             = sum_of (λ inv, feeForAmount (inv_final_amount inv) feeBps feeFixed) paidInvoices
           ∧ st_net_amount s
             = sum_of (λ inv, Z.max 0 (inv_final_amount inv
                                       - feeForAmount (inv_final_amount inv) feeBps feeFixed))
                 paidInvoices
           ∧ 0 ≤ st_fee_amount s ∧ 0 ≤ st_net_amount s
           ∧ st_gross_amount s ≤ st_fee_amount s + st_net_amount s
           ∧ ((∀ kv, kv ∈ paidInvoices →
                 feeForAmount (inv_final_amount kv.2) feeBps feeFixed ≤ inv_final_amount kv.2) →
              st_gross_amount s = st_fee_amount s + st_net_amount s)
           ∧ (∀ i inv, (i, inv) ∈ paidInvoices →
                settlement_items bk' !! (settlement_id m, i)
                = Some (settlement_item feeBps feeFixed inv)))
    ∧ (∀ k, (∀ m, to_settle db bk periodDate m → k ≠ settlement_id m) →
         settlements bk' !! k = settlements bk !! k)
    ∧ refunds bk' = refunds bk
    ∧ (∀ now' settlement_id',
         runSettlementForDate' db now' settlement_id' periodDate bk' = (Ok 0%nat, bk')).
Proof.
  intros Hinj Hne Hempty Hfresh Hitems _. unfold runSettlementForDate.
  set (ms := sql_select_where (λ kv, m_status kv.2 = "active") (merchants db)).
  assert (Hms : ∀ m, m ∈ ms.*1 ↔ ∃ row, merchants db !! m = Some row ∧ m_status row = "active").
  { intros m. unfold ms, sql_select_where. rewrite list_elem_of_fmap. split.
    - intros ([m' row] & -> & [Hact Hin]%list_elem_of_filter).
      apply elem_of_map_to_list in Hin. by exists row.
    - intros (row & Hrow & Hact). exists (m, row). split; [done|].
      apply list_elem_of_filter. split; [done|]. by apply elem_of_map_to_list. }
  assert (Hnd : NoDup ms.*1).
  { unfold ms, sql_select_where.
    eapply sublist_NoDup; [|apply fmap_sublist; apply sublist_filter].
    apply NoDup_fst_map_to_list. }
  destruct (settleAll_run db now settlement_id periodDate ms 0%nat bk)
    as (dues & bk' & Hrun & Hnd' & Hdues & Hrows & Hothers & Hits & _ & Hr & Hf);
    [done | done | done | done | by intros | by intros |].
  assert (Hdue : ∀ m, m ∈ dues ↔ to_settle db bk periodDate m).
  { intros m. rewrite Hdues, Hms. done. }
  exists dues, bk'. split; [done|]. split; [done|]. split; [done|].
  split; [|split; [|split; [done|]]].
  - intros m Hm. apply Hdue in Hm.
    exists (settlement_row db bk now periodDate m). split; [by apply Hrows|].
    unfold settlement_row. cbn [st_merchant_id st_period_date st_status st_created_at
      st_completed_at st_gross_amount st_fee_amount st_net_amount].
    destruct (totals_balance (fee_bps (fees_of bk m)) (fee_fixed (fees_of bk m))
                (day_invoices db periodDate m)) as (Hfee & Hnet & Hle & Heq).
    do 5 (split; [done|]).
    split; [by rewrite total_sum_of|]. split; [by rewrite total_sum_of|].
    split; [by rewrite total_sum_of|]. do 4 (split; [done|]).
    intros i inv Hi. by apply Hits.
  - intros k Hk. apply Hothers. intros m Hm. apply Hk. by apply Hdue.
  - intros now' settlement_id'. apply settleAll_settled.
    + rewrite Hothers; [done|]. intros m _. apply not_eq_sym, Hne.
    + intros m Hm.
      destruct (day_invoices db periodDate m) as [|kv l] eqn:Hl; [by left|]. right.
      pose proof (existing_settlement bk m periodDate) as Hex.
      destruct (sql_select_where _ (settlements bk)) as [|[id s] rows].
      * assert (Hin : m ∈ dues) by (apply Hdues; by rewrite Hl).
        exists (settlement_id m), (settlement_row db bk now periodDate m).
        split; [by apply Hrows | done].
      * destruct Hex as [Hid (id' & s' & Hs' & Hm' & Hd')]. exists id', s'.
        split; [|done]. rewrite Hothers; [done|]. intros m' _ ->. by rewrite Hfresh in Hs'.
Qed.

End SettlementProperties.

#[local] Instance settlement_uuid_inj : Inj (=) (=) settlement_uuid.
Proof. unfold settlement_uuid. apply _. Qed.

(** The settlement of 2024-01-01 for merchant [m1]: the fee of the invoice
    of 50 is 100, its net amount is 0, and the gross amount 10051 is less
    than the fee 270 plus the net amount 9831. *)
Example settlement_day_scenario :
  (runSettlementForDate example_getTime settlement_db 1704200000 settlement_uuid "2024-01-01"
     settlement_books).1 = Ok 1%nat
  ∧ settlements (runSettlementForDate example_getTime settlement_db 1704200000 settlement_uuid
                   "2024-01-01" settlement_books).2 !! "settlement-m1"
    = Some (mkSettlement "m1" "2024-01-01" 10051 270 9831 "pending" 1704200000 None)
  ∧ settlement_items (runSettlementForDate example_getTime settlement_db 1704200000
                        settlement_uuid "2024-01-01" settlement_books).2
      !! ("settlement-m1", "inv2")
    = Some (mkItem 50 100 0).
Proof. repeat split; vm_compute; reflexivity. Qed.

Lemma settlement_run_creates_balanced_settlements_witness :
  ∃ dues bk',
    runSettlementForDate example_getTime settlement_db 1704200000 settlement_uuid "2024-01-01"
      settlement_books = (Ok (length dues), bk')
    ∧ NoDup dues
    ∧ (∀ m, m ∈ dues ↔ to_settle example_getTime settlement_db settlement_books "2024-01-01" m).
Proof.
  destruct (settlement_run_creates_balanced_settlements example_getTime settlement_db
              1704200000 settlement_uuid "2024-01-01" settlement_books)
    as (dues & bk' & Hrun & Hnd & Hdues & _).
  - apply settlement_uuid_inj.
  - intros m. discriminate.
  - reflexivity.
  - intros m. reflexivity.
  - intros m i. reflexivity.
  - intros m ((row & Hrow & _) & _). unfold settlement_db, example_merchants in Hrow.
    cbn [merchants] in Hrow.
    apply lookup_insert_Some in Hrow as [[<- _] | [_ Hrow]].
    + vm_compute. intros ?. discriminate.
    + apply lookup_singleton_Some in Hrow as [<- _]. vm_compute. intros ?. discriminate.
  - exists dues, bk'. exact (conj Hrun (conj Hnd Hdues)).
Defined.

(** ** Properties of the alerts *)

(** The open alerts of the table. *)
Definition open_alerts (db : Db) : list (string * Alert) :=
  sql_select_where (λ kv, al_resolved_at kv.2 = None) (alerts db).

Lemma open_alerts_elem db id a :
  (id, a) ∈ open_alerts db ↔ alerts db !! id = Some a ∧ al_resolved_at a = None.
Proof.
  unfold open_alerts, sql_select_where. rewrite list_elem_of_filter, elem_of_map_to_list.
  simpl. tauto.
Qed.

Lemma listOpenAlerts_run limit db :
  ∃ l, listOpenAlerts limit db = (Ok l, db)
    ∧ (length l ≤ limit)%nat
    ∧ (∀ id a, (id, a) ∈ l → alerts db !! id = Some a ∧ al_resolved_at a = None)
    ∧ ((length (open_alerts db) ≤ limit)%nat →
       ∀ id a, alerts db !! id = Some a → al_resolved_at a = None → (id, a) ∈ l).
Proof.
  eexists. split; [reflexivity|]. fold (open_alerts db). split; [|split].
  - rewrite length_take. lia.
  - intros id a Hin. apply subseteq_take in Hin. rewrite order_by_Permutation in Hin.
    by apply open_alerts_elem.
  - intros Hfew id a Ha Hopen. rewrite take_ge by (by rewrite order_by_Permutation).
    rewrite order_by_Permutation. by apply open_alerts_elem.
Qed.

(** X23. Open alerts and their resolution. [listOpenAlerts] returns at
    most [limit] alerts, all of them unresolved, and all the unresolved ones
    when there are at most [limit]. After [resolveAlert] the alert carries
    the time of the call as [resolved_at], also when it had been resolved
    before, and is not listed any more; the other alerts are left as they
    were, so that the alerts listed afterwards were open before; for an
    unknown identifier nothing is written. An alert raised by
    [createAlert] under a new identifier is open. *)
Theorem resolved_alert_is_not_listed now id limit db :
  let db' := (resolveAlert now id db).2 in
  (∃ l, listOpenAlerts limit db = (Ok l, db)
     ∧ (length l ≤ limit)%nat
     ∧ (∀ id' a, (id', a) ∈ l → alerts db !! id' = Some a ∧ al_resolved_at a = None)
     ∧ ((length (open_alerts db) ≤ limit)%nat →
        ∀ id' a, alerts db !! id' = Some a → al_resolved_at a = None → (id', a) ∈ l))
  ∧ (∃ l', listOpenAlerts limit db' = (Ok l', db')
       ∧ (id ∉ l'.*1)
       ∧ (∀ id' a, (id', a) ∈ l' →
            id' ≠ id ∧ alerts db !! id' = Some a ∧ al_resolved_at a = None))
  ∧ (∀ a, alerts db !! id = Some a →
       alerts db' !! id
       = Some (mkAlert (al_merchant_id a) (al_type a) (al_message a) (al_created_at a)
                 (Some now)))
  ∧ (∀ id', id' ≠ id → alerts db' !! id' = alerts db !! id')
  ∧ (alerts db !! id = None → alerts db' = alerts db)
  ∧ (∀ now' merchant_id type message,
       alerts db !! id = None →
       ∃ l, listOpenAlerts (S (length (open_alerts db)))
              (createAlert now' id merchant_id type message db).2
            = (Ok l, (createAlert now' id merchant_id type message db).2)
         ∧ (id, mkAlert merchant_id type message now' None) ∈ l).
Proof.
  intros db'.
  assert (Hid : ∀ a, alerts db !! id = Some a →
            alerts db' !! id
            = Some (mkAlert (al_merchant_id a) (al_type a) (al_message a) (al_created_at a)
                      (Some now))).
  { intros a Ha. unfold db', resolveAlert. cbv [modify_db snd]. cbn [alerts set_alerts].
    by rewrite lookup_alter_eq, Ha. }
  assert (Hother : ∀ id', id' ≠ id → alerts db' !! id' = alerts db !! id').
  { intros id' Hne. unfold db', resolveAlert. cbv [modify_db snd]. cbn [alerts set_alerts].
    by rewrite lookup_alter_ne. }
  split; [apply listOpenAlerts_run|]. split; [|split; [done|split; [done|split]]].
  - destruct (listOpenAlerts_run limit db') as (l' & Hrun & _ & Hopen & _).
    exists l'. split; [done|].
    assert (Hne : ∀ id' a, (id', a) ∈ l' → id' ≠ id).
    { intros id' a Hin ->. apply Hopen in Hin as [Ha Hres].
      destruct (alerts db !! id) as [a0|] eqn:Ha0.
      - rewrite (Hid a0 eq_refl) in Ha. injection Ha as <-. done.
      - unfold db', resolveAlert in Ha. revert Ha. cbv [modify_db snd]. cbn [alerts set_alerts].
        by rewrite lookup_alter_eq, Ha0. }
    split.
    + intros ([id' a] & -> & Hin)%list_elem_of_fmap. by apply (Hne id' a).
    + intros id' a Hin. pose proof (Hne id' a Hin) as Hid'. split; [done|].
      apply Hopen in Hin as [Ha Hres]. by rewrite Hother in Ha.
  - intros Hnone. apply map_eq. intros id'. destruct (decide (id' = id)) as [->|Hne].
    + unfold db', resolveAlert. cbv [modify_db snd]. cbn [alerts set_alerts].
      by rewrite lookup_alter_eq, Hnone.
    + by apply Hother.
  - intros now' merchant_id type message Hnone.
    set (db1 := (createAlert now' id merchant_id type message db).2).
    assert (Halerts : alerts db1 = <[id := mkAlert merchant_id type message now' None]> (alerts db)).
    { unfold db1, createAlert, sql_insert. cbv [mbind M_bind mret M_ret get_db modify_db throw].
      by rewrite Hnone. }
    destruct (listOpenAlerts_run (S (length (open_alerts db))) db1) as (l & Hrun & _ & _ & Hall).
    exists l. split; [done|]. apply Hall; [|by rewrite Halerts, lookup_insert_eq | done].
    unfold open_alerts, sql_select_where. rewrite Halerts.
    rewrite map_to_list_insert by done. rewrite filter_cons_True by done. done.
Qed.
